(** * An open-addressing hash table with linear probing (hash_table.c)

    A shallow embedding of [src/hash_table.c] and the properties of its
    engine: FNV-1a hashing, the bounded probe scan, growth by rehashing,
    insertion, removal and the string-key wrappers.

    Modelling conventions.
    - [size_t] is a 64-bit unsigned integer: a [Z] in [0, 2^64) whose
      wrap-around is written [C.wrap].
    - [float] is IEEE-754 binary32, taken from the parametric [SpecFloat]
      operations at precision 24 and maximal exponent 128; expressions
      are evaluated in that format, and a float division by zero gives an
      infinity or a NaN as IEEE-754 has it.
    - A pointer to a caller buffer is [option (list byte)]: [None] is the
      null pointer, [Some bs] the bytes readable from the pointer on.
    - A value ([void *]) is an address, a [Z]; [NULL] is [0].  The table
      never looks inside a value.
    - The three backing arrays are [option (list _)]: [None] is a null
      array pointer (a [calloc] that failed).
    - [malloc] and [calloc] draw their results from the list of upcoming
      allocator answers carried by the [world]; [free] and destructor calls
      on keys and values are appended to the world's trace.  Messages
      printed on [stderr] and the release of the backing arrays themselves
      are not recorded.
    - Behaviour the C standard leaves undefined is a result of its own,
      [Undefined]. *)

From Stdlib Require Import ZArith Lia Bool.
From Stdlib Require Import Strings.Byte.
From Stdlib Require Import Floats.SpecFloat.
From stdpp Require Import base tactics option list.

Local Open Scope Z_scope.

(** ** Results of a C computation *)

Inductive ub : Type :=
| NullDeref      (* a null pointer was dereferenced *)
| DivByZero      (* integer [%] with a zero divisor *)
| OutOfBounds    (* a read or write past the end of a buffer *)
| BadFloatCast.  (* float to [size_t] conversion out of range *)

Inductive res (A : Type) : Type :=
| Ret (a : A)
| Undefined (u : ub)
| OutOfFuel.

Arguments Ret {A} a.
Arguments Undefined {A} u.
Arguments OutOfFuel {A}.

Definition rbind {A B} (c : res A) (k : A -> res B) : res B :=
  match c with
  | Ret a => k a
  | Undefined u => Undefined u
  | OutOfFuel => OutOfFuel
  end.

Notation "x <-- c ;; k" := (rbind c (fun x => k))
  (at level 100, c at next level, right associativity).

(** ** The allocator and the trace of releases *)

Inductive event : Type :=
| FreeKey (k : list byte)          (* free(table->keys[i]) *)
| FreeValue (v : Z)                (* free(value) *)
| Destructor (d : nat) (v : Z).    (* table->_value_destructor(value) *)

Record world : Type := World {
  allocs : list Z;       (* answers of the next malloc/calloc calls *)
  trace : list event     (* releases so far, oldest first *)
}.

Definition M (A : Type) : Type := world -> res (A * world).

Definition ret {A} (a : A) : M A := fun w => Ret (a, w).

Definition bind {A B} (c : M A) (k : A -> M B) : M B :=
  fun w => match c w with
           | Ret (a, w') => k a w'
           | Undefined u => Undefined u
           | OutOfFuel => OutOfFuel
           end.

Definition lift {A} (c : res A) : M A :=
  fun w => match c with
           | Ret a => Ret (a, w)
           | Undefined u => Undefined u
           | OutOfFuel => OutOfFuel
           end.

Notation "x <- c ;; k" := (bind c (fun x => k))
  (at level 100, c at next level, right associativity).
Notation "c ;;; k" := (bind c (fun _ => k))
  (at level 100, right associativity).

Definition NULL : Z := 0.

(** [malloc]/[calloc]: the next allocator answer; an exhausted allocator
    answers [NULL]. *)
Definition malloc : M Z :=
  fun w => match allocs w with
           | [] => Ret (NULL, w)
           | p :: rest => Ret (p, World rest (trace w))
           end.

Definition emit (e : event) : M unit :=
  fun w => Ret (tt, World (allocs w) (trace w ++ [e])).

(** ** C scalars *)

Module C.

Definition size_max : Z := 2 ^ 64 - 1.

Definition wrap (z : Z) : Z := z mod 2 ^ 64.

(** [a % b] on [size_t]. *)
Definition modulo (a b : Z) : res Z :=
  if b =? 0 then Undefined DivByZero else Ret (a mod b).

Definition byte_val (b : byte) : Z := Z.of_N (Byte.to_N b).

End C.

(** binary32 arithmetic. *)
Module F32.

Definition prec : Z := 24.
Definition emax : Z := 128.

(** The float closest to [m * 2^e]. *)
Definition lit (m e : Z) : spec_float := binary_normalize prec emax m e false.

(** Conversion [(float) n] of a [size_t]. *)
Definition of_size (n : Z) : spec_float := lit n 0.

Definition div : spec_float -> spec_float -> spec_float := SFdiv prec emax.
Definition mul : spec_float -> spec_float -> spec_float := SFmul prec emax.

(** [a > b]; false as soon as one side is a NaN. *)
Definition gt (a b : spec_float) : bool := SFltb b a.

(** Conversion [(size_t) f]: truncation toward zero, undefined when the
    truncated value is not a [size_t]. *)
Definition to_size (f : spec_float) : res Z :=
  match f with
  | S754_zero _ => Ret 0
  | S754_finite s m e =>
      let z := if 0 <=? e then Z.pos m * 2 ^ e else Z.pos m / 2 ^ (- e) in
      if s then (if z =? 0 then Ret 0 else Undefined BadFloatCast)
      else if z <=? C.size_max then Ret z else Undefined BadFloatCast
  | S754_infinity _ | S754_nan => Undefined BadFloatCast
  end.

(** A float as the binary32 format has it: a mantissa of at most 24
    digits, of exactly 24 unless the exponent is the least one. *)
Definition canonical (x : spec_float) : bool := valid_binary prec emax x.

(** Neither a NaN nor an infinity. *)
Definition finite (x : spec_float) : bool :=
  match x with
  | S754_zero _ | S754_finite _ _ _ => true
  | S754_infinity _ | S754_nan => false
  end.

(** [x < +infinity]: every float but the NaN and +infinity. *)
Definition below_infinity (x : spec_float) : bool :=
  match x with
  | S754_nan | S754_infinity false => false
  | _ => true
  end.

(** [n / d > x] in exact arithmetic, for a divisor [d > 0]: no rounding of
    [n], of [d] or of the quotient. *)
Definition exceeds (n d : Z) (x : spec_float) : bool :=
  match x with
  | S754_nan => false
  | S754_infinity s => s
  | S754_zero _ => 0 <? n
  | S754_finite s m e =>
      let v := if s then Z.neg m else Z.pos m in
      if 0 <=? e then v * 2 ^ e * d <? n else v * d <? n * 2 ^ (- e)
  end.

(** The largest [n] with [n / c <= x], for a positive finite [x]. *)
Definition max_entries (x : spec_float) (c : Z) : Z :=
  match x with
  | S754_finite false m e =>
      if 0 <=? e then Z.pos m * 2 ^ e * c else (Z.pos m * c) / 2 ^ (- e)
  | _ => 0
  end.

End F32.

(** ** Buffers and arrays *)

(** [memcmp(a, b, n) == 0] for buffers holding at least [n] bytes. *)
Fixpoint bytes_eqb (a b : list byte) : bool :=
  match a, b with
  | [], [] => true
  | x :: a', y :: b' => Byte.eqb x y && bytes_eqb a' b'
  | _, _ => false
  end.

Definition memcmp_eq (a b : list byte) (n : Z) : bool :=
  bytes_eqb (take (Z.to_nat n) a) (take (Z.to_nat n) b).

(** The [n] bytes read from a caller buffer. *)
Definition read_bytes (buf : list byte) (n : Z) : res (list byte) :=
  if n <=? Z.of_nat (length buf) then Ret (take (Z.to_nat n) buf)
  else Undefined OutOfBounds.

(** [strlen]: the number of bytes before the first zero byte. *)
Fixpoint strlen (s : list byte) : res Z :=
  match s with
  | [] => Undefined OutOfBounds
  | b :: s' => if Byte.eqb b x00 then Ret 0
               else n <-- strlen s' ;; Ret (n + 1)
  end.

Definition load {A} (arr : option (list A)) (i : Z) : res A :=
  match arr with
  | None => Undefined NullDeref
  | Some l => match l !! Z.to_nat i with
              | Some x => Ret x
              | None => Undefined OutOfBounds
              end
  end.

Definition store {A} (arr : option (list A)) (i : Z) (x : A)
  : res (option (list A)) :=
  match arr with
  | None => Undefined NullDeref
  | Some l => if Z.to_nat i <? length l then Ret (Some (<[Z.to_nat i := x]> l))
              else Undefined OutOfBounds
  end%nat.

(** [calloc(n, _)]: a zeroed array of [n] cells, or a null pointer. *)
Definition calloc {A} (n : Z) (zero : A) : M (option (list A)) :=
  p <- malloc ;;
  ret (if p =? NULL then None else Some (replicate (Z.to_nat n) zero)).

(** ** The table *)

Record hash_table : Type := HashTable {
  capacity : Z;
  keys : option (list (option (list byte)));
  key_sizes : option (list Z);
  values : option (list Z);
  size : Z;
  _resize_threshold : spec_float;
  _resize_factor : spec_float;
  _value_destructor : option nat
}.

Definition HASH_TABLE_DEFAULT_INITIAL_CAPACITY : Z := 16.
Definition HASH_TABLE_DEFAULT_RESIZE_THRESHOLD : spec_float := F32.lit 1 (-1).
Definition HASH_TABLE_DEFAULT_RESIZE_FACTOR : spec_float := F32.lit 2 0.

(** FNV-1a over [key_size] bytes, in [size_t] arithmetic. *)
Definition fnv_prime : Z := 0x1000193.
Definition fnv_offset : Z := 0x811C9DC5.

Definition fnv_step (hash : Z) (b : byte) : Z :=
  C.wrap (Z.lxor hash (C.byte_val b) * fnv_prime).

Definition hash_table_fnv_1a (key : list byte) (key_size : Z) : res Z :=
  bytes <-- read_bytes key key_size ;;
  Ret (fold_left fnv_step bytes fnv_offset).

(** *** Creation *)

(** [malloc] of the table itself is not checked: on a null result the first
    field assignment dereferences it.  The three [calloc]s are not checked
    either. *)
Definition hash_table_create_with_parameters_and_destructor
    (capacity : Z) (resize_threshold resize_factor : spec_float)
    (destructor : option nat) : M (option hash_table) :=
  table <- malloc ;;
  if table =? NULL then lift (Undefined NullDeref)
  else
    ks <- calloc capacity None ;;
    kz <- calloc capacity 0 ;;
    vs <- calloc capacity NULL ;;
    ret (Some (HashTable capacity ks kz vs 0 resize_threshold resize_factor
                 destructor)).

Definition hash_table_create : M (option hash_table) :=
  hash_table_create_with_parameters_and_destructor
    HASH_TABLE_DEFAULT_INITIAL_CAPACITY
    HASH_TABLE_DEFAULT_RESIZE_THRESHOLD
    HASH_TABLE_DEFAULT_RESIZE_FACTOR
    None.

Definition hash_table_create_with_destructor (destructor : option nat)
  : M (option hash_table) :=
  hash_table_create_with_parameters_and_destructor
    HASH_TABLE_DEFAULT_INITIAL_CAPACITY
    HASH_TABLE_DEFAULT_RESIZE_THRESHOLD
    HASH_TABLE_DEFAULT_RESIZE_FACTOR
    destructor.

Definition hash_table_create_with_parameters
    (capacity : Z) (resize_threshold resize_factor : spec_float)
  : M (option hash_table) :=
  hash_table_create_with_parameters_and_destructor
    capacity resize_threshold resize_factor None.

Definition hash_table_size (table : option hash_table) : Z :=
  match table with
  | None => 0
  | Some t => size t
  end.

Definition hash_table_capacity (table : option hash_table) : Z :=
  match table with
  | None => 0
  | Some t => capacity t
  end.

(** *** Field updates *)

Definition set_values (t : hash_table) (vs : option (list Z)) : hash_table :=
  HashTable (capacity t) (keys t) (key_sizes t) vs (size t)
    (_resize_threshold t) (_resize_factor t) (_value_destructor t).

Definition set_slot (t : hash_table)
    (ks : option (list (option (list byte)))) (kz vs : option (list Z))
    (sz : Z) : hash_table :=
  HashTable (capacity t) ks kz vs sz
    (_resize_threshold t) (_resize_factor t) (_value_destructor t).

Definition set_size (t : hash_table) (sz : Z) : hash_table :=
  set_slot t (keys t) (key_sizes t) (values t) sz.

(** *** The probe scan

    The loops of [hash_table_get], [hash_table_insert] and
    [hash_table_remove] are the same scan:
    [while (table->keys[index] != NULL && iterations < table->capacity)],
    left early when the slot holds the key.  [probe] is that loop; it
    returns how the loop was left together with the final [index] and
    [iterations].  [fuel] bounds the number of times the loop condition is
    evaluated. *)

Inductive scan : Type :=
| Hit (index : Z)    (* the key-equality branch was taken at [index] *)
| Stop (index : Z).  (* the loop condition was false at [index] *)

Definition scan_index (s : scan) : Z :=
  match s with
  | Hit i | Stop i => i
  end.

(** [table->key_sizes[index] == key_size &&
     memcmp(table->keys[index], key, key_size) == 0] *)
Definition key_matches (stored : list byte) (stored_size : Z)
    (key : list byte) (key_size : Z) : bool :=
  (stored_size =? key_size) && memcmp_eq stored key key_size.

Fixpoint probe (fuel : nat) (table : hash_table) (key : list byte)
    (key_size : Z) (index iterations : Z) : res (scan * Z) :=
  match fuel with
  | O => OutOfFuel
  | S fuel' =>
      k <-- load (keys table) index ;;
      match k with
      | None => Ret (Stop index, iterations)
      | Some stored =>
          if iterations <? capacity table then
            ks <-- load (key_sizes table) index ;;
            if key_matches stored ks key key_size
            then Ret (Hit index, iterations)
            else
              index' <-- C.modulo (C.wrap (index + 1)) (capacity table) ;;
              probe fuel' table key key_size index' (C.wrap (iterations + 1))
          else Ret (Stop index, iterations)
      end
  end.

Definition probe_fuel (table : hash_table) : nat :=
  S (Z.to_nat (capacity table)).

(** Lines 97-98 and the loop: where the scan for [key] ends. *)
Definition find_slot (t : hash_table) (key : list byte) (key_size : Z)
  : res (scan * Z) :=
  h <-- hash_table_fnv_1a key key_size ;;
  index <-- C.modulo h (capacity t) ;;
  probe (probe_fuel t) t key key_size index 0.

(** *** Lookup *)

Definition hash_table_get (table : option hash_table)
    (key : option (list byte)) (key_size : Z) : res Z :=
  match table, key with
  | Some t, Some k =>
      r <-- find_slot t k key_size ;;
      match fst r with
      | Hit index => load (values t) index
      | Stop _ => Ret NULL
      end
  | _, _ => Ret NULL
  end.

Definition hash_table_contains (table : option hash_table)
    (key : option (list byte)) (key_size : Z) : res Z :=
  match table, key with
  | Some _, Some _ =>
      v <-- hash_table_get table key key_size ;;
      Ret (if v =? NULL then 0 else 1)
  | _, _ => Ret 0
  end.

(** *** Growth *)

(** The inner loop of [hash_table_resize]: the first free slot from
    [index] on. *)
Fixpoint rehash_probe (fuel : nat) (table : hash_table)
    (index iterations : Z) : res (Z * Z) :=
  match fuel with
  | O => OutOfFuel
  | S fuel' =>
      k <-- load (keys table) index ;;
      match k with
      | None => Ret (index, iterations)
      | Some _ =>
          if iterations <? capacity table then
            index' <-- C.modulo (C.wrap (index + 1)) (capacity table) ;;
            rehash_probe fuel' table index' (C.wrap (iterations + 1))
          else Ret (index, iterations)
      end
  end.

(** One round of the [for] loop of [hash_table_resize], for old slot [i]. *)
Definition rehash_slot (old_keys : option (list (option (list byte))))
    (old_key_sizes old_values : option (list Z)) (i : Z)
    (table : hash_table) : res hash_table :=
  k <-- load old_keys i ;;
  match k with
  | None => Ret table
  | Some kb =>
      ks <-- load old_key_sizes i ;;
      h <-- hash_table_fnv_1a kb ks ;;
      start <-- C.modulo h (capacity table) ;;
      r <-- rehash_probe (probe_fuel table) table start 0 ;;
      let index := fst r in
      keys' <-- store (keys table) index (Some kb) ;;
      key_sizes' <-- store (key_sizes table) index ks ;;
      v <-- load old_values i ;;
      values' <-- store (values table) index v ;;
      Ret (set_slot table keys' key_sizes' values' (C.wrap (size table + 1)))
  end.

(** The [for] loop, with [n] rounds left, the next one for old slot [i]. *)
Fixpoint rehash (n : nat) (old_keys : option (list (option (list byte))))
    (old_key_sizes old_values : option (list Z)) (i : Z)
    (table : hash_table) : res hash_table :=
  match n with
  | O => Ret table
  | S n' =>
      table' <-- rehash_slot old_keys old_key_sizes old_values i table ;;
      rehash n' old_keys old_key_sizes old_values (C.wrap (i + 1)) table'
  end.

(** [hash_table_resize] is static and only called on a table that is not
    null.  The three [calloc]s are all made before any is tested. *)
Definition hash_table_resize (table : hash_table) (new_capacity : Z)
  : M (Z * hash_table) :=
  if new_capacity <=? capacity table then ret (1, table)
  else
    let old_keys := keys table in
    let old_key_sizes := key_sizes table in
    let old_values := values table in
    let old_capacity := capacity table in
    new_keys <- calloc new_capacity None ;;
    new_key_sizes <- calloc new_capacity 0 ;;
    new_values <- calloc new_capacity NULL ;;
    match new_keys, new_key_sizes, new_values with
    | Some _, Some _, Some _ =>
        let table' :=
          HashTable new_capacity new_keys new_key_sizes new_values 0
            (_resize_threshold table) (_resize_factor table)
            (_value_destructor table) in
        table'' <- lift (rehash (Z.to_nat old_capacity)
                           old_keys old_key_sizes old_values 0 table') ;;
        ret (0, table'')
    | _, _, _ => ret (1, table)
    end.

(** *** Insertion *)

(** [(float)(table->size + 1) / table->capacity > table->_resize_threshold] *)
Definition load_exceeds (t : hash_table) : bool :=
  F32.gt (F32.div (F32.of_size (C.wrap (size t + 1)))
                  (F32.of_size (capacity t)))
         (_resize_threshold t).

(** [(size_t)(table->capacity * table->_resize_factor)] *)
Definition grown_capacity (t : hash_table) : res Z :=
  F32.to_size (F32.mul (F32.of_size (capacity t)) (_resize_factor t)).

(** The value leaves the table: the destructor when there is one, [free]
    otherwise. *)
Definition release_value (t : hash_table) (v : Z) : M unit :=
  match _value_destructor t with
  | Some d => emit (Destructor d v)
  | None => emit (FreeValue v)
  end.

(** Lines 174-179. *)
Definition grow_if_needed (t : hash_table) : M (Z * hash_table) :=
  if load_exceeds t then
    n <- lift (grown_capacity t) ;;
    hash_table_resize t n
  else ret (0, t).

(** Lines 181-214. *)
Definition insert_slot (t : hash_table) (key : list byte) (key_size : Z)
    (value : Z) : M (Z * hash_table) :=
  r <- lift (find_slot t key key_size) ;;
  match fst r with
  | Hit index =>
      old <- lift (load (values t) index) ;;
      release_value t old ;;;
      values' <- lift (store (values t) index value) ;;
      ret (0, set_values t values')
  | Stop index =>
      key_copy <- malloc ;;
      if key_copy =? NULL then ret (1, t)
      else
        bytes <- lift (read_bytes key key_size) ;;
        keys' <- lift (store (keys t) index (Some bytes)) ;;
        key_sizes' <- lift (store (key_sizes t) index key_size) ;;
        values' <- lift (store (values t) index value) ;;
        ret (0, set_slot t keys' key_sizes' values' (C.wrap (size t + 1)))
  end.

Definition hash_table_insert (table : option hash_table)
    (key : option (list byte)) (key_size : Z) (value : Z)
  : M (Z * option hash_table) :=
  match table, key with
  | Some t, Some k =>
      g <- grow_if_needed t ;;
      if negb (fst g =? 0) then ret (1, Some (snd g))
      else
        r <- insert_slot (snd g) k key_size value ;;
        ret (fst r, Some (snd r))
  | _, _ => ret (1, table)
  end.

(** *** Removal *)

Definition free_key (k : option (list byte)) : M unit :=
  match k with
  | Some kb => emit (FreeKey kb)
  | None => ret tt
  end.

Definition hash_table_remove (table : option hash_table)
    (key : option (list byte)) (key_size : Z) : M (option hash_table) :=
  match table, key with
  | Some t, Some k =>
      r <- lift (find_slot t k key_size) ;;
      match fst r with
      | Hit index =>
          stored <- lift (load (keys t) index) ;;
          free_key stored ;;;
          old <- lift (load (values t) index) ;;
          release_value t old ;;;
          keys' <- lift (store (keys t) index None) ;;
          key_sizes' <- lift (store (key_sizes t) index 0) ;;
          values' <- lift (store (values t) index NULL) ;;
          ret (Some (set_slot t keys' key_sizes' values' (C.wrap (size t - 1))))
      | Stop _ => ret (Some t)
      end
  | _, _ => ret table
  end.

(** *** Clearing *)

Definition clear_slot (i : Z) (t : hash_table) : M hash_table :=
  k <- lift (load (keys t) i) ;;
  match k with
  | Some kb =>
      emit (FreeKey kb) ;;;
      old <- lift (load (values t) i) ;;
      release_value t old ;;;
      keys' <- lift (store (keys t) i None) ;;
      values' <- lift (store (values t) i NULL) ;;
      ret (set_slot t keys' (key_sizes t) values' (size t))
  | None => ret t
  end.

Fixpoint clear_loop (n : nat) (i : Z) (t : hash_table) : M hash_table :=
  match n with
  | O => ret t
  | S n' => t' <- clear_slot i t ;; clear_loop n' (C.wrap (i + 1)) t'
  end.

Definition hash_table_clear (table : option hash_table)
  : M (option hash_table) :=
  match table with
  | None => ret None
  | Some t =>
      t' <- clear_loop (Z.to_nat (capacity t)) 0 t ;;
      ret (Some (set_size t' 0))
  end.

(** [hash_table_destroy]: after the clearing the arrays and the table are
    released; no table is left. *)
Definition hash_table_destroy (table : option hash_table) : M unit :=
  match table with
  | None => ret tt
  | Some _ => _ <- hash_table_clear table ;; ret tt
  end.

(** *** Insertion of a copy *)

Definition hash_table_insert_copy (table : option hash_table)
    (key : option (list byte)) (key_size : Z)
    (value : option (list byte)) (value_size : Z)
  : M (Z * option hash_table) :=
  match table, key, value with
  | Some _, Some _, Some v =>
      value_copy <- malloc ;;
      if value_copy =? NULL then ret (1, table)
      else
        _ <- lift (read_bytes v value_size) ;;
        r <- hash_table_insert table key key_size value_copy ;;
        if negb (fst r =? 0) then emit (FreeValue value_copy) ;;; ret r
        else ret r
  | _, _, _ => ret (1, table)
  end.

(** *** String keys *)

(** [strlen(key) + 1] *)
Definition string_key_size (key : list byte) : res Z :=
  n <-- strlen key ;; Ret (C.wrap (n + 1)).

Definition hash_table_insert_string (table : option hash_table)
    (key : option (list byte)) (value : Z) : M (Z * option hash_table) :=
  match key with
  | None => ret (1, table)
  | Some s =>
      n <- lift (string_key_size s) ;;
      hash_table_insert table key n value
  end.

Definition hash_table_insert_copy_string (table : option hash_table)
    (key : option (list byte)) (value : option (list byte)) (value_size : Z)
  : M (Z * option hash_table) :=
  match key with
  | None => ret (1, table)
  | Some s =>
      n <- lift (string_key_size s) ;;
      hash_table_insert_copy table key n value value_size
  end.

Definition hash_table_get_string (table : option hash_table)
    (key : option (list byte)) : res Z :=
  match key with
  | None => Ret NULL
  | Some s =>
      n <-- string_key_size s ;;
      hash_table_get table key n
  end.

Definition hash_table_remove_string (table : option hash_table)
    (key : option (list byte)) : M (option hash_table) :=
  match key with
  | None => ret table
  | Some s =>
      n <- lift (string_key_size s) ;;
      hash_table_remove table key n
  end.

Definition hash_table_contains_string (table : option hash_table)
    (key : option (list byte)) : res Z :=
  match key with
  | None => Ret 0
  | Some s =>
      n <-- string_key_size s ;;
      hash_table_contains table key n
  end.

(** ** hash_table_util.c *)

(** [ht_strdup]: [strlen] goes through its argument unchecked, so a null
    argument is dereferenced.  The result is the content of the copy, or
    [None] for the null pointer [malloc] returned. *)
Definition ht_strdup (s : option (list byte)) : M (option (list byte)) :=
  match s with
  | None => lift (Undefined NullDeref)
  | Some bs =>
      n <- lift (strlen bs) ;;
      let len := C.wrap (n + 1) in
      copy <- malloc ;;
      if copy =? NULL then ret None
      else
        bytes <- lift (read_bytes bs len) ;;
        ret (Some bytes)
  end.

(** ** Well-shaped tables

    [shaped t]: [capacity] is a [size_t] and the three backing arrays are
    allocated with [capacity] cells each.  Nothing is asked of the contents
    of the cells, nor of [size]. *)

Definition array_ok {A} (n : Z) (arr : option (list A)) : bool :=
  match arr with
  | Some l => Z.of_nat (length l) =? n
  | None => false
  end.

Definition shaped (t : hash_table) : bool :=
  (0 <=? capacity t) && (capacity t <=? C.size_max)
  && array_ok (capacity t) (keys t)
  && array_ok (capacity t) (key_sizes t)
  && array_ok (capacity t) (values t).

(** size / capacity > resize_threshold, as a comparison of the exact ratio
    with the value of the threshold. *)
Definition load_above (t : hash_table) : bool :=
  F32.exceeds (size t) (capacity t) (_resize_threshold t).

(** The load test misses no excess: it fires whenever the exact load after
    one more entry, (size + 1) / capacity, exceeds the threshold. *)
Definition load_test_sound (t : hash_table) : bool :=
  implb (F32.exceeds (C.wrap (size t + 1)) (capacity t) (_resize_threshold t))
        (load_exceeds t).

(** A table of capacity [capacity t] at its highest load within the
    threshold still is within the threshold, with one more entry, at the
    capacity [c']. *)
Definition growth_makes_room (t : hash_table) (c' : Z) : bool :=
  negb (F32.exceeds
          (F32.max_entries (_resize_threshold t) (capacity t) + 1) c'
          (_resize_threshold t)).

(** ** Two ways a run can go wrong: no fuel left, a zero divisor *)

Inductive flaw : Type := Fuel | Div0.

Definition has_flaw {A} (f : flaw) (r : res A) : Prop :=
  match f, r with
  | Fuel, OutOfFuel => True
  | Div0, Undefined DivByZero => True
  | _, _ => False
  end.

Definition clean {A} (f : flaw) (r : res A) : Prop := ~ has_flaw f r.

Definition cleanM {A} (f : flaw) (c : M A) : Prop := forall w, clean f (c w).

(** What growth and insertion never touch. *)
Definition same_config (t t' : hash_table) : Prop :=
  capacity t' = capacity t /\
  _resize_threshold t' = _resize_threshold t /\
  _resize_factor t' = _resize_factor t /\
  _value_destructor t' = _value_destructor t.

(** What the loop body of the scan sees in slot [j]: an occupied slot
    whose key fails, or passes, the equality test. *)
Definition slot_rejects (t : hash_table) (key : list byte) (key_size j : Z)
  : Prop :=
  exists stored sz,
    load (keys t) j = Ret (Some stored) /\
    load (key_sizes t) j = Ret sz /\
    key_matches stored sz key key_size = false.

Definition slot_accepts (t : hash_table) (key : list byte) (key_size j : Z)
  : Prop :=
  exists stored sz,
    load (keys t) j = Ret (Some stored) /\
    load (key_sizes t) j = Ret sz /\
    key_matches stored sz key key_size = true.

(** ** Entries and releases *)

(** How the table releases a value: the destructor when there is one,
    [free] otherwise. *)
Definition release_event (d : option nat) (v : Z) : event :=
  match d with
  | Some f => Destructor f v
  | None => FreeValue v
  end.

(** The releases of a clearing, slot by slot: for an occupied slot the key
    buffer, then the value. *)
Fixpoint clear_events (d : option nat) (ks : list (option (list byte)))
    (vs : list Z) : list event :=
  match ks, vs with
  | k :: ks', v :: vs' =>
      match k with
      | Some kb => [FreeKey kb; release_event d v]
      | None => []
      end ++ clear_events d ks' vs'
  | _, _ => []
  end.

(** The value array a clearing leaves: [NULL] where the slot was occupied. *)
Fixpoint cleared_values (ks : list (option (list byte))) (vs : list Z)
  : list Z :=
  match ks, vs with
  | k :: ks', v :: vs' =>
      match k with
      | Some _ => NULL
      | None => v
      end :: cleared_values ks' vs'
  | _, _ => []
  end.

(** The number of occupied slots. *)
Definition occupied_slots (ks : list (option (list byte))) : Z :=
  Z.of_nat (length (omap id ks)).

Definition occupied (t : hash_table) : Z :=
  match keys t with
  | Some ks => occupied_slots ks
  | None => 0
  end.

(** ** Well-formed tables *)

(** Slot [j] holds the entry [(kb, sz, v)]. *)
Definition slot_holds (t : hash_table) (j : Z) (kb : list byte) (sz v : Z)
  : Prop :=
  load (keys t) j = Ret (Some kb) /\
  load (key_sizes t) j = Ret sz /\
  load (values t) j = Ret v.

(** Every stored key buffer has the length recorded for it. *)
Fixpoint sizes_match (ks : list (option (list byte))) (kz : list Z) : bool :=
  match ks, kz with
  | k :: ks', z :: kz' =>
      match k with
      | Some kb => Z.of_nat (length kb) =? z
      | None => true
      end && sizes_match ks' kz'
  | _, _ => true
  end.

(** [well_formed t]: [t] is well shaped and its stored keys have their
    recorded lengths, as [malloc(key_size)] and [memcpy] leave them. *)
Definition well_formed (t : hash_table) : bool :=
  shaped t &&
  match keys t, key_sizes t with
  | Some ks, Some kz => sizes_match ks kz
  | _, _ => false
  end.

(** No key is stored in two slots. *)
Fixpoint distinct_keys (ks : list (option (list byte))) : bool :=
  match ks with
  | [] => true
  | None :: ks' => distinct_keys ks'
  | Some kb :: ks' =>
      negb (existsb (fun k => match k with
                              | Some kb' => bytes_eqb kb kb'
                              | None => false
                              end) ks')
      && distinct_keys ks'
  end.

Definition keys_distinct (t : hash_table) : bool :=
  match keys t with
  | Some ks => distinct_keys ks
  | None => true
  end.

(** The state of the rehash of the old arrays [oks], [okz], [ovs] into the
    table [T] of capacity [n], once the old slots below [i] are done: [T]
    is well shaped, holds as many entries as the old slots below [i] and
    counts them in [size], holds only entries of these old slots, and
    holds each of them at the end of a run of occupied slots that starts
    at the hash index of its key. *)
Definition rehash_inv (oks : list (option (list byte))) (okz ovs : list Z)
    (n : Z) (i : nat) (T : hash_table) : Prop :=
  shaped T = true /\
  capacity T = n /\
  occupied T = occupied_slots (take i oks) /\
  size T = occupied T /\
  (forall p kb sz v,
      slot_holds T p kb sz v ->
      exists j, (j < i)%nat /\ oks !! j = Some (Some kb) /\
                okz !! j = Some sz /\ ovs !! j = Some v) /\
  (forall j kb sz v,
      (j < i)%nat -> oks !! j = Some (Some kb) ->
      okz !! j = Some sz -> ovs !! j = Some v ->
      exists h d,
        hash_table_fnv_1a kb sz = Ret h /\ 0 <= d < n /\
        slot_holds T ((h mod n + d) mod n) kb sz v /\
        forall k, 0 <= k < d ->
          exists stored,
            load (keys T) ((h mod n + k) mod n) = Ret (Some stored)).

(** ** Scenarios

    Drivers and inputs for running the operations on concrete tables. *)

(** The one-character C string [c], with its terminator. *)
Definition cstring (c : byte) : list byte := [c; x00].

(** An allocator that answers [n] requests, with distinct addresses, and
    fails from then on. *)
Definition heap (n : nat) : world :=
  World (map (fun i => 4096 + 16 * Z.of_nat i) (seq 0 n)) [].

(** [hash_table_insert_string] on each pair in turn, up to the first
    failure. *)
Fixpoint insert_strings (kvs : list (list byte * Z))
    (table : option hash_table) : M (Z * option hash_table) :=
  match kvs with
  | [] => ret (0, table)
  | (k, v) :: rest =>
      r <- hash_table_insert_string table (Some k) v ;;
      if fst r =? 0 then insert_strings rest (snd r) else ret r
  end.

(** Eight keys: the default table holds them without growing. *)
Definition eight_keys : list (list byte * Z) :=
  [(cstring "a", 1); (cstring "b", 2); (cstring "c", 3); (cstring "d", 4);
   (cstring "e", 5); (cstring "f", 6); (cstring "g", 7); (cstring "h", 8)]%byte.

(** 0.5f, 1.0f, 2.0f and 1/64. *)
Definition half : spec_float := F32.lit 1 (-1).
Definition one : spec_float := F32.lit 1 0.
Definition two : spec_float := F32.lit 2 0.
Definition one_64th : spec_float := F32.lit 1 (-6).

(** 0.04f: the float closest to 4/100, which lies below it. *)
Definition four_hundredths : spec_float := F32.lit 10737418 (-28).

(** 0.75f *)
Definition three_quarters : spec_float := F32.lit 3 (-2).

(** The side conditions of the load bound for an insert into a table of
    capacity [c] that holds [s] entries: the load test misses no excess,
    and when it fires the grown capacity makes room. *)
Definition bound_conditions (thr fac : spec_float) (c s : Z) : bool :=
  let t := HashTable c None None None s thr fac None in
  load_test_sound t &&
  (if load_exceeds t then
     match grown_capacity t with
     | Ret c' => growth_makes_room t c'
     | _ => false
     end
   else true).

(** ... for every capacity from 1 to [n] and every size up to the
    capacity. *)
Definition bound_conditions_upto (thr fac : spec_float) (n : nat) : bool :=
  forallb (fun c =>
             forallb (fun s => bound_conditions thr fac (Z.of_nat c)
                                 (Z.of_nat s))
               (seq 0 (S c)))
    (seq 1 n).

(** A table of capacity 2 with both slots occupied, as left by
    [hash_table_create_with_parameters(2, 1.0, 2.0)] and the insertion of
    "a" and "b". *)
Definition full_table : hash_table :=
  HashTable 2 (Some [Some (cstring "a"); Some (cstring "b")]%byte)
    (Some [2; 2]) (Some [100; 200]) 2 one two None.

(** The same two entries in a table created with the resize threshold
    2.0, as left by [hash_table_create_with_parameters(2, 2.0, 2.0)] and
    the insertion of "a" and "b": its load test never fires before the
    table is full. *)
Definition crowded_table : hash_table :=
  HashTable 2 (Some [Some (cstring "a"); Some (cstring "b")]%byte)
    (Some [2; 2]) (Some [100; 200]) 2 two two None.

(** The table [hash_table_create_with_parameters(0, 0.5, 2.0)] returns. *)
Definition zero_table : hash_table :=
  HashTable 0 (Some []) (Some []) (Some []) 0 half two None.

(** The table [hash_table_create_with_parameters(2, 0.5, 2.0)] holds after
    the insertion of "a", and after a second insertion of "a". *)
Definition small_table : hash_table :=
  HashTable 2 (Some [Some (cstring "a"); None]%byte)
    (Some [2; 0]) (Some [100; 0]) 1 half two None.

Definition small_table_updated : hash_table :=
  HashTable 4 (Some [Some (cstring "a"); None; None; None]%byte)
    (Some [2; 0; 0; 0]) (Some [200; 0; 0; 0]) 1 half two None.

(** * Properties *)

(** ** Scalars, arrays, monads *)

Arguments load : simpl never.
Arguments store : simpl never.
Arguments C.modulo : simpl never.
Arguments C.wrap : simpl never.
Arguments read_bytes : simpl never.
Arguments key_matches : simpl never.
Arguments hash_table_fnv_1a : simpl never.
Arguments probe_fuel : simpl never.

Lemma wrap_small (z : Z) : 0 <= z <= C.size_max -> C.wrap z = z.
Proof.
  unfold C.wrap, C.size_max. intros H. apply Z.mod_small. lia.
Qed.

Lemma wrap_range (z : Z) : 0 <= C.wrap z <= C.size_max.
Proof.
  unfold C.wrap, C.size_max.
  pose proof (Z.mod_pos_bound z (2 ^ 64) ltac:(lia)). lia.
Qed.

Lemma modulo_pos (a b : Z) : 0 < b -> C.modulo a b = Ret (a mod b).
Proof.
  intros H. unfold C.modulo. destruct (Z.eqb_spec b 0); [lia | done].
Qed.

Lemma modulo_zero (a : Z) : C.modulo a 0 = Undefined DivByZero.
Proof. reflexivity. Qed.

Lemma array_ok_inv {A} (n : Z) (arr : option (list A)) :
  array_ok n arr = true -> exists l, arr = Some l /\ Z.of_nat (length l) = n.
Proof.
  destruct arr as [l|]; simpl; [|done].
  intros H. exists l. split; [done | lia].
Qed.

Lemma shaped_inv (t : hash_table) :
  shaped t = true ->
  0 <= capacity t <= C.size_max /\
  (exists ks, keys t = Some ks /\ Z.of_nat (length ks) = capacity t) /\
  (exists kz, key_sizes t = Some kz /\ Z.of_nat (length kz) = capacity t) /\
  (exists vs, values t = Some vs /\ Z.of_nat (length vs) = capacity t).
Proof.
  unfold shaped. rewrite !andb_true_iff.
  intros [[[[H0 H1] Hk] Hz] Hv].
  repeat split; [lia | lia | by apply array_ok_inv ..].
Qed.

Lemma load_in_range {A} (l : list A) (i : Z) :
  0 <= i < Z.of_nat (length l) -> exists x, load (Some l) i = Ret x.
Proof.
  intros H. unfold load.
  destruct (lookup_lt_is_Some_2 l (Z.to_nat i)) as [x Hx]; [lia|].
  exists x. by rewrite Hx.
Qed.

Lemma load_fuel {A} (arr : option (list A)) (i : Z) : load arr i <> OutOfFuel.
Proof.
  unfold load. destruct arr as [l|]; [|done]. by destruct (l !! Z.to_nat i).
Qed.

Lemma modulo_fuel (a b : Z) : C.modulo a b <> OutOfFuel.
Proof. unfold C.modulo. by destruct (b =? 0). Qed.

Lemma bytes_eqb_eq (a b : list byte) : bytes_eqb a b = true <-> a = b.
Proof.
  revert b. induction a as [|x a IH]; intros [|y b]; simpl; try done.
  rewrite andb_true_iff, IH. split.
  - intros [Hxy ->]. by rewrite (Byte.byte_dec_bl _ _ Hxy).
  - intros [= -> ->]. split; [by apply Byte.byte_dec_lb | done].
Qed.

(** ** The probe scan *)

Section Probe.

Variable t : hash_table.
Variables (key : list byte) (key_size : Z).

(** The scan never needs more fuel than the iterations its own guard
    leaves. *)
Lemma probe_fuel_enough (fuel : nat) (index it : Z) :
  capacity t <= C.size_max -> 0 <= it ->
  (Z.to_nat (capacity t - it) < fuel)%nat ->
  probe fuel t key key_size index it <> OutOfFuel.
Proof.
  intros Hcap. revert index it.
  induction fuel as [|fuel IH]; intros index it Hit Hfuel; [lia|].
  simpl. pose proof (load_fuel (keys t) index) as Hk.
  destruct (load (keys t) index) as [[stored|]| |]; simpl; try done.
  destruct (Z.ltb_spec it (capacity t)); [|done].
  pose proof (load_fuel (key_sizes t) index) as Hz.
  destruct (load (key_sizes t) index) as [ks| |]; simpl; try done.
  destruct (key_matches stored ks key key_size); [done|].
  pose proof (modulo_fuel (C.wrap (index + 1)) (capacity t)) as Hm.
  destruct (C.modulo _ _) as [index'| |]; simpl; try done.
  rewrite wrap_small by lia. apply IH; lia.
Qed.

(** The iteration counter only grows, and stays within the capacity. *)
Lemma probe_iterations (fuel : nat) (index it : Z) (s : scan) (n : Z) :
  capacity t <= C.size_max -> 0 <= it ->
  probe fuel t key key_size index it = Ret (s, n) ->
  it <= n <= Z.max it (capacity t).
Proof.
  intros Hcap. revert index it.
  induction fuel as [|fuel IH]; intros index it Hit; [done|].
  simpl. destruct (load (keys t) index) as [[stored|]| |]; simpl; try done.
  2: { intros [= <- <-]. lia. }
  destruct (Z.ltb_spec it (capacity t)).
  2: { intros [= <- <-]. lia. }
  destruct (load (key_sizes t) index) as [ks| |]; simpl; try done.
  destruct (key_matches stored ks key key_size).
  { intros [= <- <-]. lia. }
  destruct (C.modulo _ _) as [index'| |]; simpl; try done.
  rewrite wrap_small by lia. intros H'. apply IH in H'; lia.
Qed.

(** More fuel does not change a result. *)
Lemma probe_fuel_mono (fuel fuel' : nat) (index it : Z) (r : scan * Z) :
  (fuel <= fuel')%nat ->
  probe fuel t key key_size index it = Ret r ->
  probe fuel' t key key_size index it = Ret r.
Proof.
  revert fuel' index it.
  induction fuel as [|fuel IH]; intros fuel' index it Hle; [done|].
  destruct fuel' as [|fuel']; [lia|].
  simpl. destruct (load (keys t) index) as [[stored|]| |]; simpl; try done.
  destruct (it <? capacity t); [|done].
  destruct (load (key_sizes t) index) as [ks| |]; simpl; try done.
  destruct (key_matches stored ks key key_size); [done|].
  destruct (C.modulo _ _) as [index'| |]; simpl; try done.
  apply IH. lia.
Qed.

(** The scan stays inside the arrays. *)
Lemma probe_index (fuel : nat) (index it : Z) (s : scan) (n : Z) :
  0 <= index < capacity t ->
  probe fuel t key key_size index it = Ret (s, n) ->
  0 <= scan_index s < capacity t.
Proof.
  revert index it.
  induction fuel as [|fuel IH]; intros index it Hidx; [done|].
  simpl. destruct (load (keys t) index) as [[stored|]| |]; simpl; try done.
  2: { by intros [= <- <-]. }
  destruct (it <? capacity t).
  2: { by intros [= <- <-]. }
  destruct (load (key_sizes t) index) as [ks| |]; simpl; try done.
  destruct (key_matches stored ks key key_size).
  { by intros [= <- <-]. }
  rewrite modulo_pos by lia. simpl. apply IH.
  apply Z.mod_pos_bound. lia.
Qed.

(** On a well-shaped table the scan reads no cell outside the arrays. *)
Lemma probe_defined (fuel : nat) (index it : Z) :
  shaped t = true -> 0 <= index < capacity t -> 0 <= it ->
  (Z.to_nat (capacity t - it) < fuel)%nat ->
  exists r, probe fuel t key key_size index it = Ret r.
Proof.
  intros Hs. destruct (shaped_inv t Hs)
    as (Hcap & (ks & Hks & Hlk) & (kz & Hkz & Hlz) & _).
  revert index it.
  induction fuel as [|fuel IH]; intros index it Hidx Hit Hfuel; [lia|].
  simpl. rewrite Hks, Hkz.
  destruct (load_in_range ks index) as [k Hk]; [lia|]. rewrite Hk. simpl.
  destruct k as [stored|]; [|by eexists].
  destruct (Z.ltb_spec it (capacity t)); [|by eexists].
  destruct (load_in_range kz index) as [sz Hsz]; [lia|]. rewrite Hsz. simpl.
  destruct (key_matches stored sz key key_size); [by eexists|].
  rewrite modulo_pos by lia. simpl. rewrite !wrap_small by lia.
  apply IH; [apply Z.mod_pos_bound; lia | lia | lia].
Qed.

(** A scan ends with [Hit] only on an occupied slot for which the
    equality test of the loop holds. *)
Lemma probe_hit (fuel : nat) (index it i n : Z) :
  probe fuel t key key_size index it = Ret (Hit i, n) ->
  exists stored ks,
    load (keys t) i = Ret (Some stored) /\
    load (key_sizes t) i = Ret ks /\
    key_matches stored ks key key_size = true.
Proof.
  revert index it.
  induction fuel as [|fuel IH]; intros index it; [done|].
  simpl. destruct (load (keys t) index) as [[stored|]| |] eqn:Hk;
    simpl; try done.
  destruct (it <? capacity t); [|done].
  destruct (load (key_sizes t) index) as [ks| |] eqn:Hz; simpl; try done.
  destruct (key_matches stored ks key key_size) eqn:Hm.
  { intros [= <- <-]. by exists stored, ks. }
  destruct (C.modulo _ _) as [index'| |]; simpl; try done.
  apply IH.
Qed.

End Probe.

(** ** Runs free of a flaw *)

Section Clean.

Variable f : flaw.

Local Ltac by_cases := unfold clean, has_flaw; destruct f; tauto.

Lemma clean_Ret {A} (a : A) : clean f (Ret a).
Proof. by_cases. Qed.

Lemma clean_rbind {A B} (c : res A) (k : A -> res B) :
  clean f c -> (forall a, c = Ret a -> clean f (k a)) ->
  clean f (rbind c k).
Proof.
  intros Hc Hk. destruct c as [a| |]; simpl; [by apply Hk | exact Hc ..].
Qed.

Lemma clean_ret {A} (a : A) : cleanM f (ret a).
Proof. intros w. apply clean_Ret. Qed.

Lemma clean_bind {A B} (c : M A) (k : A -> M B) :
  cleanM f c -> (forall a w w', c w = Ret (a, w') -> cleanM f (k a)) ->
  cleanM f (bind c k).
Proof.
  intros Hc Hk w. unfold bind. specialize (Hc w).
  destruct (c w) as [[a w']| |] eqn:E; [by eapply Hk | exact Hc ..].
Qed.

Lemma clean_lift {A} (c : res A) : clean f c -> cleanM f (lift c).
Proof.
  intros Hc w. unfold lift. destruct c; [apply clean_Ret | exact Hc ..].
Qed.

Lemma clean_malloc : cleanM f malloc.
Proof. intros w. unfold malloc. destruct (allocs w); apply clean_Ret. Qed.

Lemma clean_emit (e : event) : cleanM f (emit e).
Proof. intros w. apply clean_Ret. Qed.

Lemma clean_calloc {A} (n : Z) (zero : A) : cleanM f (calloc n zero).
Proof.
  apply clean_bind; [apply clean_malloc | intros; apply clean_ret].
Qed.

Lemma clean_load {A} (arr : option (list A)) (i : Z) : clean f (load arr i).
Proof.
  unfold load. destruct arr as [l|]; [|by_cases].
  destruct (l !! Z.to_nat i); by_cases.
Qed.

Lemma clean_store {A} (arr : option (list A)) (i : Z) (x : A) :
  clean f (store arr i x).
Proof.
  unfold store. destruct arr as [l|]; [|by_cases].
  destruct (_ <? _)%nat; by_cases.
Qed.

Lemma clean_modulo (a b : Z) : 0 < b -> clean f (C.modulo a b).
Proof. intros Hb. rewrite modulo_pos by done. apply clean_Ret. Qed.

Lemma clean_read_bytes (buf : list byte) (n : Z) : clean f (read_bytes buf n).
Proof. unfold read_bytes. destruct (_ <=? _); by_cases. Qed.

Lemma clean_fnv (key : list byte) (key_size : Z) :
  clean f (hash_table_fnv_1a key key_size).
Proof.
  unfold hash_table_fnv_1a. apply clean_rbind; [apply clean_read_bytes|].
  intros; apply clean_Ret.
Qed.

Lemma clean_strlen (s : list byte) : clean f (strlen s).
Proof.
  induction s as [|b s IH]; simpl; [by_cases|].
  destruct (Byte.eqb b "000"); [apply clean_Ret|].
  apply clean_rbind; [done | intros; apply clean_Ret].
Qed.

Lemma clean_to_size (x : spec_float) : clean f (F32.to_size x).
Proof.
  unfold F32.to_size.
  destruct x as [s|s| |s m e]; try by_cases.
  destruct s; [destruct (_ =? 0) | destruct (_ <=? C.size_max)]; by_cases.
Qed.

Lemma clean_release_value (t : hash_table) (v : Z) :
  cleanM f (release_value t v).
Proof.
  unfold release_value. destruct (_value_destructor t); apply clean_emit.
Qed.

Lemma clean_free_key (k : option (list byte)) : cleanM f (free_key k).
Proof. destruct k; [apply clean_emit | apply clean_ret]. Qed.

(** The scan, from any iteration count, with the fuel its guard needs. *)
Lemma clean_probe (t : hash_table) (key : list byte) (key_size : Z)
    (fuel : nat) (index it : Z) :
  capacity t <= C.size_max -> 0 <= it ->
  (Z.to_nat (capacity t - it) < fuel)%nat ->
  clean f (probe fuel t key key_size index it).
Proof.
  intros Hcap. revert index it.
  induction fuel as [|fuel IH]; intros index it Hit Hfuel; [lia|].
  simpl. apply clean_rbind; [apply clean_load|]. intros [stored|] _;
    [|apply clean_Ret].
  destruct (Z.ltb_spec it (capacity t)); [|apply clean_Ret].
  apply clean_rbind; [apply clean_load|]. intros ks _.
  destruct (key_matches stored ks key key_size); [apply clean_Ret|].
  apply clean_rbind; [apply clean_modulo; lia|]. intros index' _.
  rewrite wrap_small by lia. apply IH; lia.
Qed.

Lemma clean_rehash_probe (t : hash_table) (fuel : nat) (index it : Z) :
  capacity t <= C.size_max -> 0 <= it ->
  (Z.to_nat (capacity t - it) < fuel)%nat ->
  clean f (rehash_probe fuel t index it).
Proof.
  intros Hcap. revert index it.
  induction fuel as [|fuel IH]; intros index it Hit Hfuel; [lia|].
  simpl. apply clean_rbind; [apply clean_load|]. intros [stored|] _;
    [|apply clean_Ret].
  destruct (Z.ltb_spec it (capacity t)); [|apply clean_Ret].
  apply clean_rbind; [apply clean_modulo; lia|]. intros index' _.
  rewrite wrap_small by lia. apply IH; lia.
Qed.

Lemma clean_find_slot (t : hash_table) (key : list byte) (key_size : Z) :
  0 < capacity t <= C.size_max -> clean f (find_slot t key key_size).
Proof.
  intros Hcap. unfold find_slot.
  apply clean_rbind; [apply clean_fnv|]. intros h _.
  apply clean_rbind; [apply clean_modulo; lia|]. intros index _.
  apply clean_probe; unfold probe_fuel; lia.
Qed.

End Clean.

(** ** Growth *)

Lemma same_config_refl (t : hash_table) : same_config t t.
Proof. by repeat split. Qed.

Lemma same_config_trans (a b c : hash_table) :
  same_config a b -> same_config b c -> same_config a c.
Proof.
  unfold same_config. intros (-> & -> & -> & ->) (-> & -> & -> & ->). done.
Qed.

(** Inversion of a bind in [res]. *)
Lemma rbind_Ret {A B} (c : res A) (k : A -> res B) (b : B) :
  rbind c k = Ret b -> exists a, c = Ret a /\ k a = Ret b.
Proof. destruct c as [a| |]; simpl; [by exists a | done | done]. Qed.

(** Inversion of a bind in [M]. *)
Lemma bind_Ret {A B} (c : M A) (k : A -> M B) (w w' : world) (b : B) :
  bind c k w = Ret (b, w') ->
  exists a w1, c w = Ret (a, w1) /\ k a w1 = Ret (b, w').
Proof.
  unfold bind. destruct (c w) as [[a w1]| |]; [by exists a, w1 | done | done].
Qed.

Lemma lift_Ret {A} (c : res A) (w w' : world) (a : A) :
  lift c w = Ret (a, w') -> c = Ret a /\ w' = w.
Proof. unfold lift. destruct c; [by intros [= -> ->] | done | done]. Qed.

Lemma ret_Ret {A} (a b : A) (w w' : world) :
  ret a w = Ret (b, w') -> b = a /\ w' = w.
Proof. by intros [= -> ->]. Qed.

(** [inv_run H] peels the first bind off [H : (x <- c ;; k) w = Ret _]:
    the run of [c] becomes a hypothesis of its own and [H] is left with
    the run of [k]. *)
Ltac inv_first E :=
  lazymatch type of E with
  | lift _ _ = Ret _ => apply lift_Ret in E; destruct E as [E ->]
  | _ => idtac
  end.

Ltac inv_run H :=
  lazymatch type of H with
  | bind _ _ _ = Ret _ =>
      let a := fresh "a" in
      let w := fresh "w" in
      let E := fresh "E" in
      apply bind_Ret in H; destruct H as (a & w & E & H);
      inv_first E; cbv beta in H
  | rbind _ _ = Ret _ =>
      let a := fresh "a" in
      let E := fresh "E" in
      apply rbind_Ret in H; destruct H as (a & E & H); cbv beta in H
  end.

Lemma to_size_range (x : spec_float) (z : Z) :
  F32.to_size x = Ret z -> 0 <= z <= C.size_max.
Proof.
  unfold F32.to_size. destruct x as [s|s| |s m e]; try done.
  - intros [= <-]. unfold C.size_max. lia.
  - destruct s.
    + destruct (_ =? 0); [|done]. intros [= <-]. unfold C.size_max. lia.
    + destruct (Z.leb_spec (if 0 <=? e then Z.pos m * 2 ^ e
                            else Z.pos m / 2 ^ (- e)) C.size_max) as [Hle|];
        [|done].
      intros [= <-]. split; [|done].
      destruct (Z.leb_spec 0 e).
      * apply Z.mul_nonneg_nonneg; [lia | apply Z.pow_nonneg; lia].
      * apply Z.div_pos; [lia | apply Z.pow_pos_nonneg; lia].
Qed.

Lemma rehash_slot_config (ok : option (list (option (list byte))))
    (oz ov : option (list Z)) (i : Z) (t t' : hash_table) :
  rehash_slot ok oz ov i t = Ret t' -> same_config t t'.
Proof.
  unfold rehash_slot. intros H. inv_run H.
  destruct a as [kb|]; [|injection H as <-; apply same_config_refl].
  do 8 inv_run H. injection H as <-. by repeat split.
Qed.

Lemma rehash_config (n : nat) (ok : option (list (option (list byte))))
    (oz ov : option (list Z)) (i : Z) (t t' : hash_table) :
  rehash n ok oz ov i t = Ret t' -> same_config t t'.
Proof.
  revert i t. induction n as [|n IH]; intros i t; simpl.
  - intros [= <-]. apply same_config_refl.
  - intros H. inv_run H. eapply same_config_trans.
    + eapply rehash_slot_config; eassumption.
    + eapply IH; eassumption.
Qed.

Lemma malloc_inv (w w' : world) (p : Z) :
  malloc w = Ret (p, w') -> trace w' = trace w.
Proof.
  unfold malloc. destruct (allocs w); by intros [= <- <-].
Qed.

Lemma calloc_inv {A} (n : Z) (zero : A) (w w' : world) (arr : option (list A)) :
  calloc n zero w = Ret (arr, w') ->
  trace w' = trace w /\
  (arr = None \/ arr = Some (replicate (Z.to_nat n) zero)).
Proof.
  unfold calloc. intros H. inv_run H. apply malloc_inv in E.
  apply ret_Ret in H as [-> ->]. split; [done|].
  destruct (a =? NULL); [by left | by right].
Qed.

(** A failed growth hands the table back as it was; a successful one has
    the requested capacity, which is larger than the old one. *)
Lemma resize_inv (t t' : hash_table) (n rc : Z) (w w' : world) :
  hash_table_resize t n w = Ret ((rc, t'), w') ->
  trace w' = trace w /\
  ((rc = 1 /\ t' = t) \/
   (rc = 0 /\ capacity t < n /\ capacity t' = n /\
    _resize_threshold t' = _resize_threshold t /\
    _resize_factor t' = _resize_factor t /\
    _value_destructor t' = _value_destructor t)).
Proof.
  unfold hash_table_resize. destruct (Z.leb_spec n (capacity t)) as [|Hlt].
  { intros [= <- <- <-]. split; [done | by left]. }
  intros H. do 3 inv_run H.
  apply calloc_inv in E as [T0 _], E0 as [T1 _], E1 as [T2 _].
  assert (trace w2 = trace w) as T by congruence.
  destruct a as [ks|]; [|apply ret_Ret in H as [[= <- <-] ->]; by auto].
  destruct a0 as [kz|]; [|apply ret_Ret in H as [[= <- <-] ->]; by auto].
  destruct a1 as [vs|]; [|apply ret_Ret in H as [[= <- <-] ->]; by auto].
  inv_run H. apply ret_Ret in H as [[= <- <-] ->].
  apply rehash_config in E as (Hc & Ht & Hf & Hd). simpl in *.
  split; [done|]. right. by repeat split.
Qed.

Lemma grow_inv (t g : hash_table) (rc : Z) (w w' : world) :
  grow_if_needed t w = Ret ((rc, g), w') ->
  trace w' = trace w /\
  ((load_exceeds t = false /\ rc = 0 /\ g = t /\ w' = w) \/
   (load_exceeds t = true /\ rc = 1 /\ g = t) \/
   (load_exceeds t = true /\ rc = 0 /\ capacity t < capacity g /\
    grown_capacity t = Ret (capacity g) /\
    _resize_threshold g = _resize_threshold t /\
    _resize_factor g = _resize_factor t /\
    _value_destructor g = _value_destructor t)).
Proof.
  unfold grow_if_needed. destruct (load_exceeds t).
  - intros H. inv_run H.
    apply resize_inv in H as [T [[-> ->]|(-> & Hlt & Hc & Ht & Hf & Hd)]].
    + split; [done|]. right; left. done.
    + split; [done|]. right; right. rewrite Hc. by repeat split.
  - intros [= <- <- <-]. split; [done|]. by left.
Qed.

(** ** No operation runs out of fuel or divides by zero on a table of
    positive capacity *)

Section CleanOperations.

Variable f : flaw.

Lemma clean_rehash_slot (ok : option (list (option (list byte))))
    (oz ov : option (list Z)) (i : Z) (t : hash_table) :
  0 < capacity t <= C.size_max -> clean f (rehash_slot ok oz ov i t).
Proof.
  intros Hcap. unfold rehash_slot.
  apply clean_rbind; [apply clean_load|]. intros [kb|] _; [|apply clean_Ret].
  apply clean_rbind; [apply clean_load|]. intros ks _.
  apply clean_rbind; [apply clean_fnv|]. intros h _.
  apply clean_rbind; [apply clean_modulo; lia|]. intros start _.
  apply clean_rbind.
  { apply clean_rehash_probe; unfold probe_fuel; lia. }
  intros r _.
  apply clean_rbind; [apply clean_store|]. intros keys' _.
  apply clean_rbind; [apply clean_store|]. intros key_sizes' _.
  apply clean_rbind; [apply clean_load|]. intros v _.
  apply clean_rbind; [apply clean_store|]. intros values' _.
  apply clean_Ret.
Qed.

Lemma clean_rehash (n : nat) (ok : option (list (option (list byte))))
    (oz ov : option (list Z)) (i : Z) (t : hash_table) :
  0 < capacity t <= C.size_max -> clean f (rehash n ok oz ov i t).
Proof.
  revert i t. induction n as [|n IH]; intros i t Hcap; simpl.
  - apply clean_Ret.
  - apply clean_rbind; [by apply clean_rehash_slot|].
    intros t' Ht'. apply IH.
    apply rehash_slot_config in Ht' as [-> _]. done.
Qed.

Lemma clean_resize (t : hash_table) (n : Z) :
  0 <= capacity t -> n <= C.size_max -> cleanM f (hash_table_resize t n).
Proof.
  intros Hcap Hn. unfold hash_table_resize.
  destruct (Z.leb_spec n (capacity t)); [apply clean_ret|].
  apply clean_bind; [apply clean_calloc|]. intros new_keys _ _ _.
  apply clean_bind; [apply clean_calloc|]. intros new_key_sizes _ _ _.
  apply clean_bind; [apply clean_calloc|]. intros new_values _ _ _.
  destruct new_keys, new_key_sizes, new_values; try apply clean_ret.
  apply clean_bind; [|intros; apply clean_ret].
  apply clean_lift, clean_rehash. simpl. lia.
Qed.

Lemma clean_grow (t : hash_table) :
  0 <= capacity t -> cleanM f (grow_if_needed t).
Proof.
  intros Hcap. unfold grow_if_needed.
  destruct (load_exceeds t); [|apply clean_ret].
  apply clean_bind; [apply clean_lift, clean_to_size|].
  intros n w w' Hn. apply lift_Ret in Hn as [Hn _].
  apply to_size_range in Hn. apply clean_resize; lia.
Qed.

Lemma clean_insert_slot (t : hash_table) (key : list byte)
    (key_size value : Z) :
  0 < capacity t <= C.size_max ->
  cleanM f (insert_slot t key key_size value).
Proof.
  intros Hcap. unfold insert_slot.
  apply clean_bind; [by apply clean_lift, clean_find_slot|].
  intros [[index|index] n] _ _ _; simpl.
  - apply clean_bind; [apply clean_lift, clean_load|]. intros old _ _ _.
    apply clean_bind; [apply clean_release_value|]. intros _ _ _ _.
    apply clean_bind; [apply clean_lift, clean_store|]. intros.
    apply clean_ret.
  - apply clean_bind; [apply clean_malloc|]. intros key_copy _ _ _.
    destruct (key_copy =? NULL); [apply clean_ret|].
    apply clean_bind; [apply clean_lift, clean_read_bytes|]. intros.
    apply clean_bind; [apply clean_lift, clean_store|]. intros.
    apply clean_bind; [apply clean_lift, clean_store|]. intros.
    apply clean_bind; [apply clean_lift, clean_store|]. intros.
    apply clean_ret.
Qed.

Lemma clean_insert (t : hash_table) (key : option (list byte))
    (key_size value : Z) :
  0 < capacity t <= C.size_max ->
  cleanM f (hash_table_insert (Some t) key key_size value).
Proof.
  intros Hcap. unfold hash_table_insert.
  destruct key as [k|]; [|apply clean_ret].
  apply clean_bind; [apply clean_grow; lia|].
  intros [rc g] w w' Hg. simpl.
  destruct (negb (rc =? 0)); [apply clean_ret|].
  apply clean_bind; [|intros; apply clean_ret].
  apply clean_insert_slot.
  apply grow_inv in Hg
    as [_ [(_ & _ & -> & _)|[(_ & _ & ->)|(_ & _ & Hlt & Hn & _)]]];
    [done | done |].
  apply to_size_range in Hn. lia.
Qed.

Lemma clean_get (t : hash_table) (key : option (list byte)) (key_size : Z) :
  0 < capacity t <= C.size_max ->
  clean f (hash_table_get (Some t) key key_size).
Proof.
  intros Hcap. unfold hash_table_get.
  destruct key as [k|]; [|apply clean_Ret].
  apply clean_rbind; [by apply clean_find_slot|].
  intros [[index|index] n] _; simpl; [apply clean_load | apply clean_Ret].
Qed.

Lemma clean_contains (t : hash_table) (key : option (list byte))
    (key_size : Z) :
  0 < capacity t <= C.size_max ->
  clean f (hash_table_contains (Some t) key key_size).
Proof.
  intros Hcap. unfold hash_table_contains.
  destruct key as [k|]; [|apply clean_Ret].
  apply clean_rbind; [by apply clean_get|]. intros; apply clean_Ret.
Qed.

Lemma clean_remove (t : hash_table) (key : option (list byte))
    (key_size : Z) :
  0 < capacity t <= C.size_max ->
  cleanM f (hash_table_remove (Some t) key key_size).
Proof.
  intros Hcap. unfold hash_table_remove.
  destruct key as [k|]; [|apply clean_ret].
  apply clean_bind; [by apply clean_lift, clean_find_slot|].
  intros [[index|index] n] _ _ _; simpl; [|apply clean_ret].
  apply clean_bind; [apply clean_lift, clean_load|]. intros stored _ _ _.
  apply clean_bind; [apply clean_free_key|]. intros _ _ _ _.
  apply clean_bind; [apply clean_lift, clean_load|]. intros old _ _ _.
  apply clean_bind; [apply clean_release_value|]. intros _ _ _ _.
  apply clean_bind; [apply clean_lift, clean_store|]. intros.
  apply clean_bind; [apply clean_lift, clean_store|]. intros.
  apply clean_bind; [apply clean_lift, clean_store|]. intros.
  apply clean_ret.
Qed.

End CleanOperations.

(** ** Arrays *)

Lemma store_in_range {A} (l : list A) (i : Z) (x : A) :
  0 <= i < Z.of_nat (length l) ->
  store (Some l) i x = Ret (Some (<[Z.to_nat i := x]> l)).
Proof.
  intros H. unfold store. destruct (Nat.ltb_spec (Z.to_nat i) (length l)); [done | lia].
Qed.

Lemma store_inv {A} (arr arr' : option (list A)) (i : Z) (x : A) :
  store arr i x = Ret arr' ->
  exists l, arr = Some l /\ arr' = Some (<[Z.to_nat i := x]> l) /\
            (Z.to_nat i < length l)%nat.
Proof.
  unfold store. destruct arr as [l|]; [|done].
  destruct (Nat.ltb_spec (Z.to_nat i) (length l)); [|done].
  intros [= <-]. by exists l.
Qed.

Lemma load_inv {A} (arr : option (list A)) (i : Z) (x : A) :
  load arr i = Ret x -> exists l, arr = Some l /\ l !! Z.to_nat i = Some x.
Proof.
  unfold load. destruct arr as [l|]; [|done].
  destruct (l !! Z.to_nat i) eqn:E; [|done]. intros [= <-]. by exists l.
Qed.

(** A store leaves the other cells as they were. *)
Lemma load_store_other {A} (arr arr' : option (list A)) (i j : Z) (x : A) :
  store arr j x = Ret arr' -> Z.to_nat i <> Z.to_nat j ->
  load arr' i = load arr i.
Proof.
  intros (l & -> & -> & _)%store_inv Hne. unfold load.
  by rewrite list_lookup_insert_ne.
Qed.

Lemma load_store_same {A} (arr arr' : option (list A)) (i : Z) (x : A) :
  store arr i x = Ret arr' -> load arr' i = Ret x.
Proof.
  intros (l & -> & -> & Hlt)%store_inv. unfold load.
  by rewrite list_lookup_insert_eq.
Qed.

Lemma key_matches_inv (stored : list byte) (stored_size : Z)
    (key : list byte) (key_size : Z) :
  key_matches stored stored_size key key_size = true ->
  stored_size = key_size /\
  take (Z.to_nat key_size) stored = take (Z.to_nat key_size) key.
Proof.
  unfold key_matches, memcmp_eq. rewrite andb_true_iff, bytes_eqb_eq.
  intros [H ?]. split; [lia | done].
Qed.

(** ** Where the scan for a key ends *)

Lemma find_slot_hit (t : hash_table) (key : list byte) (key_size i n : Z) :
  find_slot t key key_size = Ret (Hit i, n) ->
  exists stored,
    load (keys t) i = Ret (Some stored) /\
    load (key_sizes t) i = Ret key_size /\
    take (Z.to_nat key_size) stored = take (Z.to_nat key_size) key.
Proof.
  unfold find_slot. intros H. do 2 inv_run H.
  apply probe_hit in H as (stored & ks & Hk & Hz & Hm).
  apply key_matches_inv in Hm as [-> Hm]. by exists stored.
Qed.

Lemma find_slot_index (t : hash_table) (key : list byte) (key_size : Z)
    (s : scan) (n : Z) :
  0 <= capacity t ->
  find_slot t key key_size = Ret (s, n) -> 0 <= scan_index s < capacity t.
Proof.
  unfold find_slot. intros Hcap H. do 2 inv_run H.
  unfold C.modulo in E0. destruct (Z.eqb_spec (capacity t) 0); [done|].
  injection E0 as <-.
  eapply probe_index; [|eassumption]. apply Z.mod_pos_bound. lia.
Qed.

Lemma fnv_defined (key : list byte) (key_size : Z) :
  key_size <= Z.of_nat (length key) ->
  exists h, hash_table_fnv_1a key key_size = Ret h.
Proof.
  intros H. unfold hash_table_fnv_1a, read_bytes.
  destruct (Z.leb_spec key_size (Z.of_nat (length key))); [|lia].
  simpl. by eexists.
Qed.

(** On a well-shaped table of positive capacity the scan for a readable
    key ends, inside the arrays, after at most [capacity] iterations. *)
Lemma find_slot_defined (t : hash_table) (key : list byte) (key_size : Z) :
  shaped t = true -> 0 < capacity t ->
  key_size <= Z.of_nat (length key) ->
  exists s n, find_slot t key key_size = Ret (s, n) /\
              0 <= n <= capacity t /\ 0 <= scan_index s < capacity t.
Proof.
  intros Hs Hpos Hkey.
  destruct (shaped_inv t Hs) as (Hcap & _).
  unfold find_slot.
  destruct (fnv_defined key key_size Hkey) as [h ->]. simpl.
  rewrite modulo_pos by done. simpl.
  assert (0 <= h mod capacity t < capacity t) as Hidx
    by (by apply Z.mod_pos_bound).
  destruct (probe_defined t key key_size (probe_fuel t) (h mod capacity t) 0)
    as [[s n] Hr]; [done | done | lia | unfold probe_fuel; lia |].
  exists s, n. split; [done|]. split.
  - apply probe_iterations in Hr; lia.
  - by apply probe_index in Hr.
Qed.

(** C9: on every table of positive capacity, whatever its slots hold, the
    probe scan shared by get, contains, insert and remove ends after at
    most [capacity] iterations from any start slot, with any fuel above
    [capacity]; get, contains and remove return, and insert never runs
    out of fuel. *)
Theorem probe_scan_bounded (t : hash_table) (key : list byte) (key_size : Z) :
  shaped t = true -> 0 < capacity t ->
  key_size <= Z.of_nat (length key) ->
  (forall (index : Z) (fuel : nat),
      0 <= index < capacity t -> (Z.to_nat (capacity t) < fuel)%nat ->
      exists s n, probe fuel t key key_size index 0 = Ret (s, n) /\
                  0 <= n <= capacity t) /\
  (exists v, hash_table_get (Some t) (Some key) key_size = Ret v) /\
  (exists b, hash_table_contains (Some t) (Some key) key_size = Ret b) /\
  (forall w, exists t' w',
      hash_table_remove (Some t) (Some key) key_size w = Ret (Some t', w')) /\
  (forall v w,
      hash_table_insert (Some t) (Some key) key_size v w <> OutOfFuel).
Proof.
  intros Hs Hpos Hkey.
  destruct (shaped_inv t Hs)
    as (Hcap & (ks & Hks & Hlk) & (kz & Hkz & Hlz) & (vs & Hvs & Hlv)).
  destruct (find_slot_defined t key key_size Hs Hpos Hkey)
    as (s & n & Hfind & Hn & Hidx).
  assert (exists v, hash_table_get (Some t) (Some key) key_size = Ret v)
    as [v Hget].
  { unfold hash_table_get. rewrite Hfind. simpl.
    destruct s as [i|i]; [|by eexists].
    rewrite Hvs. apply load_in_range. simpl in Hidx. lia. }
  split; [|split; [|split; [|split]]].
  - intros index fuel Hindex Hfuel.
    destruct (probe_defined t key key_size fuel index 0)
      as [[s' n'] Hr]; [done | done | lia | lia |].
    exists s', n'. split; [done|].
    apply probe_iterations in Hr; lia.
  - by exists v.
  - unfold hash_table_contains. rewrite Hget. simpl. by eexists.
  - intros w. unfold hash_table_remove, bind, lift. rewrite Hfind. simpl.
    destruct s as [i|i]; [|by eexists _, _]. simpl in Hidx.
    destruct (find_slot_hit _ _ _ _ _ Hfind) as (stored & -> & _ & _).
    simpl. rewrite Hvs.
    destruct (load_in_range vs i) as [old ->]; [lia|].
    rewrite Hks, Hkz.
    rewrite !store_in_range by lia.
    unfold release_value. destruct (_value_destructor t); simpl;
      by eexists _, _.
  - intros value w Hout.
    apply (clean_insert Fuel t (Some key) key_size value) with (w := w);
      [lia|]. by rewrite Hout.
Qed.

(** ** Keys are told apart by their declared length *)

Lemma key_matches_length (stored : list byte) (n1 : Z) (key : list byte)
    (n2 : Z) :
  n1 <> n2 -> key_matches stored n1 key n2 = false.
Proof.
  intros Hne. unfold key_matches.
  destruct (Z.eqb_spec n1 n2); [done | done].
Qed.

Lemma rbind_assoc_ret {A B} (c : res A) (g : A -> A) (k : A -> res B) :
  (x <-- (n <-- c ;; Ret (g n)) ;; k x) = (n <-- c ;; k (g n)).
Proof. by destruct c. Qed.

Lemma bind_lift_rbind {A B} (c : res A) (g : A -> A) (k : A -> M B) (w : world) :
  (x <- lift (n <-- c ;; Ret (g n)) ;; k x) w = (n <- lift c ;; k (g n)) w.
Proof. unfold bind, lift. by destruct c. Qed.

(** ** Insertion, case by case *)

Lemma release_value_inv (t : hash_table) (v : Z) (w w' : world) (u : unit) :
  release_value t v w = Ret (u, w') ->
  allocs w' = allocs w /\
  trace w' = trace w ++ [match _value_destructor t with
                         | Some d => Destructor d v
                         | None => FreeValue v
                         end].
Proof.
  unfold release_value, emit.
  destruct (_value_destructor t); by intros [= <- <-].
Qed.

(** The part of [hash_table_insert] after the growth step either replaces
    the value of the slot the scan matched, or fails on the key copy and
    changes nothing, or fills the slot where the scan stopped. *)
Lemma insert_slot_inv (g t' : hash_table) (key : list byte)
    (key_size value rc : Z) (w w' : world) :
  insert_slot g key key_size value w = Ret ((rc, t'), w') ->
  (exists i n old values',
      find_slot g key key_size = Ret (Hit i, n) /\
      load (values g) i = Ret old /\
      store (values g) i value = Ret values' /\
      rc = 0 /\ t' = set_values g values' /\
      trace w' = trace w ++ [match _value_destructor g with
                             | Some d => Destructor d old
                             | None => FreeValue old
                             end]) \/
  (exists i n,
      find_slot g key key_size = Ret (Stop i, n) /\
      rc = 1 /\ t' = g /\ trace w' = trace w) \/
  (exists i n bytes keys' key_sizes' values',
      find_slot g key key_size = Ret (Stop i, n) /\
      read_bytes key key_size = Ret bytes /\
      store (keys g) i (Some bytes) = Ret keys' /\
      store (key_sizes g) i key_size = Ret key_sizes' /\
      store (values g) i value = Ret values' /\
      rc = 0 /\
      t' = set_slot g keys' key_sizes' values' (C.wrap (size g + 1)) /\
      trace w' = trace w).
Proof.
  unfold insert_slot. intros H. inv_run H.
  destruct a as [[i|i] n]; simpl in H.
  - do 3 inv_run H. apply ret_Ret in H as [[= -> ->] ->].
    apply release_value_inv in E1 as [_ T].
    left. by exists i, n, a, a1.
  - inv_run H. apply malloc_inv in E0.
    destruct (a =? NULL).
    + apply ret_Ret in H as [[= -> ->] ->]. right; left. by exists i, n.
    + do 4 inv_run H. apply ret_Ret in H as [[= -> ->] ->].
      right; right. by exists i, n, a0, a1, a2, a3.
Qed.

Lemma insert_inv (t t' : hash_table) (key : list byte)
    (key_size value rc : Z) (w w' : world) :
  hash_table_insert (Some t) (Some key) key_size value w
  = Ret ((rc, Some t'), w') ->
  exists gr g wg,
    grow_if_needed t w = Ret ((gr, g), wg) /\
    ((gr <> 0 /\ rc = 1 /\ t' = g /\ w' = wg) \/
     (gr = 0 /\ insert_slot g key key_size value wg = Ret ((rc, t'), w'))).
Proof.
  unfold hash_table_insert. intros H. inv_run H.
  destruct a as [gr g]. simpl in H. exists gr, g, w0. split; [done|].
  destruct (Z.eqb_spec gr 0) as [->|Hne]; simpl in H.
  - right. split; [done|]. inv_run H. destruct a as [rc' t''].
    apply ret_Ret in H as [[= -> ->] ->]. done.
  - left. apply ret_Ret in H as [[= -> ->] ->]. done.
Qed.

(** A successful insertion, seen through its two steps. *)
Lemma insert_success_inv (t t' : hash_table) (key : list byte)
    (key_size value : Z) (w w' : world) :
  hash_table_insert (Some t) (Some key) key_size value w
  = Ret ((0, Some t'), w') ->
  exists g wg,
    grow_if_needed t w = Ret ((0, g), wg) /\
    insert_slot g key key_size value wg = Ret ((0, t'), w') /\
    capacity t' = capacity g /\
    ((load_exceeds t = false /\ g = t /\ wg = w) \/
     (load_exceeds t = true /\ capacity t < capacity g /\
      grown_capacity t = Ret (capacity g))).
Proof.
  intros H. apply insert_inv in H as (gr & g & wg & Hg & [H|[-> H]]).
  { by destruct H as (_ & [=] & _). }
  exists g, wg. split; [done|]. split; [done|]. split.
  - apply insert_slot_inv in H
      as [(i & n & old & vs & _ & _ & _ & _ & -> & _)
         |[(i & n & _ & [=] & _)
          |(i & n & b & ks & kz & vs & _ & _ & _ & _ & _ & _ & -> & _)]];
      done.
  - apply grow_inv in Hg
      as [_ [(Hl & _ & -> & ->)|[(_ & [=] & _)|(Hl & _ & Hlt & Hn & _)]]].
    + by left.
    + right. done.
Qed.

(** ** Growth and the load test *)

(** C6 (amended): in a successful insert the capacity grows exactly when
    the load test [(size + 1) / capacity > resize_threshold] fires, and
    then to [(size_t)(capacity * resize_factor)]; the test is made before
    the key is looked up, so it fires for a present key as well.  When the
    scan of the table left by the growth step (the table itself when the
    test did not fire) finds the key, no entry is added: size, keys and
    key sizes are those of that table, the value array differs in the
    matched slot only, and the replaced value is released once. *)
Theorem growth_follows_load_test (t t' : hash_table) (key : list byte)
    (key_size value : Z) (w w' : world) :
  hash_table_insert (Some t) (Some key) key_size value w
  = Ret ((0, Some t'), w') ->
  (capacity t < capacity t' <-> load_exceeds t = true) /\
  (capacity t' = capacity t <-> load_exceeds t = false) /\
  (load_exceeds t = true -> grown_capacity t = Ret (capacity t')) /\
  exists g wg,
    grow_if_needed t w = Ret ((0, g), wg) /\
    (load_exceeds t = false -> g = t) /\
    forall i n,
      find_slot g key key_size = Ret (Hit i, n) ->
      capacity t' = capacity g /\ size t' = size g /\
      keys t' = keys g /\ key_sizes t' = key_sizes g /\
      exists old,
        load (values g) i = Ret old /\
        store (values g) i value = Ret (values t') /\
        trace w' = trace w ++ [match _value_destructor t with
                               | Some d => Destructor d old
                               | None => FreeValue old
                               end].
Proof.
  intros H.
  apply insert_success_inv in H as (g & wg & Hg & Hs & Hc & Hcases).
  assert (capacity t < capacity t' <-> load_exceeds t = true) as Hiff.
  { destruct Hcases as [(Hl & -> & _)|(Hl & Hlt & _)]; split; intros;
      first [done | lia | congruence]. }
  split; [exact Hiff|]. split; [|split].
  - destruct Hcases as [(Hl & -> & _)|(Hl & Hlt & _)]; split; intros;
      first [done | lia | congruence].
  - intros Hl. destruct Hcases as [(Hl' & _)|(_ & _ & Hn)]; [congruence|].
    by rewrite Hc.
  - exists g, wg. split; [done|]. split.
    { intros Hl. destruct Hcases as [(_ & -> & _)|(Hl' & _)];
        [done | congruence]. }
    intros i n Hfind.
    apply grow_inv in Hg as [T Hd].
    assert (_value_destructor g = _value_destructor t) as Hdes.
    { destruct Hd as [(_ & _ & -> & _)|[(_ & [=] & _)|(_ & _ & _ & _ & _ & _ & ->)]];
        done. }
    apply insert_slot_inv in Hs
      as [(i' & n' & old & vs & Hf & Hold & Hst & _ & -> & Htr)
         |[(i' & n' & _ & [=] & _)
          |(i' & n' & b & ks & kz & vs & Hf & _)]];
      [|congruence].
    rewrite Hfind in Hf. injection Hf as <- <-.
    repeat split; try done.
    exists old. rewrite <- Hdes, <- T. done.
Qed.

(** ** Capacity zero *)

Lemma find_slot_zero_capacity (t : hash_table) (key : list byte)
    (key_size : Z) :
  capacity t = 0 -> key_size <= Z.of_nat (length key) ->
  find_slot t key key_size = Undefined DivByZero.
Proof.
  intros Hc Hk. unfold find_slot.
  destruct (fnv_defined key key_size Hk) as [h ->]. simpl.
  by rewrite Hc, modulo_zero.
Qed.

Lemma grown_capacity_zero (t : hash_table) :
  capacity t = 0 ->
  grown_capacity t = Ret 0 \/ grown_capacity t = Undefined BadFloatCast.
Proof.
  intros Hc. unfold grown_capacity. rewrite Hc.
  change (F32.of_size 0) with (S754_zero false).
  destruct (_resize_factor t) as [s|s| |s m e]; simpl; auto.
Qed.

Lemma create_runs (cap : Z) (thr fac : spec_float) (d : option nat)
    (p : Z) (rest : list Z) (tr : list event) :
  p <> NULL ->
  exists ks kz vs w',
    hash_table_create_with_parameters_and_destructor cap thr fac d
      (World (p :: rest) tr)
    = Ret (Some (HashTable cap ks kz vs 0 thr fac d), w') /\
    trace w' = tr.
Proof.
  intros Hp. unfold hash_table_create_with_parameters_and_destructor.
  unfold bind at 1. simpl.
  destruct (Z.eqb_spec p NULL) as [|_]; [done|].
  unfold calloc, bind, malloc, ret. simpl.
  destruct rest as [|a [|b [|c rest]]]; simpl; by eexists _, _, _, _.
Qed.

(** C10 (amended): the first index of every probing operation is
    [hash % capacity].  On a table of capacity zero get, contains and
    remove evaluate it and divide by zero.  Insert evaluates it only when
    its load test does not fire.  On the empty table of capacity zero the
    quotient of the test is [(float)1 / 0 = +infinity], so the test fires
    exactly when the threshold is neither a NaN nor +infinity; insert then
    divides by zero for a NaN or +infinity threshold, and for any other
    threshold never reaches the modulus: with a finite factor the growth to
    [(size_t)(0 * resize_factor) = 0] is refused and insert returns 1 with
    the table and the allocator untouched, with an infinite or NaN factor
    the conversion of the product, a NaN, is undefined.  On a table of
    positive capacity no operation divides by zero.  Creation does not
    validate the capacity: asked for capacity 0 it returns a table of
    capacity 0. *)
Theorem zero_capacity_modulus (t : hash_table) (key : list byte)
    (key_size : Z) :
  key_size <= Z.of_nat (length key) ->
  (capacity t = 0 ->
   hash_table_get (Some t) (Some key) key_size = Undefined DivByZero /\
   hash_table_contains (Some t) (Some key) key_size = Undefined DivByZero /\
   (forall w,
       hash_table_remove (Some t) (Some key) key_size w
       = Undefined DivByZero) /\
   (forall v w, load_exceeds t = false ->
       hash_table_insert (Some t) (Some key) key_size v w
       = Undefined DivByZero) /\
   (forall v w, load_exceeds t = true ->
       hash_table_insert (Some t) (Some key) key_size v w
       = Ret ((1, Some t), w) \/
       hash_table_insert (Some t) (Some key) key_size v w
       = Undefined BadFloatCast) /\
   (size t = 0 ->
    load_exceeds t = F32.below_infinity (_resize_threshold t) /\
    forall v w,
      hash_table_insert (Some t) (Some key) key_size v w
      = if F32.below_infinity (_resize_threshold t)
        then if F32.finite (_resize_factor t)
             then Ret ((1, Some t), w)
             else Undefined BadFloatCast
        else Undefined DivByZero)) /\
  (0 < capacity t <= C.size_max ->
   hash_table_get (Some t) (Some key) key_size <> Undefined DivByZero /\
   hash_table_contains (Some t) (Some key) key_size <> Undefined DivByZero /\
   (forall w,
       hash_table_remove (Some t) (Some key) key_size w
       <> Undefined DivByZero) /\
   (forall v w,
       hash_table_insert (Some t) (Some key) key_size v w
       <> Undefined DivByZero)) /\
  (forall thr fac d p rest tr, p <> NULL ->
     exists t0 w',
       hash_table_create_with_parameters_and_destructor 0 thr fac d
         (World (p :: rest) tr) = Ret (Some t0, w') /\
       capacity t0 = 0).
Proof.
  intros Hk. split; [|split].
  - intros Hc. pose proof (find_slot_zero_capacity t key key_size Hc Hk) as Hf.
    assert (hash_table_get (Some t) (Some key) key_size = Undefined DivByZero)
      as Hget by (unfold hash_table_get; by rewrite Hf).
    split; [done|]. split; [|split; [|split; [|split]]].
    + unfold hash_table_contains. by rewrite Hget.
    + intros w. unfold hash_table_remove, bind, lift. by rewrite Hf.
    + intros v w Hl.
      unfold hash_table_insert, grow_if_needed, bind. rewrite Hl. simpl.
      unfold insert_slot, bind, lift. by rewrite Hf.
    + intros v w Hl.
      unfold hash_table_insert, grow_if_needed, bind. rewrite Hl.
      unfold lift. destruct (grown_capacity_zero t Hc) as [-> | ->];
        [left | by right].
      unfold hash_table_resize. rewrite Hc. simpl. done.
    + intros Hs.
      assert (load_exceeds t = F32.below_infinity (_resize_threshold t))
        as Hl.
      { unfold load_exceeds. rewrite Hc, Hs.
        change (F32.div (F32.of_size (C.wrap (0 + 1))) (F32.of_size 0))
          with (S754_infinity false).
        by destruct (_resize_threshold t) as [s|[|]| |s m e]. }
      split; [exact Hl|]. intros v w.
      unfold hash_table_insert, grow_if_needed, bind. rewrite Hl.
      destruct (F32.below_infinity (_resize_threshold t)).
      * unfold lift, grown_capacity. rewrite Hc.
        change (F32.of_size 0) with (S754_zero false).
        destruct (_resize_factor t) as [s|s| |s m e]; cbn; try done;
          unfold hash_table_resize; rewrite Hc; done.
      * cbn. unfold insert_slot, bind, lift. by rewrite Hf.
  - intros Hc. split; [|split; [|split]].
    + intros H. apply (clean_get Div0 t (Some key) key_size Hc).
      by rewrite H.
    + intros H. apply (clean_contains Div0 t (Some key) key_size Hc).
      by rewrite H.
    + intros w H. apply (clean_remove Div0 t (Some key) key_size Hc w).
      by rewrite H.
    + intros v w H. apply (clean_insert Div0 t (Some key) key_size v Hc w).
      by rewrite H.
  - intros thr fac d p rest tr Hp.
    destruct (create_runs 0 thr fac d p rest tr Hp)
      as (ks & kz & vs & w' & Hrun & _).
    by eexists _, _.
Qed.

(** ** Creation *)

(** When its four allocations succeed, creation returns a table with three
    arrays of [capacity] empty cells and size 0, whatever the parameters. *)
Lemma create_success (cap : Z) (thr fac : spec_float) (d : option nat)
    (p1 p2 p3 p4 : Z) (rest : list Z) (tr : list event) :
  p1 <> NULL -> p2 <> NULL -> p3 <> NULL -> p4 <> NULL ->
  hash_table_create_with_parameters_and_destructor cap thr fac d
    (World (p1 :: p2 :: p3 :: p4 :: rest) tr)
  = Ret (Some (HashTable cap
                 (Some (replicate (Z.to_nat cap) None))
                 (Some (replicate (Z.to_nat cap) 0))
                 (Some (replicate (Z.to_nat cap) NULL))
                 0 thr fac d),
         World rest tr).
Proof.
  intros H1%Z.eqb_neq H2%Z.eqb_neq H3%Z.eqb_neq H4%Z.eqb_neq.
  unfold hash_table_create_with_parameters_and_destructor, calloc, bind,
    malloc, ret. cbn [allocs trace]. rewrite H1. cbn [allocs trace].
  by rewrite H2, H3, H4.
Qed.

(** ** Failed insertions *)

(** X2: an insert that reports failure releases nothing, and leaves the
    table as it was unless its growth step had succeeded: then the table
    it leaves is the grown one. *)
Lemma insert_failure_cases (t t' : hash_table) (key : list byte)
    (key_size value : Z) (w w' : world) :
  hash_table_insert (Some t) (Some key) key_size value w
  = Ret ((1, Some t'), w') ->
  trace w' = trace w /\
  (t' = t \/
   (load_exceeds t = true /\ capacity t < capacity t' /\
    exists wg, grow_if_needed t w = Ret ((0, t'), wg))).
Proof.
  intros H. apply insert_inv in H as (gr & g & wg & Hg & H).
  pose proof Hg as Hg'. apply grow_inv in Hg' as [T Hcases].
  destruct H as [(Hgr & _ & -> & ->)|[-> Hs]].
  - split; [done|]. left.
    destruct Hcases as [(_ & -> & _)|[(_ & _ & ->)|(_ & -> & _)]]; done.
  - apply insert_slot_inv in Hs
      as [(i & n & old & vs & _ & _ & _ & [=] & _)
         |[(i & n & _ & _ & -> & T')
          |(i & n & b & ks & kz & vs & _ & _ & _ & _ & _ & [=] & _)]].
    split; [congruence|].
    destruct Hcases as [(_ & _ & -> & _)|[(_ & [=] & _)|(Hl & _ & Hlt & _)]].
    + by left.
    + right. split; [done|]. split; [done|]. by exists wg.
Qed.

(** ** Absent keys *)

(** X3: what does hold for an absent key: when no slot stores the key,
    get returns the absent indicator, contains returns 0, and remove
    changes neither the table nor the trace. *)
Lemma absent_key_untouched (t : hash_table) (key : list byte) (key_size : Z)
    (s : scan) (n : Z) :
  find_slot t key key_size = Ret (s, n) ->
  (forall i stored,
      load (keys t) i = Ret (Some stored) ->
      load (key_sizes t) i = Ret key_size ->
      take (Z.to_nat key_size) stored <> take (Z.to_nat key_size) key) ->
  hash_table_get (Some t) (Some key) key_size = Ret NULL /\
  hash_table_contains (Some t) (Some key) key_size = Ret 0 /\
  forall w, hash_table_remove (Some t) (Some key) key_size w
            = Ret (Some t, w).
Proof.
  intros Hfind Habs.
  destruct s as [i|i].
  { apply find_slot_hit in Hfind as (stored & Hk & Hz & Heq).
    by destruct (Habs i stored Hk Hz). }
  assert (hash_table_get (Some t) (Some key) key_size = Ret NULL) as Hget
    by (unfold hash_table_get; by rewrite Hfind).
  split; [done|]. split.
  - unfold hash_table_contains. by rewrite Hget.
  - intros w. unfold hash_table_remove, bind, lift. by rewrite Hfind.
Qed.

(** ** A key is found right after its insertion *)

Lemma probe_ext (t1 t2 : hash_table) (key : list byte) (key_size : Z)
    (fuel : nat) (j it : Z) :
  keys t1 = keys t2 -> key_sizes t1 = key_sizes t2 ->
  capacity t1 = capacity t2 ->
  probe fuel t1 key key_size j it = probe fuel t2 key key_size j it.
Proof.
  intros Hk Hz Hc. revert j it.
  induction fuel as [|fuel IH]; intros j it; [done|].
  simpl. rewrite Hk, Hz, Hc.
  destruct (load (keys t2) j) as [[stored|]| |]; simpl; try done.
  destruct (it <? capacity t2); [|done].
  destruct (load (key_sizes t2) j) as [sz| |]; simpl; try done.
  destruct (key_matches stored sz key key_size); [done|].
  destruct (C.modulo _ _) as [j'| |]; simpl; try done.
Qed.

Lemma next_index (cap j k : Z) :
  0 < cap -> ((j + 1) mod cap + k) mod cap = (j + (k + 1)) mod cap.
Proof.
  intros Hcap. rewrite Zplus_mod_idemp_l. f_equal. lia.
Qed.

Lemma indices_differ (cap s k n : Z) :
  0 <= k < n -> n < cap -> (s + k) mod cap <> (s + n) mod cap.
Proof.
  intros Hk Hn Heq.
  assert (((s + n) - (s + k)) mod cap = 0) as H0.
  { rewrite Zminus_mod, Heq, Z.sub_diag. apply Z.mod_0_l. lia. }
  replace (s + n - (s + k)) with (n - k) in H0 by lia.
  rewrite Z.mod_small in H0 by lia. lia.
Qed.

(** A scan that stops went through rejecting slots only, one after the
    other. *)
Lemma probe_stop_path (t : hash_table) (key : list byte) (key_size : Z)
    (fuel : nat) (j it i n : Z) :
  0 < capacity t <= C.size_max -> 0 <= j < capacity t -> 0 <= it ->
  probe fuel t key key_size j it = Ret (Stop i, n) ->
  it <= n /\
  i = (j + (n - it)) mod capacity t /\
  forall k, 0 <= k < n - it ->
            slot_rejects t key key_size ((j + k) mod capacity t).
Proof.
  intros Hcap. revert j it.
  induction fuel as [|fuel IH]; intros j it Hj Hit; [done|].
  simpl. destruct (load (keys t) j) as [[stored|]| |] eqn:Hk; simpl;
    try done.
  2: { intros [= <- <-]. split; [lia|]. split; [|lia].
       rewrite Z.sub_diag, Z.add_0_r, Z.mod_small; lia. }
  destruct (Z.ltb_spec it (capacity t)).
  2: { intros [= <- <-]. split; [lia|]. split; [|lia].
       rewrite Z.sub_diag, Z.add_0_r, Z.mod_small; lia. }
  destruct (load (key_sizes t) j) as [sz| |] eqn:Hz; simpl; try done.
  destruct (key_matches stored sz key key_size) eqn:Hm; [done|].
  rewrite modulo_pos by lia. simpl. rewrite !wrap_small by lia.
  intros Hrec. apply IH in Hrec as (Hle & Hi & Hpath);
    [|apply Z.mod_pos_bound; lia | lia].
  split; [lia|]. split.
  - rewrite Hi, next_index by lia. f_equal. lia.
  - intros k Hkr. destruct (Z.eq_dec k 0) as [->|Hk0].
    + rewrite Z.add_0_r, Z.mod_small by lia. by exists stored, sz.
    + replace (j + k) with (j + ((k - 1) + 1)) by lia.
      rewrite <- next_index by lia. apply Hpath. lia.
Qed.

(** A scan through [m] rejecting slots that then meets an accepting one
    ends there with a match. *)
Lemma probe_hit_path (t : hash_table) (key : list byte) (key_size : Z)
    (m : nat) (fuel : nat) (j it : Z) :
  0 < capacity t <= C.size_max -> 0 <= j < capacity t -> 0 <= it ->
  it + Z.of_nat m < capacity t -> (m < fuel)%nat ->
  (forall k, 0 <= k < Z.of_nat m ->
             slot_rejects t key key_size ((j + k) mod capacity t)) ->
  slot_accepts t key key_size ((j + Z.of_nat m) mod capacity t) ->
  exists n, probe fuel t key key_size j it
            = Ret (Hit ((j + Z.of_nat m) mod capacity t), n).
Proof.
  intros Hcap. revert fuel j it.
  induction m as [|m IH]; intros fuel j it Hj Hit Hlt Hfuel Hrej Hacc;
    (destruct fuel as [|fuel]; [lia|]); simpl probe.
  - rewrite Z.add_0_r, Z.mod_small in * by lia.
    destruct Hacc as (stored & sz & Hk & Hz & Hm). rewrite Hk. simpl.
    destruct (Z.ltb_spec it (capacity t)); [|lia].
    rewrite Hz. simpl. rewrite Hm. by eexists.
  - destruct (Hrej 0) as (stored & sz & Hk & Hz & Hm); [lia|].
    rewrite Z.add_0_r, Z.mod_small in Hk, Hz by lia.
    rewrite Hk. simpl. destruct (Z.ltb_spec it (capacity t)); [|lia].
    rewrite Hz. simpl. rewrite Hm.
    rewrite modulo_pos by lia. simpl. rewrite !wrap_small by lia.
    replace (j + Z.of_nat (S m)) with (j + (Z.of_nat m + 1)) in * by lia.
    rewrite <- next_index in * by lia.
    apply IH; [apply Z.mod_pos_bound; lia | lia | lia | lia | | done].
    intros k Hkr. rewrite next_index by lia. apply Hrej. lia.
Qed.

Lemma stored_key_matches (key bytes : list byte) (key_size : Z) :
  read_bytes key key_size = Ret bytes ->
  key_matches bytes key_size key key_size = true.
Proof.
  unfold read_bytes. destruct (_ <=? _); [|done]. intros [= <-].
  unfold key_matches, memcmp_eq. rewrite Z.eqb_refl. simpl.
  apply bytes_eqb_eq. rewrite take_take. f_equal. lia.
Qed.

Lemma find_slot_ext (t1 t2 : hash_table) (key : list byte) (key_size : Z) :
  keys t1 = keys t2 -> key_sizes t1 = key_sizes t2 ->
  capacity t1 = capacity t2 ->
  find_slot t1 key key_size = find_slot t2 key key_size.
Proof.
  intros Hk Hz Hc. unfold find_slot, probe_fuel. rewrite Hc.
  destruct (hash_table_fnv_1a key key_size) as [h| |]; [|done..].
  cbn [rbind]. destruct (C.modulo h (capacity t2)) as [j| |]; [|done..].
  cbn [rbind]. by apply probe_ext.
Qed.

(** The immediate round trip: after a successful insert, get on the same
    key returns the inserted value. *)
Lemma get_after_insert (t t' : hash_table) (key : list byte)
    (key_size value : Z) (w w' : world) :
  0 < capacity t <= C.size_max ->
  hash_table_insert (Some t) (Some key) key_size value w
  = Ret ((0, Some t'), w') ->
  hash_table_get (Some t') (Some key) key_size = Ret value.
Proof.
  intros Hcap H.
  apply insert_success_inv in H as (g & wg & Hg & Hs & Hc & Hcases).
  assert (0 < capacity g <= C.size_max) as Hcapg.
  { destruct Hcases as [(_ & -> & _)|(_ & Hlt & Hn)]; [done|].
    apply to_size_range in Hn. lia. }
  clear Hcases Hg Hcap.
  apply insert_slot_inv in Hs
    as [(i & n & old & vs & Hf & _ & Hst & _ & -> & _)
       |[(i & n & _ & [=] & _)
        |(i & n & b & ks & kz & vs & Hf & Hb & Hks & Hkz & Hvs & _ & -> & _)]].
  - unfold hash_table_get.
    rewrite (find_slot_ext (set_values g vs) g) by done. rewrite Hf.
    cbn [rbind fst]. by apply load_store_same in Hst.
  - set (t' := set_slot g ks kz vs (C.wrap (size g + 1))) in *.
    pose proof (find_slot_index g key key_size _ n ltac:(lia) Hf) as Hi.
    cbn [scan_index] in Hi.
    assert (slot_accepts t' key key_size i) as Hacc.
    { exists b, key_size. split; [by apply load_store_same in Hks|].
      split; [by apply load_store_same in Hkz|].
      by apply stored_key_matches. }
    assert (forall j, 0 <= j -> j <> i -> slot_rejects g key key_size j ->
                      slot_rejects t' key key_size j) as Hkeep.
    { intros j Hj Hne (stored & sz & Hk & Hz & Hm). exists stored, sz.
      assert (Z.to_nat j <> Z.to_nat i) as Hne' by lia.
      split; [cbn; by rewrite (load_store_other _ _ j i _ Hks Hne')|].
      split; [cbn; by rewrite (load_store_other _ _ j i _ Hkz Hne')|done]. }
    assert (exists n', find_slot t' key key_size = Ret (Hit i, n'))
      as [n' Hfind'].
    { unfold find_slot in *. inv_run Hf. inv_run Hf. rewrite E.
      cbn [rbind]. change (capacity t') with (capacity g). rewrite E0.
      cbn [rbind]. rewrite modulo_pos in E0 by lia. injection E0 as <-.
      set (s := a mod capacity g) in *.
      assert (0 <= s < capacity g) as Hs by (apply Z.mod_pos_bound; lia).
      pose proof (probe_iterations g key key_size _ _ _ _ _
                    (proj2 Hcapg) (Z.le_refl 0) Hf) as Hn.
      apply probe_stop_path in Hf as (_ & Hi' & Hpath); [|done|done|lia].
      rewrite Z.sub_0_r in *.
      assert (exists m : nat,
                 Z.of_nat m < capacity g /\
                 i = (s + Z.of_nat m) mod capacity g /\
                 forall k, 0 <= k < Z.of_nat m ->
                   slot_rejects t' key key_size ((s + k) mod capacity g))
        as (m & Hm & Him & Hrej).
      { destruct (Z.eq_dec n (capacity g)) as [Hfull|Hnot].
        - exists 0%nat. split; [lia|]. split; [|intros; lia].
          rewrite Hi', Hfull. cbn. rewrite Z.add_0_r.
          rewrite <- (Z.mul_1_l (capacity g)) at 1.
          by rewrite Z.mod_add by lia.
        - exists (Z.to_nat n). rewrite Z2Nat.id by lia.
          split; [lia|]. split; [done|].
          intros k Hk.
          apply Hkeep; [apply Z.mod_pos_bound; lia | |by apply Hpath].
          rewrite Hi'. apply indices_differ; lia. }
      destruct (probe_hit_path t' key key_size m (probe_fuel t') s 0)
        as [n' Hprobe]; try done.
      - unfold probe_fuel. change (capacity t') with (capacity g). lia.
      - change (capacity t') with (capacity g). by rewrite <- Him.
      - exists n'. rewrite Hprobe. change (capacity t') with (capacity g).
        by rewrite <- Him. }
    unfold hash_table_get. rewrite Hfind'. cbn [rbind fst].
    by apply load_store_same in Hvs.
Qed.

(** * The operations on concrete tables *)

Ltac run := vm_compute; reflexivity.

Example full_table_reached :
  (t <- hash_table_create_with_parameters 2 one two ;;
   insert_strings [(cstring "a", 100); (cstring "b", 200)]%byte t) (heap 6)
  = Ret ((0, Some full_table), World [] []).
Proof. run. Qed.

Example zero_table_reached :
  hash_table_create_with_parameters 0 half two (heap 4)
  = Ret (Some zero_table, World [] []).
Proof. run. Qed.

Example small_table_reached :
  (t <- hash_table_create_with_parameters 2 half two ;;
   hash_table_insert_string t (Some (cstring "a")) 100) (heap 5)
  = Ret ((0, Some small_table), World [] []).
Proof. run. Qed.

(** The string "ab" with its terminator (length 3) and the two bytes "ab"
    (length 2) are two entries of one table, each with its own value. *)
Example ab_and_ab0_are_two_keys :
  exists t w,
    (t0 <- hash_table_create ;;
     r1 <- hash_table_insert_string t0 (Some ["a"; "b"; x00]%byte) 100 ;;
     hash_table_insert (snd r1) (Some ["a"; "b"; x00]%byte) 2 200) (heap 6)
    = Ret ((0, Some t), w) /\
    size t = 2 /\
    hash_table_get_string (Some t) (Some ["a"; "b"; x00]%byte) = Ret 100 /\
    hash_table_get (Some t) (Some ["a"; "b"]%byte) 2 = Ret 200 /\
    hash_table_contains (Some t) (Some ["a"; "b"; x00]%byte) 3 = Ret 1 /\
    (exists t' w',
        hash_table_remove (Some t) (Some ["a"; "b"]%byte) 2 w
        = Ret (Some t', w') /\
        hash_table_get_string (Some t') (Some ["a"; "b"; x00]%byte) = Ret 100 /\
        hash_table_get (Some t') (Some ["a"; "b"]%byte) 2 = Ret NULL).
Proof.
  eexists _, _. split; [run|]. repeat split.
  eexists _, _. split; [run|]. split; reflexivity.
Qed.

(** ** Witnesses *)

Lemma probe_scan_bounded_witness :
  shaped full_table = true /\ 0 < capacity full_table /\
  2 <= Z.of_nat (length (cstring "c")) /\
  find_slot full_table (cstring "c") 2 = Ret (Stop 0, 2) /\
  (exists v, hash_table_get (Some full_table) (Some (cstring "c")) 2 = Ret v).
Proof.
  split; [reflexivity|]. split; [reflexivity|]. split; [simpl; lia|].
  split; [reflexivity|].
  apply (probe_scan_bounded full_table (cstring "c") 2);
    [reflexivity | reflexivity | simpl; lia].
Defined.

Lemma growth_follows_load_test_witness :
  hash_table_insert (Some small_table) (Some (cstring "a")) 2 200 (heap 3)
  = Ret ((0, Some small_table_updated), World [] [FreeValue 100]) /\
  (capacity small_table < capacity small_table_updated
   <-> load_exceeds small_table = true).
Proof.
  split; [reflexivity|].
  apply (growth_follows_load_test small_table small_table_updated
           (cstring "a") 2 200 (heap 3) (World [] [FreeValue 100]) eq_refl).
Defined.

Lemma zero_capacity_modulus_witness :
  2 <= Z.of_nat (length (cstring "a")) /\
  capacity zero_table = 0 /\
  hash_table_get (Some zero_table) (Some (cstring "a")) 2
  = Undefined DivByZero /\
  load_exceeds zero_table = true /\
  hash_table_insert (Some zero_table) (Some (cstring "a")) 2 100 (heap 4)
  = Ret ((1, Some zero_table), heap 4) /\
  (0 < capacity full_table <= C.size_max) /\
  hash_table_get (Some full_table) (Some (cstring "a")) 2
  <> Undefined DivByZero.
Proof.
  assert (2 <= Z.of_nat (length (cstring "a"))) as Hlen by (simpl; lia).
  assert (0 < capacity full_table <= C.size_max) as Hcap
    by (unfold C.size_max; simpl; lia).
  destruct (zero_capacity_modulus zero_table (cstring "a") 2 Hlen)
    as (Hzero & _).
  destruct (Hzero eq_refl) as (Hget & _ & _ & _ & _ & Hins).
  destruct (Hins eq_refl) as [Hl Hrun].
  split; [exact Hlen|]. split; [reflexivity|]. split; [exact Hget|].
  split; [exact Hl|]. split; [exact (Hrun 100 (heap 4))|].
  split; [exact Hcap|].
  apply (zero_capacity_modulus full_table (cstring "a") 2 Hlen).
  exact Hcap.
Defined.

(** ** Failures that leave a changed table *)

(** C1: an insert that fails on the allocation of the key copy after its
    growth step succeeded returns 1 and leaves the table grown.  The
    default table holding eight keys has capacity 16; inserting a ninth key
    when the allocator answers the three [calloc]s of the growth and then
    fails gives failure, capacity 32 and the eight entries in other
    slots.  The value is neither stored nor released. *)
Theorem insert_key_alloc_failure_keeps_growth :
  exists t w t' w',
    (t0 <- hash_table_create ;; insert_strings eight_keys t0) (heap 15)
    = Ret ((0, Some t), w) /\
    capacity t = 16 /\ size t = 8 /\
    hash_table_insert_string (Some t) (Some (cstring "i")) 9 w
    = Ret ((1, Some t'), w') /\
    capacity t' = 32 /\ size t' = 8 /\
    keys t' <> keys t /\
    trace w' = [] /\
    hash_table_get_string (Some t') (Some (cstring "i")) = Ret NULL.
Proof.
  eexists _, _, _, _. split; [run|]. split; [reflexivity|].
  split; [reflexivity|]. split; [run|]. repeat split. discriminate.
Qed.

(** C5: creation does not test what [malloc] and [calloc] return.  When
    the allocation of the table fails, the first field assignment goes
    through a null pointer; when a [calloc] fails, a table with a null
    array is returned, not a no-table indicator.  When the four
    allocations succeed the table has three arrays of [capacity] empty
    cells and size 0. *)
Theorem create_alloc_failure_unchecked :
  hash_table_create (World [] []) = Undefined NullDeref /\
  hash_table_create_with_destructor (Some 0%nat) (World [] [])
  = Undefined NullDeref /\
  hash_table_create_with_parameters 16 half two (World [] [])
  = Undefined NullDeref /\
  hash_table_create_with_parameters_and_destructor 16 half two None
    (World [] []) = Undefined NullDeref /\
  hash_table_create (World [4096; NULL; 4112; 4128] [])
  = Ret (Some (HashTable 16 None (Some (replicate 16 0))
                 (Some (replicate 16 NULL)) 0 half two None),
         World [] []) /\
  hash_table_create (heap 4)
  = Ret (Some (HashTable 16 (Some (replicate 16 None))
                 (Some (replicate 16 0)) (Some (replicate 16 NULL))
                 0 half two None),
         World [] []).
Proof. repeat split. Qed.

(** ** Removal leaves a hole in a probe chain *)

(** C3: "a" and "q" hash to slot 4 of the default table, so "q", inserted
    second, sits in slot 5.  Removing "a" empties slot 4, and the scan for
    "q" stops there: "q" was inserted and never removed, it is still
    stored in slot 5 with its value, and get returns the absent
    indicator. *)
Theorem get_misses_key_after_remove :
  exists t w t' w',
    (t0 <- hash_table_create ;;
     insert_strings [(cstring "a", 100); (cstring "q", 200)]%byte t0) (heap 6)
    = Ret ((0, Some t), w) /\
    hash_table_get_string (Some t) (Some (cstring "q")) = Ret 200 /\
    hash_table_remove_string (Some t) (Some (cstring "a")) w
    = Ret (Some t', w') /\
    load (keys t') 5 = Ret (Some (cstring "q")) /\
    load (values t') 5 = Ret 200 /\
    hash_table_get_string (Some t') (Some (cstring "q")) = Ret NULL /\
    hash_table_contains_string (Some t') (Some (cstring "q")) = Ret 0.
Proof.
  eexists _, _, _, _. split; [run|]. split; [reflexivity|].
  split; [run|]. repeat split.
Qed.

(** C7: after insert "a", insert "q", remove "a", insert "q", remove "q",
    insert "a" on the default table, the key "q" has been removed and not
    inserted again; get returns the value of its first insertion and
    contains returns 1.  The second insertion of "q" did not find the
    first behind the hole left by "a" and stored a second entry; the
    removal released that one only. *)
Theorem get_finds_removed_key :
  exists t w,
    (t0 <- hash_table_create ;;
     r1 <- hash_table_insert_string t0 (Some (cstring "a")) 100 ;;
     r2 <- hash_table_insert_string (snd r1) (Some (cstring "q")) 200 ;;
     t3 <- hash_table_remove_string (snd r2) (Some (cstring "a")) ;;
     r4 <- hash_table_insert_string t3 (Some (cstring "q")) 300 ;;
     t5 <- hash_table_remove_string (snd r4) (Some (cstring "q")) ;;
     hash_table_insert_string t5 (Some (cstring "a")) 400) (heap 8)
    = Ret ((0, Some t), w) /\
    trace w = [FreeKey (cstring "a"); FreeValue 100;
               FreeKey (cstring "q"); FreeValue 300] /\
    hash_table_get_string (Some t) (Some (cstring "q")) = Ret 200 /\
    hash_table_contains_string (Some t) (Some (cstring "q")) = Ret 1.
Proof.
  eexists _, _. split; [run|]. repeat split.
Qed.

(** ** A null value *)

(** C4: contains is [get != NULL].  A key inserted with the value [NULL]
    is stored in its slot, and contains returns 0 for it. *)
Theorem contains_misses_null_value :
  exists t w,
    (t0 <- hash_table_create ;;
     hash_table_insert_string t0 (Some (cstring "a")) NULL) (heap 5)
    = Ret ((0, Some t), w) /\
    size t = 1 /\
    load (keys t) 4 = Ret (Some (cstring "a")) /\
    load (key_sizes t) 4 = Ret 2 /\
    find_slot t (cstring "a") 2 = Ret (Hit 4, 0) /\
    hash_table_get_string (Some t) (Some (cstring "a")) = Ret NULL /\
    hash_table_contains_string (Some t) (Some (cstring "a")) = Ret 0.
Proof.
  eexists _, _. split; [run|]. repeat split.
Qed.

(** ** Counterexamples to the load and growth statements *)

(** A table created with threshold 1/64 (in (0, 1]) and factor 2 (above
    1): the first insert succeeds, grows the capacity from 16 to 32 once,
    and leaves size / capacity = 1/32 above the threshold, which the empty
    table was not: capacity 32 has no room for one entry. *)
Lemma load_above_threshold_after_insert :
  exists t w t' w',
    hash_table_create_with_parameters 16 one_64th two (heap 8)
    = Ret (Some t, w) /\
    F32.gt one_64th (F32.lit 0 0) = true /\
    F32.gt one_64th one = false /\
    F32.gt two one = true /\
    hash_table_insert_string (Some t) (Some (cstring "a")) 100 w
    = Ret ((0, Some t'), w') /\
    size t' = 1 /\ capacity t' = 32 /\
    load_above t' = true /\
    load_above t = false /\ growth_makes_room t 32 = false.
Proof.
  eexists _, _, _, _. split; [run|]. do 3 (split; [reflexivity|]).
  split; [run|]. repeat split.
Qed.

(** A table created with capacity 25, threshold 0.04f and factor 2: the
    quotient (float)1 / (float)25 is rounded to 0.04f itself, so the load
    test of the first insert does not fire although 1/25 exceeds the value
    of 0.04f; the insert succeeds without growth and leaves size /
    capacity = 1/25 above the threshold. *)
Example load_above_threshold_by_rounding :
  exists t w t' w',
    hash_table_create_with_parameters 25 four_hundredths two (heap 8)
    = Ret (Some t, w) /\
    F32.gt four_hundredths (F32.lit 0 0) = true /\
    F32.gt four_hundredths one = false /\
    F32.canonical four_hundredths = true /\
    hash_table_insert_string (Some t) (Some (cstring "a")) 100 w
    = Ret ((0, Some t'), w') /\
    load_exceeds t = false /\ load_test_sound t = false /\
    size t' = 1 /\ capacity t' = 25 /\
    load_above t = false /\ load_above t' = true.
Proof.
  eexists _, _, _, _. split; [run|]. do 3 (split; [reflexivity|]).
  split; [run|]. repeat split.
Qed.

(** The key "a" is present in a table of capacity 2 and size 1 with
    threshold 0.5; inserting "a" again only replaces its value, and the
    capacity grows to 4. *)
Lemma update_triggers_growth :
  hash_table_get_string (Some small_table) (Some (cstring "a")) = Ret 100 /\
  hash_table_insert_string (Some small_table) (Some (cstring "a")) 200 (heap 3)
  = Ret ((0, Some small_table_updated), World [] [FreeValue 100]) /\
  size small_table_updated = size small_table /\
  capacity small_table = 2 /\ capacity small_table_updated = 4.
Proof. repeat split. Qed.

(** On the table created with capacity 0, threshold 0.5 and factor 2.0,
    insert does not reach the modulus: its load test fires, the growth to
    capacity 0 is refused and insert returns 1. *)
Lemma insert_zero_capacity_fails_cleanly :
  hash_table_create_with_parameters 0 half two (heap 4)
  = Ret (Some zero_table, World [] []) /\
  load_exceeds zero_table = true /\
  hash_table_insert_string (Some zero_table) (Some (cstring "a")) 100 (heap 4)
  = Ret ((1, Some zero_table), heap 4) /\
  hash_table_insert_string (Some zero_table) (Some (cstring "a")) 100 (heap 4)
  <> Undefined DivByZero.
Proof. repeat split. discriminate. Qed.

(** * Further properties of the operations *)

(** ** Absent arguments *)

(** X5: with no table or no key every operation returns its neutral value
    (size and capacity 0, the absent indicator, false, failure), allocates
    nothing, releases nothing and leaves the table as it is; insert_copy
    does so for an absent value as well, before it allocates the copy.
    The string wrappers do so for no key, and for no table (or no value)
    once [strlen] has gone through the key, which must be a terminated
    string. *)
Theorem absent_arguments_are_neutral :
  hash_table_size None = 0 /\
  hash_table_capacity None = 0 /\
  (forall key n, hash_table_get None key n = Ret NULL) /\
  (forall table n, hash_table_get table None n = Ret NULL) /\
  (forall key n, hash_table_contains None key n = Ret 0) /\
  (forall table n, hash_table_contains table None n = Ret 0) /\
  (forall key n v w, hash_table_insert None key n v w = Ret ((1, None), w)) /\
  (forall table n v w,
      hash_table_insert table None n v w = Ret ((1, table), w)) /\
  (forall key n w, hash_table_remove None key n w = Ret (None, w)) /\
  (forall table n w, hash_table_remove table None n w = Ret (table, w)) /\
  (forall w, hash_table_clear None w = Ret (None, w)) /\
  (forall w, hash_table_destroy None w = Ret (tt, w)) /\
  (forall table key value n m w,
      table = None \/ key = None \/ value = None ->
      hash_table_insert_copy table key n value m w = Ret ((1, table), w)) /\
  (forall table v value m w,
      hash_table_get_string table None = Ret NULL /\
      hash_table_contains_string table None = Ret 0 /\
      hash_table_insert_string table None v w = Ret ((1, table), w) /\
      hash_table_insert_copy_string table None value m w
      = Ret ((1, table), w) /\
      hash_table_remove_string table None w = Ret (table, w)) /\
  (forall s n v value m w,
      strlen s = Ret n ->
      hash_table_get_string None (Some s) = Ret NULL /\
      hash_table_contains_string None (Some s) = Ret 0 /\
      hash_table_insert_string None (Some s) v w = Ret ((1, None), w) /\
      hash_table_insert_copy_string None (Some s) value m w
      = Ret ((1, None), w) /\
      hash_table_remove_string None (Some s) w = Ret (None, w)) /\
  (forall table s n m w,
      strlen s = Ret n ->
      hash_table_insert_copy_string table (Some s) None m w
      = Ret ((1, table), w)).
Proof.
  repeat split; try done.
  - by intros [t|].
  - by intros [t|].
  - by intros [t|] n v w.
  - by intros [t|] n w.
  - intros table key value n m w [-> | [-> | ->]].
    + done.
    + by destruct table.
    + by destruct table, key.
  - unfold hash_table_get_string, string_key_size. by rewrite H.
  - unfold hash_table_contains_string, string_key_size. by rewrite H.
  - unfold hash_table_insert_string, string_key_size, bind, lift.
    by rewrite H.
  - unfold hash_table_insert_copy_string, string_key_size, bind, lift.
    by rewrite H.
  - unfold hash_table_remove_string, string_key_size, bind, lift.
    by rewrite H.
  - intros table s n m w H.
    unfold hash_table_insert_copy_string, string_key_size, bind, lift.
    rewrite H. by destruct table.
Qed.

(** ** Keys are the first [key_size] bytes of the buffer *)

Lemma key_matches_prefix (stored : list byte) (sz : Z) (k1 k2 : list byte)
    (n : Z) :
  take (Z.to_nat n) k1 = take (Z.to_nat n) k2 ->
  key_matches stored sz k1 n = key_matches stored sz k2 n.
Proof. intros H. unfold key_matches, memcmp_eq. by rewrite H. Qed.

Lemma probe_key_ext (t : hash_table) (k1 k2 : list byte) (n : Z)
    (fuel : nat) (j it : Z) :
  take (Z.to_nat n) k1 = take (Z.to_nat n) k2 ->
  probe fuel t k1 n j it = probe fuel t k2 n j it.
Proof.
  intros H. revert j it.
  induction fuel as [|fuel IH]; intros j it; [done|].
  simpl. destruct (load (keys t) j) as [[stored|]| |]; simpl; try done.
  destruct (it <? capacity t); [|done].
  destruct (load (key_sizes t) j) as [sz| |]; simpl; try done.
  rewrite (key_matches_prefix stored sz k1 k2 n H).
  destruct (key_matches stored sz k2 n); [done|].
  destruct (C.modulo _ _) as [j'| |]; simpl; try done.
Qed.

Lemma read_bytes_prefix (k1 k2 : list byte) (n : Z) :
  n <= Z.of_nat (length k1) -> n <= Z.of_nat (length k2) ->
  take (Z.to_nat n) k1 = take (Z.to_nat n) k2 ->
  read_bytes k1 n = read_bytes k2 n.
Proof.
  intros H1 H2 H. unfold read_bytes.
  destruct (Z.leb_spec n (Z.of_nat (length k1))); [|lia].
  destruct (Z.leb_spec n (Z.of_nat (length k2))); [|lia].
  by rewrite H.
Qed.

Lemma find_slot_prefix (t : hash_table) (k1 k2 : list byte) (n : Z) :
  n <= Z.of_nat (length k1) -> n <= Z.of_nat (length k2) ->
  take (Z.to_nat n) k1 = take (Z.to_nat n) k2 ->
  find_slot t k1 n = find_slot t k2 n.
Proof.
  intros H1 H2 H. unfold find_slot, hash_table_fnv_1a.
  rewrite (read_bytes_prefix k1 k2 n H1 H2 H).
  destruct (read_bytes k2 n) as [bytes| |]; [|done..]. cbn [rbind].
  destruct (C.modulo _ _) as [j| |]; [|done..]. cbn [rbind].
  by apply probe_key_ext.
Qed.

(** X6: an operation reads the first [key_size] bytes of the key buffer
    and nothing else: two buffers that agree on these bytes have the same
    hash and are the same key for get, contains, insert and remove. *)
Theorem key_is_its_first_bytes (t : hash_table) (k1 k2 : list byte) (n : Z) :
  n <= Z.of_nat (length k1) -> n <= Z.of_nat (length k2) ->
  take (Z.to_nat n) k1 = take (Z.to_nat n) k2 ->
  hash_table_fnv_1a k1 n = hash_table_fnv_1a k2 n /\
  hash_table_get (Some t) (Some k1) n = hash_table_get (Some t) (Some k2) n /\
  hash_table_contains (Some t) (Some k1) n
  = hash_table_contains (Some t) (Some k2) n /\
  (forall v w,
      hash_table_insert (Some t) (Some k1) n v w
      = hash_table_insert (Some t) (Some k2) n v w) /\
  (forall w,
      hash_table_remove (Some t) (Some k1) n w
      = hash_table_remove (Some t) (Some k2) n w).
Proof.
  intros H1 H2 H.
  pose proof (fun g => find_slot_prefix g k1 k2 n H1 H2 H) as Hfind.
  pose proof (read_bytes_prefix k1 k2 n H1 H2 H) as Hread.
  assert (hash_table_get (Some t) (Some k1) n
          = hash_table_get (Some t) (Some k2) n) as Hget
    by (unfold hash_table_get; by rewrite Hfind).
  split; [unfold hash_table_fnv_1a; by rewrite Hread|].
  split; [done|]. split; [unfold hash_table_contains; by rewrite Hget|].
  split.
  - intros v w. unfold hash_table_insert, bind.
    destruct (grow_if_needed t w) as [[[rc g] wg]| |]; [|done..].
    cbn [fst snd]. destruct (negb (rc =? 0)); [done|].
    unfold insert_slot. by rewrite Hfind, Hread.
  - intros w. unfold hash_table_remove. by rewrite Hfind.
Qed.

Lemma key_is_its_first_bytes_witness :
  2 <= Z.of_nat (length ["a"; "b"; x00]%byte) /\
  2 <= Z.of_nat (length ["a"; "b"; "c"; "d"]%byte) /\
  hash_table_get (Some full_table) (Some ["a"; "b"; x00]%byte) 2
  = hash_table_get (Some full_table) (Some ["a"; "b"; "c"; "d"]%byte) 2.
Proof.
  assert (2 <= Z.of_nat (length ["a"; "b"; x00]%byte)) as H1 by (simpl; lia).
  assert (2 <= Z.of_nat (length ["a"; "b"; "c"; "d"]%byte)) as H2
    by (simpl; lia).
  split; [exact H1|]. split; [exact H2|].
  apply (key_is_its_first_bytes full_table _ _ 2 H1 H2 eq_refl).
Defined.

(** ** A new table holds no key *)

Lemma load_replicate {A} (n j : Z) (x : A) :
  0 <= j < n -> load (Some (replicate (Z.to_nat n) x)) j = Ret x.
Proof.
  intros H. unfold load. rewrite lookup_replicate_2 by lia. done.
Qed.

(** X4: a table created with a positive capacity, when its four
    allocations succeed, has that capacity and size 0, and holds no key:
    get returns the absent indicator, contains 0, and remove changes
    nothing, for every key. *)
Theorem new_table_is_empty (cap : Z) (thr fac : spec_float) (d : option nat)
    (p1 p2 p3 p4 : Z) (rest : list Z) (tr : list event)
    (key : list byte) (key_size : Z) :
  0 < cap <= C.size_max ->
  p1 <> NULL -> p2 <> NULL -> p3 <> NULL -> p4 <> NULL ->
  key_size <= Z.of_nat (length key) ->
  exists t,
    hash_table_create_with_parameters_and_destructor cap thr fac d
      (World (p1 :: p2 :: p3 :: p4 :: rest) tr)
    = Ret (Some t, World rest tr) /\
    hash_table_size (Some t) = 0 /\
    hash_table_capacity (Some t) = cap /\
    hash_table_get (Some t) (Some key) key_size = Ret NULL /\
    hash_table_contains (Some t) (Some key) key_size = Ret 0 /\
    forall w, hash_table_remove (Some t) (Some key) key_size w
              = Ret (Some t, w).
Proof.
  intros Hcap H1 H2 H3 H4 Hkey. eexists. split.
  { by apply create_success. }
  split; [done|]. split; [done|].
  set (t := HashTable cap _ _ _ 0 thr fac d).
  assert (exists j, find_slot t key key_size = Ret (Stop j, 0)) as [j Hfind].
  { unfold find_slot. destruct (fnv_defined key key_size Hkey) as [h ->].
    cbn [rbind]. change (capacity t) with cap. rewrite modulo_pos by lia.
    cbn [rbind]. unfold probe_fuel. cbn [probe].
    change (keys t) with (Some (replicate (Z.to_nat cap) (@None (list byte)))).
    rewrite load_replicate by (apply Z.mod_pos_bound; lia).
    cbn [rbind]. by eexists. }
  assert (hash_table_get (Some t) (Some key) key_size = Ret NULL) as Hget
    by (unfold hash_table_get; by rewrite Hfind).
  split; [done|]. split.
  - unfold hash_table_contains. by rewrite Hget.
  - intros w. unfold hash_table_remove, bind, lift. by rewrite Hfind.
Qed.

Lemma new_table_is_empty_witness :
  exists t,
    hash_table_create (heap 4) = Ret (Some t, World [] []) /\
    hash_table_size (Some t) = 0 /\
    hash_table_capacity (Some t) = 16 /\
    hash_table_get (Some t) (Some (cstring "a")) 2 = Ret NULL /\
    hash_table_contains (Some t) (Some (cstring "a")) 2 = Ret 0 /\
    forall w, hash_table_remove (Some t) (Some (cstring "a")) 2 w
              = Ret (Some t, w).
Proof.
  apply (new_table_is_empty 16 HASH_TABLE_DEFAULT_RESIZE_THRESHOLD
           HASH_TABLE_DEFAULT_RESIZE_FACTOR None 4096 4112 4128 4144 [] []
           (cstring "a") 2);
    first [discriminate | unfold C.size_max; simpl; lia].
Defined.

(** ** Insert, then look up *)

Lemma insert_returns_table (t : hash_table) (key : option (list byte))
    (key_size value rc : Z) (tbl : option hash_table) (w w' : world) :
  hash_table_insert (Some t) key key_size value w = Ret ((rc, tbl), w') ->
  exists t', tbl = Some t'.
Proof.
  unfold hash_table_insert. destruct key as [k|].
  - intros H. inv_run H. destruct (negb (a.1 =? 0)).
    + apply ret_Ret in H as [[= _ ->] _]. by eexists.
    + inv_run H. apply ret_Ret in H as [[= _ ->] _]. by eexists.
  - intros [= _ <- _]. by eexists.
Qed.

(** X1: the value a successful insert stored is what get returns for that
    key right after, contains returns 1 exactly when that value is not
    [NULL], and a second successful insert of the same key makes get
    return the second value. *)
Theorem insert_get_round_trip (t t1 : hash_table) (key : list byte)
    (key_size v1 : Z) (w w1 : world) :
  0 < capacity t <= C.size_max ->
  hash_table_insert (Some t) (Some key) key_size v1 w
  = Ret ((0, Some t1), w1) ->
  hash_table_get (Some t1) (Some key) key_size = Ret v1 /\
  hash_table_contains (Some t1) (Some key) key_size
  = Ret (if v1 =? NULL then 0 else 1) /\
  forall v2 t2 w2,
    hash_table_insert (Some t1) (Some key) key_size v2 w1
    = Ret ((0, Some t2), w2) ->
    hash_table_get (Some t2) (Some key) key_size = Ret v2.
Proof.
  intros Hcap H1.
  pose proof (get_after_insert _ _ _ _ _ _ _ Hcap H1) as Hget.
  split; [done|]. split.
  - unfold hash_table_contains. by rewrite Hget.
  - intros v2 t2 w2 H2. eapply get_after_insert; [|exact H2].
    apply insert_success_inv in H1 as (g & wg & _ & _ & Hc & Hcases).
    rewrite Hc. destruct Hcases as [(_ & -> & _)|(_ & Hlt & Hn)]; [done|].
    apply to_size_range in Hn. lia.
Qed.

Lemma insert_get_round_trip_witness :
  0 < capacity small_table <= C.size_max /\
  hash_table_insert (Some small_table) (Some (cstring "a")) 2 200 (heap 3)
  = Ret ((0, Some small_table_updated), World [] [FreeValue 100]) /\
  hash_table_get (Some small_table_updated) (Some (cstring "a")) 2 = Ret 200.
Proof.
  assert (0 < capacity small_table <= C.size_max) as Hcap
    by (unfold C.size_max; simpl; lia).
  split; [exact Hcap|]. split; [reflexivity|].
  apply (insert_get_round_trip small_table small_table_updated (cstring "a")
           2 200 (heap 3) (World [] [FreeValue 100]) Hcap eq_refl).
Defined.

(** ** Insertion of a copy *)

Lemma insert_failure_trace (t t' : hash_table) (key : list byte)
    (key_size value rc : Z) (w w' : world) :
  hash_table_insert (Some t) (Some key) key_size value w
  = Ret ((rc, Some t'), w') ->
  rc <> 0 -> rc = 1 /\ trace w' = trace w.
Proof.
  intros H Hrc. apply insert_inv in H as (gr & g & wg & Hg & H).
  apply grow_inv in Hg as [T _].
  destruct H as [(_ & -> & _ & ->)|[-> Hs]]; [done|].
  apply insert_slot_inv in Hs
    as [(i & n & old & vs & _ & _ & _ & -> & _)
       |[(i & n & _ & -> & _ & T')
        |(i & n & b & ks & kz & vs & _ & _ & _ & _ & _ & -> & _)]];
    [done | split; congruence | done].
Qed.

(** X7: insert_copy stores the address of a fresh copy: when it succeeds,
    get returns the address [malloc] gave for the copy, which is not
    [NULL].  When it fails, either the copy
    was never allocated and nothing is released, or the copy is the one
    thing released, once. *)
Theorem insert_copy_owns_its_copy (t : hash_table) (key value : list byte)
    (key_size value_size rc : Z) (tbl : option hash_table) (w w' : world) :
  0 < capacity t <= C.size_max ->
  hash_table_insert_copy (Some t) (Some key) key_size (Some value) value_size w
  = Ret ((rc, tbl), w') ->
  (rc = 0 ->
   exists p rest, allocs w = p :: rest /\ p <> NULL /\
                  hash_table_get tbl (Some key) key_size = Ret p) /\
  (rc <> 0 ->
   rc = 1 /\
   ((tbl = Some t /\ trace w' = trace w /\
     (allocs w = [] \/ exists rest, allocs w = NULL :: rest)) \/
    (exists p rest, allocs w = p :: rest /\ p <> NULL /\
                    trace w' = trace w ++ [FreeValue p]))).
Proof.
  intros Hcap H. unfold hash_table_insert_copy in H. inv_run H.
  assert (trace w0 = trace w /\
          ((a = NULL /\ w0 = w /\ allocs w = []) \/
           exists rest, allocs w = a :: rest)) as [T Hal].
  { unfold malloc in E. destruct (allocs w) as [|p rest] eqn:Ha.
    - injection E as <- <-. split; [done|]. by left.
    - injection E as <- <-. split; [done|]. right. by eexists. }
  destruct (Z.eqb_spec a NULL) as [->|Hp].
  { apply ret_Ret in H as [[= -> ->] ->]. split; [done|]. intros _.
    split; [done|]. left. split; [done|]. split; [done|].
    destruct Hal as [(_ & _ & ?)|[rest ?]]; [by left | right; by eexists]. }
  destruct Hal as [(? & _)|[rest Hal]]; [done|].
  inv_run H. inv_run H. destruct a1 as [rc' tbl'].
  destruct (insert_returns_table _ _ _ _ _ _ _ _ E1) as [t' ->].
  cbn [fst] in H. destruct (Z.eqb_spec rc' 0) as [->|Hrc]; cbn [negb] in H.
  - apply ret_Ret in H as [[= -> ->] ->]. split; [|done]. intros _.
    exists a, rest. split; [done|]. split; [done|].
    by eapply get_after_insert.
  - inv_run H. apply ret_Ret in H as [[= -> ->] ->]. split; [done|].
    intros _. apply insert_failure_trace in E1 as [-> T1]; [|done].
    split; [done|]. right. exists a, rest. split; [done|]. split; [done|].
    unfold emit in E2. injection E2 as _ <-. simpl. by rewrite T1, T.
Qed.

Lemma insert_copy_owns_its_copy_witness :
  0 < capacity small_table <= C.size_max /\
  exists tbl w',
    hash_table_insert_copy (Some small_table) (Some (cstring "b")) 2
      (Some ["x"; "y"]%byte) 2 (heap 5) = Ret ((0, tbl), w') /\
    hash_table_get tbl (Some (cstring "b")) 2 = Ret 4096.
Proof.
  assert (0 < capacity small_table <= C.size_max) as Hcap
    by (unfold C.size_max; simpl; lia).
  eassert (hash_table_insert_copy (Some small_table) (Some (cstring "b")) 2
             (Some ["x"; "y"]%byte) 2 (heap 5) = Ret ((0, _), _)) as Hrun
    by (vm_compute; reflexivity).
  split; [exact Hcap|]. eexists _, _. split; [exact Hrun|].
  destruct (insert_copy_owns_its_copy small_table (cstring "b")
              ["x"; "y"]%byte 2 2 0 _ (heap 5) _ Hcap Hrun) as [H _].
  destruct (H eq_refl) as (p & rest & Ha & _ & Hget).
  injection Ha as <- _. exact Hget.
Defined.

(** ** Duplicating a string *)

Lemma strlen_take (s : list byte) (n : Z) :
  strlen s = Ret n ->
  0 <= n < Z.of_nat (length s) /\
  strlen (take (Z.to_nat (n + 1)) s) = Ret n.
Proof.
  revert n. induction s as [|b s IH]; intros n; [done|].
  simpl strlen. destruct (Byte.eqb b "000") eqn:Hb.
  - intros [= <-]. split; [simpl; lia|]. simpl. by rewrite Hb.
  - intros H. apply rbind_Ret in H as (m & Hm & [= <-]).
    destruct (IH m Hm) as [Hr Ht]. split; [simpl length; lia|].
    replace (Z.to_nat (m + 1 + 1)) with (S (Z.to_nat (m + 1))) by lia.
    simpl. rewrite Hb, Ht. done.
Qed.

(** X8: ht_strdup of a C string returns, when [malloc] succeeds, a buffer
    holding the string up to and including its terminator: the same
    length, the same bytes, hence the same key for the string wrappers; it
    returns the null pointer when [malloc] fails, and releases nothing. *)
Theorem ht_strdup_copies_the_string (s : list byte) (n : Z) (w : world) :
  strlen s = Ret n -> Z.of_nat (length s) <= C.size_max ->
  (allocs w = [] -> ht_strdup (Some s) w = Ret (None, w)) /\
  (forall p rest, allocs w = p :: rest -> p <> NULL ->
     exists copy,
       ht_strdup (Some s) w = Ret (Some copy, World rest (trace w)) /\
       copy = take (Z.to_nat (n + 1)) s /\
       Z.of_nat (length copy) = n + 1 /\
       strlen copy = Ret n /\
       forall table,
         hash_table_get_string table (Some copy)
         = hash_table_get_string table (Some s)).
Proof.
  intros Hn Hlen. destruct (strlen_take s n Hn) as [Hr Ht].
  assert (C.wrap (n + 1) = n + 1) as Hw by (apply wrap_small; lia).
  split.
  - intros Ha. unfold ht_strdup, bind, lift, malloc. rewrite Hn, Hw, Ha. done.
  - intros p rest Ha Hp. exists (take (Z.to_nat (n + 1)) s).
    split; [|split; [done|split; [|split; [done|]]]].
    + unfold ht_strdup, bind, lift, malloc. rewrite Hn, Hw, Ha.
      destruct (Z.eqb_spec p NULL); [done|]. unfold read_bytes.
      destruct (Z.leb_spec (n + 1) (Z.of_nat (length s))); [done | lia].
    + rewrite length_take. lia.
    + intros [t|]; unfold hash_table_get_string, string_key_size;
        rewrite Hn, Ht; cbn [rbind]; rewrite Hw; [|done].
      unfold hash_table_get. rewrite (find_slot_prefix t _ s (n + 1)); [done| | |].
      * rewrite length_take. lia.
      * lia.
      * rewrite take_take. f_equal. lia.
Qed.

Lemma ht_strdup_copies_the_string_witness :
  strlen ["h"; "i"; x00; "z"]%byte = Ret 2 /\
  Z.of_nat (length ["h"; "i"; x00; "z"]%byte) <= C.size_max /\
  ht_strdup (Some ["h"; "i"; x00; "z"]%byte) (World [] [])
  = Ret (None, World [] []) /\
  exists copy,
    ht_strdup (Some ["h"; "i"; x00; "z"]%byte) (heap 1)
    = Ret (Some copy, World [] []) /\
    copy = ["h"; "i"; x00]%byte /\ strlen copy = Ret 2.
Proof.
  assert (Z.of_nat (length ["h"; "i"; x00; "z"]%byte) <= C.size_max) as Hlen
    by (unfold C.size_max; simpl; lia).
  split; [reflexivity|]. split; [exact Hlen|].
  destruct (ht_strdup_copies_the_string ["h"; "i"; x00; "z"]%byte 2
              (World [] []) eq_refl Hlen) as [Hfail _].
  destruct (ht_strdup_copies_the_string ["h"; "i"; x00; "z"]%byte 2
              (heap 1) eq_refl Hlen) as [_ Hok].
  split; [exact (Hfail eq_refl)|].
  destruct (Hok 4096 [] eq_refl ltac:(discriminate))
    as (copy & Hrun & Hcopy & _ & Hstr & _).
  exists copy. split; [exact Hrun|]. split; [exact Hcopy | exact Hstr].
Defined.

(** ** The path of a scan *)

(** A scan that ends with a match went through rejecting slots only, and
    fewer than [capacity] of them. *)
Lemma probe_hit_inv (t : hash_table) (key : list byte) (key_size : Z)
    (fuel : nat) (j it i n : Z) :
  0 < capacity t <= C.size_max -> 0 <= j < capacity t -> 0 <= it ->
  probe fuel t key key_size j it = Ret (Hit i, n) ->
  it <= n < capacity t /\
  i = (j + (n - it)) mod capacity t /\
  (forall k, 0 <= k < n - it ->
             slot_rejects t key key_size ((j + k) mod capacity t)) /\
  slot_accepts t key key_size i.
Proof.
  intros Hcap. revert j it.
  induction fuel as [|fuel IH]; intros j it Hj Hit; [done|].
  simpl. destruct (load (keys t) j) as [[stored|]| |] eqn:Hk; simpl;
    try done.
  destruct (Z.ltb_spec it (capacity t)); [|done].
  destruct (load (key_sizes t) j) as [sz| |] eqn:Hz; simpl; try done.
  destruct (key_matches stored sz key key_size) eqn:Hm.
  { intros [= <- <-]. split; [lia|]. split.
    - rewrite Z.sub_diag, Z.add_0_r, Z.mod_small; lia.
    - split; [intros; lia|]. by exists stored, sz. }
  rewrite modulo_pos by lia. simpl. rewrite !wrap_small by lia.
  intros Hrec. apply IH in Hrec as (Hle & Hi & Hpath & Hacc);
    [|apply Z.mod_pos_bound; lia | lia].
  split; [lia|]. split; [|split; [|done]].
  - rewrite Hi, next_index by lia. f_equal. lia.
  - intros k Hkr. destruct (Z.eq_dec k 0) as [->|Hk0].
    + rewrite Z.add_0_r, Z.mod_small by lia. by exists stored, sz.
    + replace (j + k) with (j + ((k - 1) + 1)) by lia.
      rewrite <- next_index by lia. apply Hpath. lia.
Qed.

(** A scan stops at an empty slot, or after [capacity] iterations. *)
Lemma probe_stop_reason (t : hash_table) (key : list byte) (key_size : Z)
    (fuel : nat) (j it i n : Z) :
  probe fuel t key key_size j it = Ret (Stop i, n) ->
  load (keys t) i = Ret None \/ capacity t <= n.
Proof.
  revert j it. induction fuel as [|fuel IH]; intros j it; [done|].
  simpl. destruct (load (keys t) j) as [[stored|]| |] eqn:Hk; simpl;
    try done.
  2: { intros [= <- <-]. by left. }
  destruct (Z.ltb_spec it (capacity t)).
  2: { intros [= <- <-]. right. lia. }
  destruct (load (key_sizes t) j) as [sz| |] eqn:Hz; simpl; try done.
  destruct (key_matches stored sz key key_size); [done|].
  destruct (C.modulo _ _) as [j'| |]; simpl; try done. apply IH.
Qed.

(** A scan through [m] rejecting slots that then meets an empty one stops
    there. *)
Lemma probe_stop_at_empty (t : hash_table) (key : list byte) (key_size : Z)
    (m : nat) (fuel : nat) (j it : Z) :
  0 < capacity t <= C.size_max -> 0 <= j < capacity t -> 0 <= it ->
  it + Z.of_nat m <= capacity t -> (m < fuel)%nat ->
  (forall k, 0 <= k < Z.of_nat m ->
             slot_rejects t key key_size ((j + k) mod capacity t)) ->
  load (keys t) ((j + Z.of_nat m) mod capacity t) = Ret None ->
  probe fuel t key key_size j it
  = Ret (Stop ((j + Z.of_nat m) mod capacity t), it + Z.of_nat m).
Proof.
  intros Hcap. revert fuel j it.
  induction m as [|m IH]; intros fuel j it Hj Hit Hle Hfuel Hrej Hemp;
    (destruct fuel as [|fuel]; [lia|]); simpl probe.
  - rewrite Z.add_0_r, Z.mod_small in * by lia. rewrite Hemp. simpl.
    do 2 f_equal. lia.
  - destruct (Hrej 0) as (stored & sz & Hk & Hz & Hm); [lia|].
    rewrite Z.add_0_r, Z.mod_small in Hk, Hz by lia.
    rewrite Hk. simpl. destruct (Z.ltb_spec it (capacity t)); [|lia].
    rewrite Hz. simpl. rewrite Hm.
    rewrite modulo_pos by lia. simpl. rewrite !wrap_small by lia.
    replace (j + Z.of_nat (S m)) with (j + (Z.of_nat m + 1)) in * by lia.
    rewrite <- next_index in * by lia.
    rewrite IH; [do 2 f_equal; lia | apply Z.mod_pos_bound; lia | lia | lia
                | lia | | done].
    intros k Hkr. rewrite next_index by lia. apply Hrej. lia.
Qed.

(** ** Remove, then look up *)

Lemma find_slot_start (t : hash_table) (key : list byte) (key_size : Z)
    (r : scan * Z) :
  0 < capacity t ->
  find_slot t key key_size = Ret r ->
  exists h,
    hash_table_fnv_1a key key_size = Ret h /\
    probe (probe_fuel t) t key key_size (h mod capacity t) 0 = Ret r.
Proof.
  intros Hcap H. unfold find_slot in H. inv_run H. inv_run H.
  rewrite modulo_pos in E0 by done. injection E0 as <-. by exists a.
Qed.

(** X9: right after a remove, whether or not it found the key, get on that
    key returns the absent indicator and contains returns 0. *)
Theorem get_after_remove (t t' : hash_table) (key : list byte) (key_size : Z)
    (w w' : world) :
  0 < capacity t <= C.size_max ->
  hash_table_remove (Some t) (Some key) key_size w = Ret (Some t', w') ->
  hash_table_get (Some t') (Some key) key_size = Ret NULL /\
  hash_table_contains (Some t') (Some key) key_size = Ret 0.
Proof.
  intros Hcap H.
  assert (hash_table_get (Some t') (Some key) key_size = Ret NULL) as Hget.
  2: { split; [done|]. unfold hash_table_contains. by rewrite Hget. }
  unfold hash_table_remove in H. inv_run H.
  destruct a as [[i|i] n]; cbn [fst] in H.
  2: { apply ret_Ret in H as [[= ->] _]. unfold hash_table_get. by rewrite E. }
  do 7 inv_run H. apply ret_Ret in H as [[= ->] _].
  set (t' := set_slot t a3 a4 a5 (C.wrap (size t - 1))).
  destruct (find_slot_start t key key_size _ ltac:(lia) E) as (h & Hh & Hp).
  assert (0 <= h mod capacity t < capacity t) as Hs
    by (apply Z.mod_pos_bound; lia).
  apply probe_hit_inv in Hp as (Hn & Hi & Hpath & _); [|done|done|lia].
  rewrite Z.sub_0_r in *.
  assert (find_slot t' key key_size = Ret (Stop i, n)) as Hfind.
  { unfold find_slot. rewrite Hh. cbn [rbind].
    change (capacity t') with (capacity t). rewrite modulo_pos by lia.
    cbn [rbind].
    pose proof (probe_stop_at_empty t' key key_size (Z.to_nat n)
                  (probe_fuel t') (h mod capacity t) 0) as Hstop.
    rewrite Z2Nat.id in Hstop by lia.
    change (capacity t') with (capacity t) in Hstop.
    rewrite <- Hi in Hstop. rewrite Hstop; try done; try lia.
    - unfold probe_fuel. change (capacity t') with (capacity t). lia.
    - intros k Hk. destruct (Hpath k Hk) as (stored & sz & Hks & Hkz & Hm).
      assert (Z.to_nat ((h mod capacity t + k) mod capacity t) <> Z.to_nat i)
        as Hne.
      { assert ((h mod capacity t + k) mod capacity t <> i) as Hne0
          by (rewrite Hi; apply indices_differ; lia).
        pose proof (Z.mod_pos_bound (h mod capacity t + k) (capacity t)
                      ltac:(lia)).
        pose proof (Z.mod_pos_bound (h mod capacity t + n) (capacity t)
                      ltac:(lia)).
        lia. }
      exists stored, sz. cbn.
      rewrite (load_store_other _ _ _ i _ E4 Hne).
      rewrite (load_store_other _ _ _ i _ E5 Hne). done.
    - cbn. by apply load_store_same in E4. }
  unfold hash_table_get. by rewrite Hfind.
Qed.

(** ** What a remove releases *)

Lemma store_defined {A} (arr : option (list A)) (i : Z) (x y : A) :
  load arr i = Ret x -> exists arr', store arr i y = Ret arr'.
Proof.
  intros (l & -> & Hl)%load_inv. apply lookup_lt_Some in Hl.
  unfold store. destruct (Nat.ltb_spec (Z.to_nat i) (length l)); [|lia].
  by eexists.
Qed.

(** X10: removing a key that get finds releases the stored key buffer and
    then the value get returned, each once, through the destructor when
    the table has one and [free] otherwise; it empties that slot, takes
    one off [size], and leaves [capacity] and every other slot as they
    were. *)
Theorem remove_releases_entry (t : hash_table) (key : list byte)
    (key_size v : Z) (w : world) :
  hash_table_get (Some t) (Some key) key_size = Ret v -> v <> NULL ->
  exists i stored t',
    load (keys t) i = Ret (Some stored) /\
    take (Z.to_nat key_size) stored = take (Z.to_nat key_size) key /\
    hash_table_remove (Some t) (Some key) key_size w
    = Ret (Some t',
           World (allocs w)
             (trace w ++ [FreeKey stored;
                          release_event (_value_destructor t) v])) /\
    size t' = C.wrap (size t - 1) /\
    capacity t' = capacity t /\
    load (keys t') i = Ret None /\
    load (key_sizes t') i = Ret 0 /\
    load (values t') i = Ret NULL /\
    forall j, Z.to_nat j <> Z.to_nat i ->
              load (keys t') j = load (keys t) j /\
              load (key_sizes t') j = load (key_sizes t) j /\
              load (values t') j = load (values t) j.
Proof.
  intros Hget Hv. unfold hash_table_get in Hget. inv_run Hget.
  destruct a as [[i|i] n]; cbn [fst] in Hget; [|by injection Hget as <-].
  destruct (find_slot_hit _ _ _ _ _ E) as (stored & Hk & Hz & Heq).
  destruct (store_defined _ i _ None Hk) as [ks' Hks].
  destruct (store_defined _ i _ 0 Hz) as [kz' Hkz].
  destruct (store_defined _ i _ NULL Hget) as [vs' Hvs].
  exists i, stored, (set_slot t ks' kz' vs' (C.wrap (size t - 1))).
  split; [done|]. split; [done|]. split.
  { unfold hash_table_remove, bind, lift. rewrite E. cbn [fst].
    rewrite Hk. cbn [free_key emit]. rewrite Hget.
    unfold release_value, release_event, emit.
    destruct (_value_destructor t); cbn [allocs trace];
      rewrite Hks, Hkz, Hvs; unfold ret; by rewrite <- app_assoc. }
  split; [done|]. split; [done|].
  split; [by apply load_store_same in Hks|].
  split; [by apply load_store_same in Hkz|].
  split; [by apply load_store_same in Hvs|].
  intros j Hj. cbn.
  rewrite (load_store_other _ _ j i _ Hks Hj).
  rewrite (load_store_other _ _ j i _ Hkz Hj).
  rewrite (load_store_other _ _ j i _ Hvs Hj). done.
Qed.

(** ** Clearing *)

Lemma clear_slot_empty (t : hash_table) (i : Z) (w : world) :
  load (keys t) i = Ret None -> clear_slot i t w = Ret (t, w).
Proof. intros H. unfold clear_slot, bind, lift. by rewrite H. Qed.

Lemma clear_loop_spec (n : nat) :
  forall (i : nat) (t : hash_table) (w : world)
         (cks : list (option (list byte))) (cvs : list Z),
    keys t = Some cks -> values t = Some cvs ->
    length cks = length cvs ->
    (i + n)%nat = length cks ->
    Z.of_nat (length cks) <= C.size_max ->
    clear_loop n (Z.of_nat i) t w
    = Ret (set_slot t (Some (take i cks ++ replicate n None)) (key_sizes t)
             (Some (take i cvs ++ cleared_values (drop i cks) (drop i cvs)))
             (size t),
           World (allocs w)
             (trace w ++ clear_events (_value_destructor t)
                           (drop i cks) (drop i cvs))).
Proof.
  induction n as [|n IH]; intros i t w cks cvs Hk Hv Hlen Hin Hmax.
  - simpl. rewrite !drop_ge by lia. simpl.
    rewrite !app_nil_r, !take_ge by lia. unfold ret.
    destruct t, w; simpl in *; by subst.
  - destruct (lookup_lt_is_Some_2 cks i) as [k Hki]; [lia|].
    destruct (lookup_lt_is_Some_2 cvs i) as [v Hvi]; [lia|].
    rewrite (drop_S cks k i Hki), (drop_S cvs v i Hvi).
    assert (C.wrap (Z.of_nat i + 1) = Z.of_nat (S i)) as Hw
      by (rewrite wrap_small; lia).
    simpl clear_loop. unfold bind at 1.
    destruct k as [kb|].
    + assert (clear_slot (Z.of_nat i) t w
              = Ret (set_slot t (Some (<[i := None]> cks)) (key_sizes t)
                       (Some (<[i := NULL]> cvs)) (size t),
                     World (allocs w)
                       (trace w ++ [FreeKey kb;
                                    release_event (_value_destructor t) v])))
        as ->.
      { unfold clear_slot, bind, lift, load, store. rewrite Hk, Hv.
        rewrite Nat2Z.id, Hki, Hvi. cbn [emit].
        unfold release_value, release_event, emit, ret.
        destruct (Nat.ltb_spec i (length cks)); [|lia].
        destruct (Nat.ltb_spec i (length cvs)); [|lia].
        destruct (_value_destructor t); cbn [allocs trace];
          by rewrite <- app_assoc. }
      rewrite Hw.
      rewrite (IH (S i) _ _ (<[i := None]> cks) (<[i := NULL]> cvs));
        try done; rewrite ?length_insert; try lia.
      cbn [set_slot capacity keys key_sizes values size _resize_threshold
             _resize_factor _value_destructor allocs trace].
      rewrite !drop_insert_lt by lia.
      rewrite (take_S_r _ i None), (take_S_r _ i NULL);
        [|apply list_lookup_insert_eq; lia..].
      rewrite !take_insert_ge by lia.
      cbn [clear_events cleared_values replicate].
      rewrite <- !app_assoc. cbn [app]. done.
    + rewrite clear_slot_empty by (unfold load; by rewrite Hk, Nat2Z.id, Hki).
      rewrite Hw. rewrite (IH (S i) _ _ cks cvs); try done; try lia.
      rewrite (take_S_r _ i None), (take_S_r _ i v) by done.
      cbn [clear_events cleared_values replicate].
      rewrite <- !app_assoc. cbn [app]. done.
Qed.

Lemma clear_events_length (d : option nat) (ks : list (option (list byte)))
    (vs : list Z) :
  length ks = length vs ->
  Z.of_nat (length (clear_events d ks vs)) = 2 * occupied_slots ks.
Proof.
  unfold occupied_slots. revert vs.
  induction ks as [|k ks IH]; intros [|v vs] Hlen; try done.
  injection Hlen as Hlen. specialize (IH vs Hlen).
  destruct k as [kb|]; cbn in *; lia.
Qed.

Lemma occupied_replicate_None (m : nat) :
  occupied_slots (replicate m None) = 0.
Proof.
  unfold occupied_slots. induction m as [|m IH]; [done|]. exact IH.
Qed.

Lemma find_slot_all_empty (t : hash_table) (key : list byte) (key_size : Z) :
  keys t = Some (replicate (Z.to_nat (capacity t)) None) ->
  0 < capacity t -> key_size <= Z.of_nat (length key) ->
  exists j, find_slot t key key_size = Ret (Stop j, 0).
Proof.
  intros Hk Hcap Hkey. unfold find_slot.
  destruct (fnv_defined key key_size Hkey) as [h ->]. cbn [rbind].
  rewrite modulo_pos by lia. cbn [rbind]. unfold probe_fuel. cbn [probe].
  rewrite Hk, load_replicate by (apply Z.mod_pos_bound; lia).
  cbn [rbind]. by eexists.
Qed.

(** X11: clearing a well-shaped table returns; it releases, slot by slot,
    the key buffer and then the value of every occupied slot, each once
    (two releases per occupied slot, none for an empty one); afterwards
    every slot is empty, [size] is 0, [capacity] and the key-size array
    are what they were, and get returns the absent indicator for every
    key.  hash_table_destroy releases exactly the same. *)
Theorem clear_releases_every_entry (t : hash_table)
    (ks : list (option (list byte))) (vs : list Z) (w : world)
    (key : list byte) (key_size : Z) :
  shaped t = true -> keys t = Some ks -> values t = Some vs ->
  exists t',
    hash_table_clear (Some t) w
    = Ret (Some t',
           World (allocs w)
             (trace w ++ clear_events (_value_destructor t) ks vs)) /\
    hash_table_destroy (Some t) w
    = Ret (tt,
           World (allocs w)
             (trace w ++ clear_events (_value_destructor t) ks vs)) /\
    Z.of_nat (length (clear_events (_value_destructor t) ks vs))
    = 2 * occupied t /\
    keys t' = Some (replicate (Z.to_nat (capacity t)) None) /\
    values t' = Some (cleared_values ks vs) /\
    key_sizes t' = key_sizes t /\
    size t' = 0 /\ capacity t' = capacity t /\ occupied t' = 0 /\
    (0 < capacity t -> key_size <= Z.of_nat (length key) ->
     hash_table_get (Some t') (Some key) key_size = Ret NULL).
Proof.
  intros Hs Hk Hv.
  destruct (shaped_inv t Hs)
    as (Hcap & (ks0 & Hks & Hlk) & _ & (vs0 & Hvs & Hlv)).
  rewrite Hk in Hks. injection Hks as <-.
  rewrite Hv in Hvs. injection Hvs as <-.
  assert (length ks = length vs) as Hlen by lia.
  pose proof (clear_loop_spec (Z.to_nat (capacity t)) 0 t w ks vs Hk Hv Hlen
                ltac:(lia) ltac:(lia)) as Hloop.
  change (Z.of_nat 0) with 0 in Hloop.
  rewrite !drop_0, !take_0 in Hloop. cbn [app] in Hloop.
  eexists. split; [|split].
  - unfold hash_table_clear, bind. rewrite Hloop. reflexivity.
  - unfold hash_table_destroy, hash_table_clear, bind. rewrite Hloop.
    reflexivity.
  - split.
    { unfold occupied. rewrite Hk. by apply clear_events_length. }
    split; [done|]. split; [done|]. split; [done|]. split; [done|].
    split; [done|]. split.
    { unfold occupied. cbn. apply occupied_replicate_None. }
    intros Hpos Hkey.
    destruct (find_slot_all_empty
                (set_size (set_slot t (Some (replicate (Z.to_nat (capacity t))
                                               None))
                             (key_sizes t) (Some (cleared_values ks vs))
                             (size t)) 0) key key_size)
      as [j Hfind]; [done | done | done |].
    unfold hash_table_get. by rewrite Hfind.
Qed.

(** ** Counting occupied slots *)

Lemma occupied_slots_app (l1 l2 : list (option (list byte))) :
  occupied_slots (l1 ++ l2) = occupied_slots l1 + occupied_slots l2.
Proof. unfold occupied_slots. rewrite omap_app, length_app. lia. Qed.

Lemma occupied_slots_cons (k : option (list byte))
    (l : list (option (list byte))) :
  occupied_slots (k :: l)
  = match k with Some _ => 1 | None => 0 end + occupied_slots l.
Proof. unfold occupied_slots. destruct k; cbn; lia. Qed.

Lemma occupied_slots_bounds (l : list (option (list byte))) :
  0 <= occupied_slots l <= Z.of_nat (length l).
Proof.
  split; [unfold occupied_slots; lia|].
  induction l as [|k l IH]; [done|].
  rewrite occupied_slots_cons. destruct k; simpl length; lia.
Qed.

Lemma occupied_slots_insert (l : list (option (list byte))) (i : nat)
    (old new : option (list byte)) :
  l !! i = Some old ->
  occupied_slots (<[i := new]> l)
  = occupied_slots l - match old with Some _ => 1 | None => 0 end
    + match new with Some _ => 1 | None => 0 end.
Proof.
  intros Hi. pose proof (lookup_lt_Some _ _ _ Hi) as Hlt.
  assert (occupied_slots l
          = occupied_slots (take i l)
            + (match old with Some _ => 1 | None => 0 end
               + occupied_slots (drop (S i) l))) as Hl.
  { rewrite <- (take_drop_middle l i old Hi) at 1.
    by rewrite occupied_slots_app, occupied_slots_cons. }
  rewrite insert_take_drop by done.
  rewrite occupied_slots_app, occupied_slots_cons, Hl. lia.
Qed.

Lemma occupied_slots_take_S (l : list (option (list byte))) (i : nat)
    (k : option (list byte)) :
  l !! i = Some k ->
  occupied_slots (take (S i) l)
  = occupied_slots (take i l) + match k with Some _ => 1 | None => 0 end.
Proof.
  intros Hi. rewrite (take_S_r _ _ _ Hi), occupied_slots_app.
  rewrite occupied_slots_cons. change (occupied_slots []) with 0. lia.
Qed.

(** A list with fewer occupied slots than slots has an empty one. *)
Lemma exists_empty_slot (l : list (option (list byte))) :
  occupied_slots l < Z.of_nat (length l) -> exists e, l !! e = Some None.
Proof.
  induction l as [|[kb|] l IH]; rewrite ?occupied_slots_cons;
    simpl length; intros H.
  - unfold occupied_slots in H. simpl in H. lia.
  - destruct IH as [e He]; [lia|]. by exists (S e).
  - by exists 0%nat.
Qed.

(** Every slot lies on the path of [capacity] steps from any start. *)
Lemma path_covers (cap s e : Z) :
  0 < cap -> 0 <= s < cap -> 0 <= e < cap ->
  exists k, 0 <= k < cap /\ e = (s + k) mod cap.
Proof.
  intros Hcap Hs He. exists ((e - s) mod cap).
  split; [apply Z.mod_pos_bound; lia|].
  rewrite Zplus_mod_idemp_r. replace (s + (e - s)) with e by lia.
  by rewrite Z.mod_small.
Qed.

(** ** The scan of the rehash *)

Lemma rehash_probe_path (t : hash_table) (fuel : nat) (j it p n : Z) :
  0 < capacity t <= C.size_max -> 0 <= j < capacity t -> 0 <= it ->
  rehash_probe fuel t j it = Ret (p, n) ->
  it <= n <= Z.max it (capacity t) /\
  p = (j + (n - it)) mod capacity t /\
  (forall k, 0 <= k < n - it ->
     exists stored,
       load (keys t) ((j + k) mod capacity t) = Ret (Some stored)) /\
  (load (keys t) p = Ret None \/ capacity t <= n).
Proof.
  intros Hcap. revert j it.
  induction fuel as [|fuel IH]; intros j it Hj Hit; [done|].
  simpl. destruct (load (keys t) j) as [[stored|]| |] eqn:Hk; simpl;
    try done.
  2: { intros [= <- <-]. split; [lia|]. split.
       - rewrite Z.sub_diag, Z.add_0_r, Z.mod_small; lia.
       - split; [intros; lia | by left]. }
  destruct (Z.ltb_spec it (capacity t)).
  2: { intros [= <- <-]. split; [lia|]. split.
       - rewrite Z.sub_diag, Z.add_0_r, Z.mod_small; lia.
       - split; [intros; lia | right; lia]. }
  rewrite modulo_pos by lia. simpl. rewrite !wrap_small by lia.
  intros Hrec. apply IH in Hrec as (Hle & Hp & Hpath & Hend);
    [|apply Z.mod_pos_bound; lia | lia].
  split; [lia|]. split; [|split; [|done]].
  - rewrite Hp, next_index by lia. f_equal. lia.
  - intros k Hkr. destruct (Z.eq_dec k 0) as [->|Hk0].
    + rewrite Z.add_0_r, Z.mod_small by lia. by exists stored.
    + replace (j + k) with (j + ((k - 1) + 1)) by lia.
      rewrite <- next_index by lia. apply Hpath. lia.
Qed.

Lemma rehash_probe_defined (t : hash_table) (fuel : nat) (j it : Z) :
  shaped t = true -> 0 <= j < capacity t -> 0 <= it ->
  (Z.to_nat (capacity t - it) < fuel)%nat ->
  exists r, rehash_probe fuel t j it = Ret r.
Proof.
  intros Hs. destruct (shaped_inv t Hs) as (Hcap & (ks & Hks & Hlk) & _).
  revert j it.
  induction fuel as [|fuel IH]; intros j it Hj Hit Hfuel; [lia|].
  simpl. rewrite Hks.
  destruct (load_in_range ks j) as [k Hk]; [lia|]. rewrite Hk. simpl.
  destruct k as [stored|]; [|by eexists].
  destruct (Z.ltb_spec it (capacity t)); [|by eexists].
  rewrite modulo_pos by lia. simpl. rewrite !wrap_small by lia.
  apply IH; [apply Z.mod_pos_bound; lia | lia | lia].
Qed.

(** In a table that has an empty slot the scan of the rehash ends on an
    empty slot, before [capacity] iterations. *)
Lemma rehash_probe_finds_empty (t : hash_table) (ks : list (option (list byte)))
    (s : Z) :
  shaped t = true -> keys t = Some ks -> 0 < capacity t ->
  occupied_slots ks < capacity t -> 0 <= s < capacity t ->
  exists p d,
    rehash_probe (probe_fuel t) t s 0 = Ret (p, d) /\
    0 <= d < capacity t /\ p = (s + d) mod capacity t /\
    0 <= p < capacity t /\
    load (keys t) p = Ret None /\
    forall k, 0 <= k < d ->
      exists stored,
        load (keys t) ((s + k) mod capacity t) = Ret (Some stored).
Proof.
  intros Hs Hk Hpos Hocc Hstart.
  destruct (shaped_inv t Hs) as (Hcap & (ks0 & Hks & Hlk) & _).
  rewrite Hk in Hks. injection Hks as <-.
  destruct (rehash_probe_defined t (probe_fuel t) s 0 Hs Hstart)
    as [[p d] Hr]; [lia | unfold probe_fuel; lia |].
  pose proof Hr as Hpath.
  apply rehash_probe_path in Hpath as (Hd & Hp & Hocc' & Hend);
    [|lia | done | lia].
  rewrite Z.sub_0_r in *.
  assert (d < capacity t) as Hlt.
  { destruct (Z.lt_ge_cases d (capacity t)) as [|Hge]; [done|].
    exfalso. destruct (exists_empty_slot ks) as [e He]; [lia|].
    pose proof (lookup_lt_Some _ _ _ He) as Hel.
    destruct (path_covers (capacity t) s (Z.of_nat e)) as (k & Hkr & Hek);
      [lia | done | lia |].
    destruct (Hocc' k) as [stored Hst]; [lia|].
    rewrite <- Hek in Hst. unfold load in Hst.
    rewrite Hk, Nat2Z.id, He in Hst. done. }
  exists p, d. split; [done|]. split; [lia|]. split; [done|].
  split; [rewrite Hp; apply Z.mod_pos_bound; lia|].
  split; [destruct Hend; [done | lia]|]. done.
Qed.

(** ** Well-formed tables *)

Lemma sizes_match_lookup (ks : list (option (list byte))) (kz : list Z)
    (j : nat) (kb : list byte) (z : Z) :
  sizes_match ks kz = true ->
  ks !! j = Some (Some kb) -> kz !! j = Some z -> Z.of_nat (length kb) = z.
Proof.
  revert kz j. induction ks as [|k ks IH]; intros [|z' kz] j; try done.
  simpl sizes_match. rewrite andb_true_iff. intros [H1 H2].
  destruct j as [|j]; simpl.
  - intros [= ->] [= ->]. lia.
  - by apply IH.
Qed.

Lemma sizes_match_intro (ks : list (option (list byte))) (kz : list Z) :
  (forall j kb z, ks !! j = Some (Some kb) -> kz !! j = Some z ->
                  Z.of_nat (length kb) = z) ->
  sizes_match ks kz = true.
Proof.
  revert kz. induction ks as [|k ks IH]; intros [|z kz] H; try done.
  simpl. rewrite andb_true_iff. split.
  - destruct k as [kb|]; [|done]. specialize (H 0%nat kb z eq_refl eq_refl).
    lia.
  - apply IH. intros j kb z' Hk Hz. by apply (H (S j)).
Qed.

Lemma shaped_intro (t : hash_table) (ks : list (option (list byte)))
    (kz vs : list Z) :
  0 <= capacity t <= C.size_max ->
  keys t = Some ks -> key_sizes t = Some kz -> values t = Some vs ->
  Z.of_nat (length ks) = capacity t -> Z.of_nat (length kz) = capacity t ->
  Z.of_nat (length vs) = capacity t ->
  shaped t = true.
Proof.
  intros Hcap Hk Hz Hv Hlk Hlz Hlv. unfold shaped, array_ok.
  rewrite Hk, Hz, Hv. rewrite !andb_true_iff. repeat split; lia.
Qed.

Lemma well_formed_inv (t : hash_table) :
  well_formed t = true ->
  shaped t = true /\
  exists ks kz, keys t = Some ks /\ key_sizes t = Some kz /\
                sizes_match ks kz = true.
Proof.
  unfold well_formed. rewrite andb_true_iff. intros [Hs H]. split; [done|].
  destruct (keys t) as [ks|], (key_sizes t) as [kz|]; try done.
  by exists ks, kz.
Qed.

Lemma load_same_cell {A} (arr : option (list A)) (a b : Z) :
  Z.to_nat a = Z.to_nat b -> load arr a = load arr b.
Proof. intros H. unfold load. by rewrite H. Qed.

Lemma load_list {A} (l : list A) (i : nat) (x : A) :
  l !! i = Some x -> load (Some l) (Z.of_nat i) = Ret x.
Proof. intros H. unfold load. by rewrite Nat2Z.id, H. Qed.

(** ** The rehash keeps every entry *)

Section Rehash.

Variables (oks : list (option (list byte))) (okz ovs : list Z).
Variable n : Z.
Hypothesis Hlz : length okz = length oks.
Hypothesis Hlv : length ovs = length oks.
Hypothesis Hsized : sizes_match oks okz = true.
Hypothesis Hn : Z.of_nat (length oks) < n <= C.size_max.

Lemma rehash_inv_start (T : hash_table) :
  shaped T = true -> capacity T = n -> size T = 0 ->
  keys T = Some (replicate (Z.to_nat n) None) ->
  rehash_inv oks okz ovs n 0 T.
Proof.
  intros Hs Hc Hsz Hk. unfold rehash_inv, occupied. rewrite Hk.
  rewrite occupied_replicate_None. repeat split; try done.
  - intros p kb sz v (Hkp & _). exfalso.
    apply load_inv in Hkp as (l & Hl & Hp). rewrite Hk in Hl.
    injection Hl as <-. apply lookup_replicate in Hp as [? _]. done.
  - intros j kb sz v Hj. lia.
Qed.

Lemma rehash_slot_step (i : nat) (T : hash_table) :
  rehash_inv oks okz ovs n i T -> (i < length oks)%nat ->
  exists T',
    rehash_slot (Some oks) (Some okz) (Some ovs) (Z.of_nat i) T = Ret T' /\
    rehash_inv oks okz ovs n (S i) T'.
Proof.
  intros (Hs & Hc & Hcount & Hsize & Hsound & Hchain) Hi.
  destruct (lookup_lt_is_Some_2 oks i Hi) as [k Hk].
  destruct (lookup_lt_is_Some_2 okz i ltac:(lia)) as [sz Hz].
  destruct (lookup_lt_is_Some_2 ovs i ltac:(lia)) as [v Hv].
  unfold rehash_slot. rewrite (load_list _ _ _ Hk). cbn [rbind].
  destruct k as [kb|].
  2: { exists T. split; [done|]. unfold rehash_inv.
       rewrite (occupied_slots_take_S _ _ _ Hk), Z.add_0_r.
       repeat split; try done.
       - intros p kb sz' v' Hh.
         destruct (Hsound _ _ _ _ Hh) as (j & Hj & ?). exists j.
         split; [lia | done].
       - intros j kb sz' v' Hj Hkj Hzj Hvj.
         apply (Hchain j); try done.
         destruct (decide (j = i)) as [->|]; [congruence | lia]. }
  pose proof (sizes_match_lookup _ _ _ _ _ Hsized Hk Hz) as Hlen.
  rewrite (load_list _ _ _ Hz). cbn [rbind].
  destruct (fnv_defined kb sz ltac:(lia)) as [h Hh]. rewrite Hh.
  cbn [rbind]. rewrite Hc, modulo_pos by lia. cbn [rbind].
  destruct (shaped_inv T Hs)
    as (Hcap & (nks & Hnks & Hlnk) & (nkz & Hnkz & Hlnz) & (nvs & Hnvs & Hlnv)).
  rewrite Hc in *.
  assert (occupied_slots nks < n) as Hfree.
  { unfold occupied in Hcount. rewrite Hnks in Hcount. rewrite Hcount.
    pose proof (occupied_slots_bounds (take i oks)).
    rewrite length_take in H. lia. }
  destruct (rehash_probe_finds_empty T nks (h mod n) Hs Hnks)
    as (p & d & Hprobe & Hd & Hp & Hpr & Hemp & Hrun);
    [lia | lia | rewrite Hc; apply Z.mod_pos_bound; lia |].
  rewrite Hc in *. rewrite Hprobe. cbn [rbind fst].
  rewrite Hnks, Hnkz, Hnvs, !store_in_range by lia. cbn [rbind].
  rewrite (load_list _ _ _ Hv). cbn [rbind].
  rewrite store_in_range by lia. cbn [rbind].
  eexists. split; [reflexivity|].
  set (T' := set_slot T _ _ _ _).
  assert (nks !! Z.to_nat p = Some None) as Hpe.
  { unfold load in Hemp. rewrite Hnks in Hemp.
    destruct (nks !! Z.to_nat p) as [[x|]|]; done. }
  assert (forall q, Z.to_nat q <> Z.to_nat p ->
            load (keys T') q = load (keys T) q /\
            load (key_sizes T') q = load (key_sizes T) q /\
            load (values T') q = load (values T) q) as Hother.
  { intros q Hq. cbn. rewrite Hnks, Hnkz, Hnvs. unfold load.
    by rewrite !list_lookup_insert_ne. }
  assert (slot_holds T' p kb sz v) as Hnew.
  { unfold slot_holds. cbn. unfold load.
    rewrite !list_lookup_insert_eq by lia. done. }
  assert (forall q stored, load (keys T) q = Ret (Some stored) ->
            Z.to_nat q <> Z.to_nat p) as Hocc.
  { intros q stored Hq Heq. rewrite (load_same_cell _ _ _ Heq) in Hq.
    congruence. }
  unfold rehash_inv. split; [|split; [|split; [|split; [|split]]]].
  - apply (shaped_intro T' (<[Z.to_nat p := Some kb]> nks)
             (<[Z.to_nat p := sz]> nkz) (<[Z.to_nat p := v]> nvs));
      try done; cbn; rewrite ?length_insert, ?Hc; lia.
  - cbn. done.
  - unfold occupied. cbn.
    rewrite (occupied_slots_insert _ _ None _ Hpe).
    rewrite (occupied_slots_take_S _ _ _ Hk).
    unfold occupied in Hcount. rewrite Hnks in Hcount. lia.
  - unfold occupied. cbn.
    rewrite (occupied_slots_insert _ _ None _ Hpe).
    unfold occupied in Hsize. rewrite Hnks in Hsize. rewrite Hsize.
    pose proof (occupied_slots_bounds nks). rewrite wrap_small; lia.
  - intros q kb' sz' v' Hq.
    destruct (decide (Z.to_nat q = Z.to_nat p)) as [Heq|Hne].
    + exists i. split; [lia|]. destruct Hq as (H1 & H2 & H3).
      destruct Hnew as (N1 & N2 & N3).
      rewrite (load_same_cell _ _ _ Heq) in H1.
      rewrite (load_same_cell _ _ _ Heq) in H2.
      rewrite (load_same_cell _ _ _ Heq) in H3.
      rewrite N1 in H1. rewrite N2 in H2. rewrite N3 in H3.
      injection H1 as <-. injection H2 as <-. injection H3 as <-. done.
    + destruct (Hother q Hne) as (O1 & O2 & O3).
      destruct Hq as (H1 & H2 & H3). rewrite O1 in H1. rewrite O2 in H2.
      rewrite O3 in H3.
      destruct (Hsound q kb' sz' v' (conj H1 (conj H2 H3))) as (j & Hj & ?).
      exists j. split; [lia | done].
  - intros j kb' sz' v' Hj Hkj Hzj Hvj.
    assert (forall q kb0 sz0 v0, slot_holds T q kb0 sz0 v0 ->
              slot_holds T' q kb0 sz0 v0) as Hkeep.
    { intros q kb0 sz0 v0 (H1 & H2 & H3).
      destruct (Hother q (Hocc _ _ H1)) as (O1 & O2 & O3).
      unfold slot_holds. by rewrite O1, O2, O3. }
    assert (forall q stored, load (keys T) q = Ret (Some stored) ->
              load (keys T') q = Ret (Some stored)) as Hkeepk.
    { intros q stored Hq. destruct (Hother q (Hocc _ _ Hq)) as (O1 & _).
      by rewrite O1. }
    destruct (decide (j = i)) as [->|Hne].
    + rewrite Hk in Hkj. injection Hkj as <-.
      rewrite Hz in Hzj. injection Hzj as <-.
      rewrite Hv in Hvj. injection Hvj as <-.
      exists h, d. split; [done|]. split; [done|]. rewrite <- Hp.
      split; [done|]. intros k0 Hk0.
      destruct (Hrun k0 Hk0) as [stored Hst]. exists stored.
      by apply Hkeepk.
    + destruct (Hchain j kb' sz' v' ltac:(lia) Hkj Hzj Hvj)
        as (h' & d' & Hh' & Hd' & Hhold & Hrun').
      exists h', d'. split; [done|]. split; [done|].
      split; [by apply Hkeep|]. intros k0 Hk0.
      destruct (Hrun' k0 Hk0) as [stored Hst]. exists stored.
      by apply Hkeepk.
Qed.

Lemma rehash_steps (m : nat) :
  forall (i : nat) (T : hash_table),
    rehash_inv oks okz ovs n i T -> (i + m = length oks)%nat ->
    exists T',
      rehash m (Some oks) (Some okz) (Some ovs) (Z.of_nat i) T = Ret T' /\
      rehash_inv oks okz ovs n (length oks) T'.
Proof.
  induction m as [|m IH]; intros i T Hinv Him.
  - exists T. split; [done|]. by replace (length oks) with i by lia.
  - destruct (rehash_slot_step i T Hinv ltac:(lia)) as (T1 & Hstep & Hinv1).
    destruct (IH (S i) T1 Hinv1 ltac:(lia)) as (T' & Hrest & Hinv').
    exists T'. split; [|done]. simpl. rewrite Hstep. cbn [rbind].
    rewrite wrap_small by lia.
    replace (Z.of_nat i + 1) with (Z.of_nat (S i)) by lia. done.
Qed.

End Rehash.

(** ** Looking up an entry at the end of a run of occupied slots *)

Lemma key_matches_self (kb : list byte) (sz : Z) :
  Z.of_nat (length kb) = sz -> key_matches kb sz kb sz = true.
Proof.
  intros H. unfold key_matches, memcmp_eq. rewrite Z.eqb_refl. simpl.
  by apply bytes_eqb_eq.
Qed.

Lemma key_matches_same_bytes (kb' : list byte) (sz' : Z) (kb : list byte)
    (sz : Z) :
  Z.of_nat (length kb') = sz' -> Z.of_nat (length kb) = sz ->
  key_matches kb' sz' kb sz = true -> kb' = kb.
Proof.
  intros H' H Hm. apply key_matches_inv in Hm as [<- Hm].
  rewrite !take_ge in Hm by lia. done.
Qed.

Lemma chain_probe (T : hash_table) (kb : list byte) (sz v s d : Z) (m : nat) :
  shaped T = true -> 0 < capacity T -> Z.of_nat (length kb) = sz ->
  0 <= s < capacity T -> 0 <= d < capacity T ->
  slot_holds T ((s + d) mod capacity T) kb sz v ->
  (forall k, 0 <= k < d ->
     exists stored,
       load (keys T) ((s + k) mod capacity T) = Ret (Some stored)) ->
  forall (o : Z) (fuel : nat),
    0 <= o -> o + Z.of_nat m = d -> (m < fuel)%nat ->
    exists i n',
      probe fuel T kb sz ((s + o) mod capacity T) o = Ret (Hit i, n') /\
      0 <= i < capacity T /\ slot_accepts T kb sz i.
Proof.
  intros Hs Hpos Hlen Hsr Hd Hhold Hrun.
  destruct (shaped_inv T Hs) as (Hcap & _ & (kz & Hkz & Hlz) & _).
  induction m as [|m IH]; intros o fuel Ho Hom Hfuel;
    (destruct fuel as [|fuel]; [lia|]); simpl probe;
    pose proof (Z.mod_pos_bound (s + o) (capacity T) ltac:(lia)) as Hc.
  - replace o with d in * by lia. destruct Hhold as (Hk & Hz & Hv).
    rewrite Hk. simpl. destruct (Z.ltb_spec d (capacity T)); [|lia].
    rewrite Hz. simpl. rewrite (key_matches_self kb sz Hlen).
    eexists _, _. split; [done|]. split; [done|]. exists kb, sz.
    split; [done|]. split; [done|]. by apply key_matches_self.
  - destruct (Hrun o ltac:(lia)) as [stored Hk]. rewrite Hk. simpl.
    destruct (Z.ltb_spec o (capacity T)); [|lia].
    rewrite Hkz. destruct (load_in_range kz ((s + o) mod capacity T))
      as [sz0 Hz]; [lia|].
    rewrite Hz. simpl.
    destruct (key_matches stored sz0 kb sz) eqn:Hm.
    + eexists _, _. split; [done|]. split; [done|]. exists stored, sz0.
      by rewrite Hkz.
    + rewrite modulo_pos by lia. simpl. rewrite !wrap_small by lia.
      rewrite Zplus_mod_idemp_l.
      replace (s + o + 1) with (s + (o + 1)) by lia.
      apply IH; lia.
Qed.

Lemma chain_get (T : hash_table) (kb : list byte) (sz v h d : Z) :
  shaped T = true -> 0 < capacity T -> Z.of_nat (length kb) = sz ->
  hash_table_fnv_1a kb sz = Ret h -> 0 <= d < capacity T ->
  slot_holds T ((h mod capacity T + d) mod capacity T) kb sz v ->
  (forall k, 0 <= k < d ->
     exists stored,
       load (keys T) ((h mod capacity T + k) mod capacity T)
       = Ret (Some stored)) ->
  (forall q kb' sz' v',
      slot_holds T q kb' sz' v' -> key_matches kb' sz' kb sz = true ->
      v' = v) ->
  hash_table_get (Some T) (Some kb) sz = Ret v.
Proof.
  intros Hs Hpos Hlen Hh Hd Hhold Hrun Huniq.
  destruct (shaped_inv T Hs) as (Hcap & _ & _ & (vs & Hvs & Hlv)).
  assert (0 <= h mod capacity T < capacity T) as Hsr
    by (apply Z.mod_pos_bound; lia).
  destruct (chain_probe T kb sz v (h mod capacity T) d (Z.to_nat d)
              Hs Hpos Hlen Hsr Hd Hhold Hrun 0 (probe_fuel T))
    as (i & n' & Hprobe & Hi & stored & sz0 & Hk & Hz & Hm);
    [lia | lia | unfold probe_fuel; lia |].
  rewrite Z.add_0_r, Z.mod_small in Hprobe by lia.
  unfold hash_table_get, find_slot. rewrite Hh. cbn [rbind].
  rewrite modulo_pos by lia. cbn [rbind]. rewrite Hprobe. cbn [rbind fst].
  rewrite Hvs. destruct (load_in_range vs i) as [v0 Hv0]; [lia|].
  rewrite Hv0. f_equal. apply (Huniq i stored sz0 v0); [|done].
  unfold slot_holds. by rewrite Hvs.
Qed.

(** ** Distinct keys *)

Lemma distinct_keys_lookup (ks : list (option (list byte))) (i j : nat)
    (kb : list byte) :
  distinct_keys ks = true ->
  ks !! i = Some (Some kb) -> ks !! j = Some (Some kb) -> i = j.
Proof.
  assert (forall (l : list (option (list byte))) (e : nat) (x : list byte),
             l !! e = Some (Some x) ->
             existsb (fun k => match k with
                               | Some kb' => bytes_eqb x kb'
                               | None => false
                               end) l = true) as Hex.
  { induction l as [|k l IHl]; intros [|e] x; try done; simpl.
    - intros [= ->]. rewrite (proj2 (bytes_eqb_eq x x) eq_refl). done.
    - intros He. rewrite (IHl e x He). apply orb_true_r. }
  revert i j. induction ks as [|k ks IH]; intros i j Hd Hi Hj; [done|].
  assert (distinct_keys ks = true) as Hd'.
  { destruct k; simpl in Hd; [|done]. by apply andb_true_iff in Hd as [_ ?]. }
  destruct i as [|i], j as [|j]; simpl in Hi, Hj.
  - done.
  - injection Hi as ->. simpl in Hd. rewrite (Hex ks j kb Hj) in Hd. done.
  - injection Hj as ->. simpl in Hd. rewrite (Hex ks i kb Hi) in Hd. done.
  - f_equal. by apply IH.
Qed.

(** ** Growth keeps every entry *)

Lemma slot_holds_lookup (t : hash_table) (ks : list (option (list byte)))
    (kz vs : list Z) (j : Z) (kb : list byte) (sz v : Z) :
  keys t = Some ks -> key_sizes t = Some kz -> values t = Some vs ->
  slot_holds t j kb sz v <->
  ks !! Z.to_nat j = Some (Some kb) /\ kz !! Z.to_nat j = Some sz /\
  vs !! Z.to_nat j = Some v.
Proof.
  intros Hk Hz Hv. unfold slot_holds, load. rewrite Hk, Hz, Hv.
  destruct (ks !! Z.to_nat j), (kz !! Z.to_nat j), (vs !! Z.to_nat j);
    split; intros (H1 & H2 & H3); try done;
    repeat split; congruence.
Qed.

(** After the rehash of arrays in which no key is stored twice, get finds
    every entry of the old arrays. *)
Lemma rehash_inv_get (oks : list (option (list byte))) (okz ovs : list Z)
    (n : Z) (T : hash_table) (j : nat) (kb : list byte) (sz v : Z) :
  rehash_inv oks okz ovs n (length oks) T ->
  sizes_match oks okz = true -> distinct_keys oks = true ->
  oks !! j = Some (Some kb) -> okz !! j = Some sz -> ovs !! j = Some v ->
  hash_table_get (Some T) (Some kb) sz = Ret v.
Proof.
  intros (Hs & Hc & _ & _ & Hsound & Hchain) Hsz Hdist L1 L2 L3.
  destruct (Hchain j kb sz v) as (h & d & Hh & Hd & Hhold & Hrun);
    try done.
  { by apply lookup_lt_Some in L1. }
  pose proof (sizes_match_lookup _ _ _ _ _ Hsz L1 L2) as Hlen.
  rewrite <- Hc in *.
  apply (chain_get T kb sz v h d); try done; [lia|].
  intros q kb' sz' v' Hq Hm.
  destruct (Hsound q kb' sz' v' Hq) as (j' & _ & O1 & O2 & O3).
  pose proof (sizes_match_lookup _ _ _ _ _ Hsz O1 O2) as Hlen'.
  apply (key_matches_same_bytes kb' sz' kb sz Hlen' Hlen) in Hm as ->.
  pose proof (distinct_keys_lookup oks j' j kb Hdist O1 L1) as ->.
  congruence.
Qed.

(** A growth whose three allocations succeed: the table it leaves, seen
    through the invariant of the rehash. *)
Lemma resize_spec (t : hash_table) (oks : list (option (list byte)))
    (okz ovs : list Z) (n p1 p2 p3 : Z) (rest : list Z) (w : world) :
  well_formed t = true ->
  keys t = Some oks -> key_sizes t = Some okz -> values t = Some ovs ->
  capacity t < n <= C.size_max ->
  allocs w = p1 :: p2 :: p3 :: rest ->
  p1 <> NULL -> p2 <> NULL -> p3 <> NULL ->
  exists t',
    hash_table_resize t n w = Ret ((0, t'), World rest (trace w)) /\
    rehash_inv oks okz ovs n (length oks) t' /\
    same_config (HashTable n None None None 0 (_resize_threshold t)
                   (_resize_factor t) (_value_destructor t)) t'.
Proof.
  intros Hwf Hk Hz Hv Hn Ha H1%Z.eqb_neq H2%Z.eqb_neq H3%Z.eqb_neq.
  destruct (well_formed_inv t Hwf) as (Hs & ks0 & kz0 & Hk0 & Hz0 & Hsz).
  rewrite Hk in Hk0. injection Hk0 as <-.
  rewrite Hz in Hz0. injection Hz0 as <-.
  destruct (shaped_inv t Hs)
    as (Hcap & (ks1 & Hk1 & Hlk) & (kz1 & Hz1 & Hlz) & (vs1 & Hv1 & Hlv)).
  rewrite Hk in Hk1. injection Hk1 as <-.
  rewrite Hz in Hz1. injection Hz1 as <-.
  rewrite Hv in Hv1. injection Hv1 as <-.
  set (T0 := HashTable n (Some (replicate (Z.to_nat n) None))
               (Some (replicate (Z.to_nat n) 0))
               (Some (replicate (Z.to_nat n) NULL)) 0
               (_resize_threshold t) (_resize_factor t)
               (_value_destructor t)).
  assert (shaped T0 = true) as Hs0.
  { apply (shaped_intro T0 (replicate (Z.to_nat n) None)
             (replicate (Z.to_nat n) 0) (replicate (Z.to_nat n) NULL));
      try done; cbn; rewrite ?length_replicate; lia. }
  destruct (rehash_steps oks okz ovs n ltac:(lia) ltac:(lia) Hsz ltac:(lia)
              (length oks) 0 T0) as (t' & Hrun & Hinv); [|lia|].
  { apply rehash_inv_start; try done; lia. }
  exists t'. split; [|split; [done|]].
  - unfold hash_table_resize. destruct (Z.leb_spec n (capacity t)); [lia|].
    unfold calloc, bind, malloc, ret. rewrite Ha. cbn [allocs trace].
    rewrite H1, H2, H3, Hk, Hz, Hv.
    replace (Z.to_nat (capacity t)) with (length oks) by lia.
    change (Z.of_nat 0) with 0 in Hrun. fold T0. unfold lift.
    by rewrite Hrun.
  - apply rehash_config in Hrun. exact Hrun.
Qed.

(** X12: a growth whose allocations succeed, on a well-formed table,
    returns success and loses, adds and alters no entry: the new table has
    the requested capacity, is well formed, holds every entry of the old
    one and no other, and its [size] is the number of these entries.  When
    no key was stored twice, get finds every entry in the new table with
    its value, also an entry that a removal had made unreachable in the
    old one. *)
Theorem resize_keeps_every_entry (t : hash_table) (n p1 p2 p3 : Z)
    (rest : list Z) (w : world) :
  well_formed t = true -> capacity t < n <= C.size_max ->
  allocs w = p1 :: p2 :: p3 :: rest ->
  p1 <> NULL -> p2 <> NULL -> p3 <> NULL ->
  exists t',
    hash_table_resize t n w = Ret ((0, t'), World rest (trace w)) /\
    capacity t' = n /\ well_formed t' = true /\
    size t' = occupied t /\ occupied t' = occupied t /\
    (forall j kb sz v,
        slot_holds t j kb sz v -> exists p, slot_holds t' p kb sz v) /\
    (forall p kb sz v,
        slot_holds t' p kb sz v -> exists j, slot_holds t j kb sz v) /\
    (keys_distinct t = true ->
     forall j kb sz v,
       slot_holds t j kb sz v ->
       hash_table_get (Some t') (Some kb) sz = Ret v).
Proof.
  intros Hwf Hn Ha H1 H2 H3.
  destruct (well_formed_inv t Hwf) as (Hs & oks & okz & Hk & Hz & Hsz).
  destruct (shaped_inv t Hs)
    as (Hcap & (ks1 & Hk1 & Hlk) & (kz1 & Hz1 & Hlz) & (ovs & Hv & Hlv)).
  rewrite Hk in Hk1. injection Hk1 as <-.
  rewrite Hz in Hz1. injection Hz1 as <-.
  destruct (resize_spec t oks okz ovs n p1 p2 p3 rest w Hwf Hk Hz Hv Hn Ha
              H1 H2 H3)
    as (t' & Hrun & Hinv & _).
  pose proof Hinv as (Hs' & Hc' & Hcount & Hsize & Hsound & Hchain).
  rewrite take_ge in Hcount by lia.
  destruct (shaped_inv t' Hs')
    as (Hcap' & (nks & Hnk & Hlnk) & (nkz & Hnz & Hlnz) & (nvs & Hnv & Hlnv)).
  assert (forall j kb sz v,
             slot_holds t j kb sz v ->
             exists h d,
               hash_table_fnv_1a kb sz = Ret h /\ 0 <= d < n /\
               slot_holds t' ((h mod n + d) mod n) kb sz v /\
               forall k, 0 <= k < d ->
                 exists stored,
                   load (keys t') ((h mod n + k) mod n) = Ret (Some stored))
    as Hplace.
  { intros j kb sz v Hh.
    apply (slot_holds_lookup t oks okz ovs) in Hh as (L1 & L2 & L3);
      try done.
    apply (Hchain (Z.to_nat j)); try done.
    by apply lookup_lt_Some in L1. }
  exists t'. split; [done|]. split; [done|]. split.
  { unfold well_formed. rewrite Hs', Hnk, Hnz. simpl.
    apply sizes_match_intro. intros j kb z Hkj Hzj.
    destruct (lookup_lt_is_Some_2 nvs j) as [v Hvj].
    { apply lookup_lt_Some in Hkj. lia. }
    destruct (Hsound (Z.of_nat j) kb z v) as (j' & _ & O1 & O2 & _).
    { apply (slot_holds_lookup t' nks nkz nvs); try done.
      by rewrite Nat2Z.id. }
    by apply (sizes_match_lookup oks okz j'). }
  assert (occupied t = occupied_slots oks) as Hocc
    by (unfold occupied; by rewrite Hk).
  split; [congruence|]. split; [congruence|].
  split; [|split].
  - intros j kb sz v Hh.
    destruct (Hplace j kb sz v Hh) as (h & d & _ & _ & Hhold & _).
    by eexists.
  - intros p kb sz v Hh.
    destruct (Hsound p kb sz v Hh) as (j & _ & O1 & O2 & O3).
    exists (Z.of_nat j). apply (slot_holds_lookup t oks okz ovs); try done.
    by rewrite Nat2Z.id.
  - intros Hdist j kb sz v Hh.
    apply (slot_holds_lookup t oks okz ovs) in Hh as (L1 & L2 & L3);
      try done.
    unfold keys_distinct in Hdist. rewrite Hk in Hdist.
    by apply (rehash_inv_get oks okz ovs n t' (Z.to_nat j)).
Qed.

(** ** Insertion and the other entries *)

(** In a table with a free slot a scan that finds no match stops at a
    free slot. *)
Lemma find_slot_stop_empty (t : hash_table) (key : list byte)
    (key_size i n : Z) :
  shaped t = true -> occupied t < capacity t ->
  find_slot t key key_size = Ret (Stop i, n) ->
  load (keys t) i = Ret None.
Proof.
  intros Hs Hocc Hf.
  destruct (shaped_inv t Hs) as (Hcap & (ks & Hk & Hlk) & _).
  unfold occupied in Hocc. rewrite Hk in Hocc.
  pose proof (occupied_slots_bounds ks) as Hb.
  apply find_slot_start in Hf as (h & _ & Hp); [|lia].
  set (s := h mod capacity t) in *.
  assert (0 <= s < capacity t) as Hsr by (apply Z.mod_pos_bound; lia).
  destruct (probe_stop_reason _ _ _ _ _ _ _ _ Hp) as [|Hfull]; [done|].
  exfalso.
  apply probe_stop_path in Hp as (_ & _ & Hpath); [|lia|done|lia].
  destruct (exists_empty_slot ks) as [e He]; [lia|].
  pose proof (lookup_lt_Some _ _ _ He) as Hlt.
  destruct (path_covers (capacity t) s (Z.of_nat e)) as (k & Hkr & Hke);
    [lia..|].
  destruct (Hpath k) as (stored & sz & Hl & _); [lia|].
  rewrite <- Hke, Hk in Hl. unfold load in Hl.
  by rewrite Nat2Z.id, He in Hl.
Qed.

(** Two in-bounds key buffers that one stored key matches hold the same
    key. *)
Lemma key_matches_both (stored : list byte) (z : Z) (k k' : list byte)
    (sz sz' : Z) :
  key_matches stored z k sz = true -> key_matches stored z k' sz' = true ->
  sz <= Z.of_nat (length k) -> sz' <= Z.of_nat (length k') ->
  read_bytes k sz = read_bytes k' sz'.
Proof.
  intros [-> H1]%key_matches_inv [E H2]%key_matches_inv Hl Hl'. subst sz'.
  apply read_bytes_prefix; try done. congruence.
Qed.

Lemma find_slot_in_bounds (t : hash_table) (key : list byte) (key_size : Z)
    (r : scan * Z) :
  find_slot t key key_size = Ret r -> key_size <= Z.of_nat (length key).
Proof.
  unfold find_slot, hash_table_fnv_1a, read_bytes.
  destruct (Z.leb_spec key_size (Z.of_nat (length key))); done.
Qed.

(** The second step of an insertion leaves every other key that a scan
    finds where it is, with its value. *)
Lemma insert_slot_frame (g t' : hash_table) (key : list byte)
    (key_size value : Z) (w w' : world) (key' : list byte)
    (key_size' i' n' : Z) :
  shaped g = true -> occupied g < capacity g ->
  insert_slot g key key_size value w = Ret ((0, t'), w') ->
  read_bytes key key_size <> read_bytes key' key_size' ->
  find_slot g key' key_size' = Ret (Hit i', n') ->
  (exists n'', find_slot t' key' key_size' = Ret (Hit i', n'')) /\
  load (values t') i' = load (values g) i'.
Proof.
  intros Hs Hocc Hrun Hdiff Hf'.
  destruct (shaped_inv g Hs) as (Hcap & (ks & Hk & Hlk) & _).
  assert (0 < capacity g) as Hpos.
  { pose proof (occupied_slots_bounds ks). unfold occupied in Hocc.
    rewrite Hk in Hocc. lia. }
  pose proof (find_slot_in_bounds _ _ _ _ Hf') as Hb'.
  pose proof (find_slot_index g key' key_size' _ n' ltac:(lia) Hf') as Hi'.
  cbn [scan_index] in Hi'.
  pose proof Hf' as Hf0.
  apply find_slot_start in Hf' as (h' & Hh' & Hp'); [|done].
  set (s' := h' mod capacity g) in *.
  assert (0 <= s' < capacity g) as Hsr by (apply Z.mod_pos_bound; lia).
  apply probe_hit_inv in Hp' as (Hn' & Hie & Hpath & Hacc); [|lia|done|lia].
  rewrite Z.sub_0_r in *.
  apply insert_slot_inv in Hrun
    as [(i & n & old & vs & Hf & _ & Hst & _ & -> & _)
       |[(i & n & _ & [=] & _)
        |(i & n & b & nks & nkz & nvs & Hf & Hb & Hks & Hkz & Hvs & _ & ->
          & _)]].
  - pose proof (find_slot_in_bounds _ _ _ _ Hf) as Hbk.
    pose proof (find_slot_index g key key_size _ n ltac:(lia) Hf) as Hi.
    cbn [scan_index] in Hi.
    split.
    { exists n'. by rewrite (find_slot_ext (set_values g vs) g). }
    cbn [values set_values]. apply (load_store_other _ _ i' i _ Hst).
    intros Heq. assert (i' = i) as -> by lia.
    apply find_slot_start in Hf as (h & _ & Hp); [|done].
    apply probe_hit_inv in Hp as (_ & _ & _ & (st & z & A1 & A2 & A3));
      [|lia|apply Z.mod_pos_bound; lia|lia].
    destruct Hacc as (st' & z' & B1 & B2 & B3).
    rewrite A1 in B1. injection B1 as <-.
    rewrite A2 in B2. injection B2 as <-.
    by apply Hdiff, (key_matches_both st z).
  - set (t' := set_slot g nks nkz nvs (C.wrap (size g + 1))) in *.
    pose proof (find_slot_stop_empty g key key_size i n Hs Hocc Hf) as Hemp.
    pose proof (find_slot_index g key key_size _ n ltac:(lia) Hf) as Hi.
    cbn [scan_index] in Hi.
    assert (forall j, 0 <= j < capacity g ->
                      (exists st, load (keys g) j = Ret (Some st)) ->
                      Z.to_nat j <> Z.to_nat i) as Hne.
    { intros j Hj [st Hst] Heq. assert (j = i) as -> by lia. congruence. }
    assert (forall j, 0 <= j < capacity g ->
                      slot_rejects g key' key_size' j ->
                      slot_rejects t' key' key_size' j) as Hkeep.
    { intros j Hj (st & z & A1 & A2 & A3). exists st, z.
      assert (Z.to_nat j <> Z.to_nat i) as Hji by (apply Hne; eauto).
      split; [cbn; by rewrite (load_store_other _ _ j i _ Hks Hji)|].
      split; [cbn; by rewrite (load_store_other _ _ j i _ Hkz Hji)|done]. }
    assert (Z.to_nat i' <> Z.to_nat i) as Hii.
    { destruct Hacc as (st & z & A1 & _). apply Hne; eauto. }
    split.
    + destruct (probe_hit_path t' key' key_size' (Z.to_nat n')
                  (probe_fuel t') s' 0) as [n'' Hprobe]; try done.
      * change (capacity t') with (capacity g). lia.
      * change (capacity t') with (capacity g). lia.
      * unfold probe_fuel. change (capacity t') with (capacity g). lia.
      * change (capacity t') with (capacity g). intros k Hkr.
        apply Hkeep; [apply Z.mod_pos_bound; lia|]. apply Hpath. lia.
      * change (capacity t') with (capacity g).
        rewrite Z2Nat.id, <- Hie by lia.
        destruct Hacc as (st & z & A1 & A2 & A3). exists st, z.
        split; [cbn; by rewrite (load_store_other _ _ i' i _ Hks Hii)|].
        split; [cbn; by rewrite (load_store_other _ _ i' i _ Hkz Hii)|done].
      * exists n''. unfold find_slot. rewrite Hh'. cbn [rbind].
        change (capacity t') with (capacity g).
        rewrite modulo_pos by done. cbn [rbind]. fold s'.
        rewrite Hprobe. change (capacity t') with (capacity g).
        by rewrite Z2Nat.id, <- Hie by lia.
    + cbn [values set_slot t']. unfold t'. cbn [values set_slot].
      by apply (load_store_other _ _ i' i _ Hvs).
Qed.

(** A growth that returned success, seen from its result. *)
Lemma resize_success_inv (t t' : hash_table)
    (oks : list (option (list byte))) (okz ovs : list Z) (n : Z)
    (w w' : world) :
  well_formed t = true ->
  keys t = Some oks -> key_sizes t = Some okz -> values t = Some ovs ->
  n <= C.size_max ->
  hash_table_resize t n w = Ret ((0, t'), w') ->
  capacity t < n /\ rehash_inv oks okz ovs n (length oks) t'.
Proof.
  intros Hwf Hk Hz Hv Hn.
  destruct (well_formed_inv t Hwf) as (Hs & ks0 & kz0 & Hk0 & Hz0 & Hsz).
  rewrite Hk in Hk0. injection Hk0 as <-.
  rewrite Hz in Hz0. injection Hz0 as <-.
  destruct (shaped_inv t Hs)
    as (Hcap & (ks1 & Hk1 & Hlk) & (kz1 & Hz1 & Hlz) & (vs1 & Hv1 & Hlv)).
  rewrite Hk in Hk1. injection Hk1 as <-.
  rewrite Hz in Hz1. injection Hz1 as <-.
  rewrite Hv in Hv1. injection Hv1 as <-.
  unfold hash_table_resize. destruct (Z.leb_spec n (capacity t)) as [|Hlt].
  { intros H'. by apply ret_Ret in H' as [[=] _]. }
  intros H. do 3 inv_run H.
  apply calloc_inv in E as [_ [->| ->]];
    [by apply ret_Ret in H as [[=] _]|].
  apply calloc_inv in E0 as [_ [->| ->]];
    [by apply ret_Ret in H as [[=] _]|].
  apply calloc_inv in E1 as [_ [->| ->]];
    [by apply ret_Ret in H as [[=] _]|].
  inv_run H. apply ret_Ret in H as [[= <-] _].
  split; [done|].
  set (T0 := HashTable n (Some (replicate (Z.to_nat n) None))
               (Some (replicate (Z.to_nat n) 0))
               (Some (replicate (Z.to_nat n) NULL)) 0
               (_resize_threshold t) (_resize_factor t)
               (_value_destructor t)) in *.
  assert (shaped T0 = true) as Hs0.
  { apply (shaped_intro T0 (replicate (Z.to_nat n) None)
             (replicate (Z.to_nat n) 0) (replicate (Z.to_nat n) NULL));
      try done; cbn; rewrite ?length_replicate; lia. }
  destruct (rehash_steps oks okz ovs n ltac:(lia) ltac:(lia) Hsz ltac:(lia)
              (length oks) 0 T0) as (T' & Hrun & Hinv); [|lia|].
  { apply rehash_inv_start; try done; lia. }
  rewrite Hk, Hz, Hv in E.
  replace (Z.to_nat (capacity t)) with (length oks) in E by lia.
  change (Z.of_nat 0) with 0 in Hrun. congruence.
Qed.

(** The table a rehash leaves is well formed and counts its entries. *)
Lemma rehash_inv_well_formed (oks : list (option (list byte)))
    (okz ovs : list Z) (n : Z) (T : hash_table) :
  rehash_inv oks okz ovs n (length oks) T ->
  sizes_match oks okz = true ->
  well_formed T = true /\ size T = occupied T /\
  occupied T = occupied_slots oks.
Proof.
  intros (Hs & Hc & Hcount & Hsize & Hsound & _) Hsz.
  rewrite take_ge in Hcount by lia.
  destruct (shaped_inv T Hs)
    as (Hcap & (nks & Hnk & Hlnk) & (nkz & Hnz & Hlnz) & (nvs & Hnv & Hlnv)).
  split; [|done].
  unfold well_formed. rewrite Hs, Hnk, Hnz. simpl.
  apply sizes_match_intro. intros j kb z Hkj Hzj.
  destruct (lookup_lt_is_Some_2 nvs j) as [v Hvj].
  { apply lookup_lt_Some in Hkj. lia. }
  destruct (Hsound (Z.of_nat j) kb z v) as (j' & _ & O1 & O2 & _).
  { apply (slot_holds_lookup T nks nkz nvs); try done.
    by rewrite Nat2Z.id. }
  by apply (sizes_match_lookup oks okz j').
Qed.

(** The growth step of an insertion, when it returns success: the table it
    hands on is well formed, counts its entries, has a free slot whenever
    it grew or had one, and get finds in it what get found before. *)
Lemma grow_keeps_entries (t g : hash_table) (w wg : world) :
  well_formed t = true ->
  occupied t < capacity t \/ load_exceeds t = true ->
  grow_if_needed t w = Ret ((0, g), wg) ->
  well_formed g = true /\ (size t = occupied t -> size g = occupied g) /\
  occupied g = occupied t /\ occupied g < capacity g /\
  capacity t <= capacity g /\
  (keys_distinct t = true ->
   forall key key_size v,
     hash_table_get (Some t) (Some key) key_size = Ret v -> v <> NULL ->
     hash_table_get (Some g) (Some key) key_size = Ret v).
Proof.
  intros Hwf Hfree. unfold grow_if_needed.
  destruct (load_exceeds t) eqn:Hload.
  2: { intros H. apply ret_Ret in H as [[= <-] _].
       destruct Hfree as [Hfree|]; [|done]. repeat split; done || lia. }
  clear Hfree. intros H. inv_run H. rename a into n.
  pose proof (to_size_range _ _ E) as Hn.
  destruct (well_formed_inv t Hwf) as (Hs & oks & okz & Hk & Hz & Hsz).
  destruct (shaped_inv t Hs)
    as (Hcap & (ks1 & Hk1 & Hlk) & (kz1 & Hz1 & Hlz) & (ovs & Hv & Hlv)).
  rewrite Hk in Hk1. injection Hk1 as <-.
  rewrite Hz in Hz1. injection Hz1 as <-.
  apply (resize_success_inv t g oks okz ovs n) in H as [Hlt Hinv];
    try done; [|lia].
  destruct (rehash_inv_well_formed _ _ _ _ _ Hinv Hsz) as (Hwg & Hsg & Hog).
  pose proof Hinv as (_ & Hc & _).
  assert (occupied t = occupied_slots oks) as Hot
    by (unfold occupied; by rewrite Hk).
  pose proof (occupied_slots_bounds oks) as Hb.
  split; [done|]. split; [done|]. split; [congruence|].
  split; [lia|]. split; [lia|].
  intros Hdist key key_size v Hget Hv0.
  unfold keys_distinct in Hdist. rewrite Hk in Hdist.
  unfold hash_table_get in Hget. inv_run Hget.
  destruct a as [[i|i] m]; cbn [fst] in Hget; [|congruence].
  pose proof (find_slot_in_bounds _ _ _ _ E0) as Hin.
  apply find_slot_hit in E0 as (stored & L1 & L2 & Heq).
  rewrite Hk in L1. rewrite Hz in L2. rewrite Hv in Hget.
  apply load_inv in L1 as (? & [= <-] & L1).
  apply load_inv in L2 as (? & [= <-] & L2).
  apply load_inv in Hget as (? & [= <-] & L3).
  pose proof (sizes_match_lookup _ _ _ _ _ Hsz L1 L2) as Hlen.
  pose proof (rehash_inv_get oks okz ovs n g (Z.to_nat i) stored key_size v
                Hinv Hsz Hdist L1 L2 L3) as Hg.
  unfold hash_table_get in *.
  rewrite <- (find_slot_prefix g stored key key_size); try done. lia.
Qed.

(** A successful insertion of one key leaves get on every other key that
    it found as it was. *)
Lemma insert_frame (t t' : hash_table) (key : list byte)
    (key_size value : Z) (w w' : world) (key' : list byte)
    (key_size' v' : Z) :
  well_formed t = true -> keys_distinct t = true ->
  occupied t < capacity t \/ load_exceeds t = true ->
  hash_table_insert (Some t) (Some key) key_size value w
  = Ret ((0, Some t'), w') ->
  read_bytes key key_size <> read_bytes key' key_size' ->
  hash_table_get (Some t) (Some key') key_size' = Ret v' -> v' <> NULL ->
  hash_table_get (Some t') (Some key') key_size' = Ret v'.
Proof.
  intros Hwf Hdist Hfree Hrun Hdiff Hget Hv.
  apply insert_inv in Hrun as (gr & g & wg & Hg & [H|[-> Hslot]]).
  { by destruct H as (_ & [=] & _). }
  destruct (grow_keeps_entries t g w wg Hwf Hfree Hg)
    as (Hwg & _ & _ & Hfg & _ & Hkeep).
  specialize (Hkeep Hdist key' key_size' v' Hget Hv).
  destruct (well_formed_inv g Hwg) as (Hsg & _).
  unfold hash_table_get in Hkeep. inv_run Hkeep.
  destruct a as [[i'|i'] n']; cbn [fst] in Hkeep; [|congruence].
  destruct (insert_slot_frame g t' key key_size value wg w' key' key_size'
              i' n' Hsg Hfg Hslot Hdiff E) as [[n'' Hfind] Hval].
  unfold hash_table_get. rewrite Hfind. cbn [rbind fst]. congruence.
Qed.

(** X13: a successful insertion of one key leaves every other key that get
    found before the call findable with the value it had, whether or not
    the table grew, in a well-formed table with a free slot (or whose load
    test fires) that stores no key twice. *)
Theorem insert_keeps_other_keys (t t' : hash_table) (key : list byte)
    (key_size value : Z) (w w' : world) (key' : list byte)
    (key_size' v' : Z) :
  well_formed t = true -> keys_distinct t = true ->
  occupied t < capacity t \/ load_exceeds t = true ->
  hash_table_insert (Some t) (Some key) key_size value w
  = Ret ((0, Some t'), w') ->
  read_bytes key key_size <> read_bytes key' key_size' ->
  hash_table_get (Some t) (Some key') key_size' = Ret v' -> v' <> NULL ->
  hash_table_get (Some t') (Some key') key_size' = Ret v' /\
  hash_table_contains (Some t') (Some key') key_size' = Ret 1.
Proof.
  intros Hwf Hdist Hfree Hrun Hdiff Hget Hv.
  assert (hash_table_get (Some t') (Some key') key_size' = Ret v') as Hres
    by (by apply (insert_frame t t' key key_size value w w')).
  split; [done|]. unfold hash_table_contains. rewrite Hres.
  cbn [rbind]. by destruct (Z.eqb_spec v' NULL).
Qed.

(** ** The table stays well formed and [size] counts its entries *)

Lemma sizes_match_insert (ks : list (option (list byte))) (kz : list Z)
    (i : nat) (k : option (list byte)) (z : Z) :
  sizes_match ks kz = true ->
  (forall kb, k = Some kb -> Z.of_nat (length kb) = z) ->
  sizes_match (<[i := k]> ks) (<[i := z]> kz) = true.
Proof.
  intros Hsz Hk. apply sizes_match_intro. intros j kb z' Hkj Hzj.
  destruct (decide (i = j)) as [->|Hne].
  - pose proof (lookup_lt_Some _ _ _ Hkj) as H1.
    pose proof (lookup_lt_Some _ _ _ Hzj) as H2.
    rewrite length_insert in H1. rewrite length_insert in H2.
    rewrite list_lookup_insert_eq in Hkj by done.
    rewrite list_lookup_insert_eq in Hzj by done.
    injection Hkj as ->. injection Hzj as <-. by apply Hk.
  - rewrite list_lookup_insert_ne in Hkj by done.
    rewrite list_lookup_insert_ne in Hzj by done.
    by apply (sizes_match_lookup ks kz j).
Qed.

(** Writing a slot whose key buffer has the recorded length keeps the
    table well formed, and moves the count of entries by what the slot
    gains or loses. *)
Lemma set_slot_well_formed (g : hash_table) (i : Z)
    (old k : option (list byte)) (z v sz : Z)
    (keys' : option (list (option (list byte))))
    (key_sizes' values' : option (list Z)) :
  well_formed g = true ->
  load (keys g) i = Ret old ->
  store (keys g) i k = Ret keys' ->
  store (key_sizes g) i z = Ret key_sizes' ->
  store (values g) i v = Ret values' ->
  (forall kb, k = Some kb -> Z.of_nat (length kb) = z) ->
  well_formed (set_slot g keys' key_sizes' values' sz) = true /\
  forall sz',
    occupied (set_slot g keys' key_sizes' values' sz')
    = occupied g - match old with Some _ => 1 | None => 0 end
      + match k with Some _ => 1 | None => 0 end.
Proof.
  intros Hwf Hold Hks Hkz Hvs Hlen.
  destruct (well_formed_inv g Hwf) as (Hs & ks & kz & Hk & Hz & Hsz).
  destruct (shaped_inv g Hs)
    as (Hcap & (ks1 & Hk1 & Hlk) & (kz1 & Hz1 & Hlz) & (vs & Hv & Hlv)).
  rewrite Hk in Hk1. injection Hk1 as <-.
  rewrite Hz in Hz1. injection Hz1 as <-.
  rewrite Hk in Hks, Hold. rewrite Hz in Hkz. rewrite Hv in Hvs.
  apply store_inv in Hks as (? & [= <-] & -> & _).
  apply store_inv in Hkz as (? & [= <-] & -> & _).
  apply store_inv in Hvs as (? & [= <-] & -> & _).
  apply load_inv in Hold as (? & [= <-] & Hold).
  split.
  - unfold well_formed. cbn [keys key_sizes set_slot].
    rewrite (sizes_match_insert ks kz _ k z Hsz Hlen), andb_true_r.
    apply (shaped_intro _ (<[Z.to_nat i := k]> ks)
             (<[Z.to_nat i := z]> kz) (<[Z.to_nat i := v]> vs));
      try done; cbn [capacity set_slot]; rewrite ?length_insert; lia.
  - intros sz'. unfold occupied. cbn [keys set_slot]. rewrite Hk.
    by apply occupied_slots_insert.
Qed.

Lemma set_values_well_formed (g : hash_table) (i v : Z)
    (values' : option (list Z)) :
  well_formed g = true ->
  store (values g) i v = Ret values' ->
  well_formed (set_values g values') = true /\
  occupied (set_values g values') = occupied g.
Proof.
  intros Hwf Hvs.
  destruct (well_formed_inv g Hwf) as (Hs & ks & kz & Hk & Hz & Hsz).
  destruct (shaped_inv g Hs)
    as (Hcap & (ks1 & Hk1 & Hlk) & (kz1 & Hz1 & Hlz) & (vs & Hv & Hlv)).
  rewrite Hk in Hk1. injection Hk1 as <-.
  rewrite Hz in Hz1. injection Hz1 as <-.
  rewrite Hv in Hvs. apply store_inv in Hvs as (? & [= <-] & -> & _).
  split; [|done].
  unfold well_formed. cbn [keys key_sizes set_values].
  rewrite Hk, Hz, Hsz, andb_true_r.
  apply (shaped_intro _ ks kz (<[Z.to_nat i := v]> vs));
    try done; cbn [capacity set_values]; rewrite ?length_insert; lia.
Qed.

Lemma occupied_bounds (t : hash_table) :
  shaped t = true -> 0 <= occupied t <= capacity t.
Proof.
  intros Hs. destruct (shaped_inv t Hs) as (_ & (ks & Hk & Hlk) & _).
  pose proof (occupied_slots_bounds ks). unfold occupied. rewrite Hk. lia.
Qed.

(** X14: insertion keeps a table well formed and keeps [size] equal to the
    number of occupied slots, whatever it returns, when the table has a
    free slot or its load test fires; the capacity never shrinks, [size]
    goes up by at most one, and not at all when insert reports failure. *)
Theorem insert_keeps_count (t t' : hash_table) (key : list byte)
    (key_size value rc : Z) (w w' : world) :
  well_formed t = true -> size t = occupied t ->
  occupied t < capacity t \/ load_exceeds t = true ->
  0 <= key_size ->
  hash_table_insert (Some t) (Some key) key_size value w
  = Ret ((rc, Some t'), w') ->
  well_formed t' = true /\ size t' = occupied t' /\
  capacity t <= capacity t' /\
  size t <= size t' <= size t + 1 /\
  (rc <> 0 -> size t' = size t) /\
  size t' <= capacity t'.
Proof.
  intros Hwf Hsize Hfree Hkz Hrun.
  assert (0 <= occupied t <= capacity t) as Hle.
  { apply occupied_bounds. by destruct (well_formed_inv t Hwf). }
  apply insert_inv in Hrun as (gr & g & wg & Hg & [H|[-> Hslot]]).
  { destruct H as (Hne & -> & -> & ->).
    apply grow_inv in Hg as [_ [(_ & -> & _)|[(_ & _ & ->)|(_ & -> & _)]]];
      try done.
    repeat split; done || lia. }
  destruct (grow_keeps_entries t g w wg Hwf Hfree Hg)
    as (Hwg & Hsg & Hog & Hfg & Hcg & _).
  specialize (Hsg Hsize).
  destruct (well_formed_inv g Hwg) as (Hs & _).
  pose proof (shaped_inv g Hs) as (Hcap & _).
  apply insert_slot_inv in Hslot
    as [(i & n & old & vs & Hf & _ & Hst & -> & -> & _)
       |[(i & n & Hf & -> & -> & _)
        |(i & n & b & nks & nkz & nvs & Hf & Hb & Hks & Hkz' & Hvs & -> & ->
          & _)]].
  - destruct (set_values_well_formed g i value vs Hwg Hst) as [Hw' Ho'].
    split; [done|]. cbn [size capacity set_values] in *.
    repeat split; done || lia.
  - repeat split; done || lia.
  - pose proof (find_slot_stop_empty g key key_size i n Hs Hfg Hf) as Hemp.
    destruct (set_slot_well_formed g i None (Some b) key_size value
                (C.wrap (size g + 1)) nks nkz nvs Hwg Hemp Hks Hkz' Hvs)
      as [Hw' Ho'].
    { intros kb [= <-]. unfold read_bytes in Hb.
      destruct (Z.leb_spec key_size (Z.of_nat (length key))); [|done].
      injection Hb as <-. rewrite length_take. lia. }
    split; [done|]. cbn [size capacity set_slot] in *.
    rewrite wrap_small by lia. rewrite Ho'. repeat split; done || lia.
Qed.

(** X15: removal keeps a table well formed and keeps [size] equal to the
    number of occupied slots; the capacity is unchanged and [size] goes
    down by one when the key was found and stays otherwise. *)
Theorem remove_keeps_count (t t' : hash_table) (key : list byte)
    (key_size : Z) (w w' : world) :
  well_formed t = true -> size t = occupied t ->
  hash_table_remove (Some t) (Some key) key_size w = Ret (Some t', w') ->
  well_formed t' = true /\ size t' = occupied t' /\
  capacity t' = capacity t /\
  (exists i n, find_slot t key key_size = Ret (Hit i, n) /\
               size t' = size t - 1 \/
               find_slot t key key_size = Ret (Stop i, n) /\ t' = t).
Proof.
  intros Hwf Hsize H. unfold hash_table_remove in H. inv_run H.
  destruct a as [[i|i] n]; cbn [fst] in H.
  2: { apply ret_Ret in H as [[= ->] _]. repeat split; try done.
       exists i, n. by right. }
  do 7 inv_run H. apply ret_Ret in H as [[= ->] _].
  destruct (set_slot_well_formed t i a None 0 NULL (C.wrap (size t - 1))
              a3 a4 a5 Hwf E0 E4 E5 E6) as [Hw' Ho']; [done|].
  destruct (find_slot_hit _ _ _ _ _ E) as (stored & Hk & _).
  rewrite Hk in E0. injection E0 as <-.
  assert (0 <= occupied (set_slot t a3 a4 a5 (C.wrap (size t - 1)))
          <= C.size_max) as Hb.
  { destruct (well_formed_inv _ Hw') as (Hs & _).
    pose proof (occupied_bounds _ Hs) as Hob.
    pose proof (shaped_inv _ Hs) as (Hcap & _). lia. }
  split; [done|]. cbn [size capacity set_slot] in *.
  rewrite wrap_small by (rewrite Ho' in Hb; lia). rewrite Ho'.
  split; [lia|]. split; [done|]. exists i, n. left. split; [done | lia].
Qed.

(** ** The further properties on concrete tables *)

Lemma insert_failure_cases_witness :
  hash_table_insert (Some small_table) (Some (cstring "b")) 2 7 (heap 0)
  = Ret ((1, Some small_table), heap 0) /\
  trace (heap 0) = trace (heap 0) /\
  (small_table = small_table \/
   (load_exceeds small_table = true /\
    capacity small_table < capacity small_table /\
    exists wg, grow_if_needed small_table (heap 0)
               = Ret ((0, small_table), wg))).
Proof.
  split; [reflexivity|].
  apply (insert_failure_cases small_table small_table (cstring "b") 2 7
           (heap 0) (heap 0) eq_refl).
Defined.

Lemma absent_key_untouched_witness :
  find_slot small_table (cstring "b") 2 = Ret (Stop 1, 0) /\
  hash_table_get (Some small_table) (Some (cstring "b")) 2 = Ret NULL /\
  hash_table_contains (Some small_table) (Some (cstring "b")) 2 = Ret 0 /\
  forall w, hash_table_remove (Some small_table) (Some (cstring "b")) 2 w
            = Ret (Some small_table, w).
Proof.
  split; [reflexivity|].
  apply (absent_key_untouched small_table (cstring "b") 2 (Stop 1) 0 eq_refl).
  intros i stored Hk _. unfold load, small_table, keys in Hk.
  destruct (Z.to_nat i) as [|[|n]]; simpl in Hk; try discriminate.
  injection Hk as <-. discriminate.
Defined.

Lemma get_after_remove_witness :
  0 < capacity small_table <= C.size_max /\
  exists t',
    hash_table_remove (Some small_table) (Some (cstring "a")) 2 (heap 0)
    = Ret (Some t', World [] [FreeKey (cstring "a"); FreeValue 100]) /\
    hash_table_get (Some t') (Some (cstring "a")) 2 = Ret NULL /\
    hash_table_contains (Some t') (Some (cstring "a")) 2 = Ret 0.
Proof.
  assert (0 < capacity small_table <= C.size_max) as Hcap
    by (unfold C.size_max; simpl; lia).
  split; [exact Hcap|]. eexists. split; [reflexivity|].
  apply (get_after_remove small_table _ (cstring "a") 2 (heap 0)
           (World [] [FreeKey (cstring "a"); FreeValue 100]) Hcap eq_refl).
Defined.

Lemma remove_releases_entry_witness :
  hash_table_get (Some small_table) (Some (cstring "a")) 2 = Ret 100 /\
  100 <> NULL /\
  exists t',
    hash_table_remove (Some small_table) (Some (cstring "a")) 2 (heap 0)
    = Ret (Some t', World [] [FreeKey (cstring "a"); FreeValue 100]) /\
    size t' = 0 /\ capacity t' = 2.
Proof.
  assert (100 <> NULL) as Hv by discriminate.
  split; [reflexivity|]. split; [exact Hv|].
  destruct (remove_releases_entry small_table (cstring "a") 2 100 (heap 0)
              eq_refl Hv)
    as (i & stored & t' & _ & _ & Hrun & Hsize & Hcap & _).
  exists t'. split; [|split; [exact Hsize | exact Hcap]].
  rewrite Hrun.
  assert (hash_table_remove (Some small_table) (Some (cstring "a")) 2 (heap 0)
          = Ret (Some (HashTable 2 (Some [None; None]) (Some [0; 0])
                         (Some [0; 0]) 0 half two None),
                 World [] [FreeKey (cstring "a"); FreeValue 100])) as Hrun'
    by reflexivity.
  rewrite Hrun in Hrun'. injection Hrun' as _ ->. reflexivity.
Defined.

Lemma clear_releases_every_entry_witness :
  shaped full_table = true /\
  exists t',
    hash_table_clear (Some full_table) (heap 0)
    = Ret (Some t',
           World [] [FreeKey (cstring "a"); FreeValue 100;
                     FreeKey (cstring "b"); FreeValue 200]) /\
    hash_table_destroy (Some full_table) (heap 0)
    = Ret (tt,
           World [] [FreeKey (cstring "a"); FreeValue 100;
                     FreeKey (cstring "b"); FreeValue 200]) /\
    size t' = 0 /\ occupied t' = 0 /\
    hash_table_get (Some t') (Some (cstring "a")) 2 = Ret NULL.
Proof.
  split; [reflexivity|].
  destruct (clear_releases_every_entry full_table
              [Some (cstring "a"); Some (cstring "b")] [100; 200] (heap 0)
              (cstring "a") 2 eq_refl eq_refl eq_refl)
    as (t' & Hclear & Hdestroy & _ & _ & _ & _ & Hsize & _ & Hocc & Hget).
  exists t'. split; [exact Hclear|]. split; [exact Hdestroy|].
  split; [exact Hsize|]. split; [exact Hocc|].
  apply Hget; [reflexivity | simpl; lia].
Defined.

Lemma resize_keeps_every_entry_witness :
  well_formed full_table = true /\
  exists t',
    hash_table_resize full_table 4 (heap 3) = Ret ((0, t'), World [] []) /\
    capacity t' = 4 /\ size t' = 2 /\
    hash_table_get (Some t') (Some (cstring "a")) 2 = Ret 100 /\
    hash_table_get (Some t') (Some (cstring "b")) 2 = Ret 200.
Proof.
  split; [reflexivity|].
  assert (capacity full_table < 4 <= C.size_max) as Hn
    by (unfold C.size_max; simpl; lia).
  destruct (resize_keeps_every_entry full_table 4 4096 4112 4128 []
              (heap 3) eq_refl Hn eq_refl)
    as (t' & Hrun & Hcap & _ & Hsize & _ & _ & _ & Hget);
    [discriminate..|].
  exists t'. split; [exact Hrun|]. split; [exact Hcap|].
  split; [exact Hsize|]. split.
  - apply (Hget eq_refl 0 (cstring "a") 2 100). repeat split; reflexivity.
  - apply (Hget eq_refl 1 (cstring "b") 2 200). repeat split; reflexivity.
Defined.

Lemma insert_keeps_other_keys_witness :
  well_formed small_table = true /\ keys_distinct small_table = true /\
  occupied small_table < capacity small_table /\
  exists t',
    hash_table_insert (Some small_table) (Some (cstring "b")) 2 7 (heap 4)
    = Ret ((0, Some t'), World [] []) /\
    hash_table_get (Some small_table) (Some (cstring "a")) 2 = Ret 100 /\
    hash_table_get (Some t') (Some (cstring "a")) 2 = Ret 100 /\
    hash_table_contains (Some t') (Some (cstring "a")) 2 = Ret 1.
Proof.
  assert (occupied small_table < capacity small_table) as Hfree
    by reflexivity.
  assert (read_bytes (cstring "b") 2 <> read_bytes (cstring "a") 2) as Hdiff
    by discriminate.
  assert (100 <> NULL) as Hv by discriminate.
  eassert (hash_table_insert (Some small_table) (Some (cstring "b")) 2 7
             (heap 4) = Ret ((0, Some _), World [] [])) as Hrun
    by (vm_compute; reflexivity).
  split; [reflexivity|]. split; [reflexivity|]. split; [exact Hfree|].
  eexists. split; [exact Hrun|]. split; [reflexivity|].
  apply (insert_keeps_other_keys small_table _ (cstring "b") 2 7 (heap 4)
           (World [] []) (cstring "a") 2 100 eq_refl eq_refl
           (or_introl Hfree) Hrun Hdiff eq_refl Hv).
Defined.

Lemma insert_keeps_count_witness :
  well_formed small_table = true /\
  size small_table = occupied small_table /\
  exists t',
    hash_table_insert (Some small_table) (Some (cstring "b")) 2 7 (heap 4)
    = Ret ((0, Some t'), World [] []) /\
    well_formed t' = true /\ size t' = occupied t' /\
    capacity small_table <= capacity t' /\
    size small_table <= size t' <= size small_table + 1 /\
    (0 <> 0 -> size t' = size small_table) /\
    size t' <= capacity t'.
Proof.
  assert (occupied small_table < capacity small_table) as Hfree
    by reflexivity.
  assert (0 <= 2) as Hk by lia.
  eassert (hash_table_insert (Some small_table) (Some (cstring "b")) 2 7
             (heap 4) = Ret ((0, Some _), World [] [])) as Hrun
    by (vm_compute; reflexivity).
  split; [reflexivity|]. split; [reflexivity|].
  eexists. split; [exact Hrun|].
  apply (insert_keeps_count small_table _ (cstring "b") 2 7 0 (heap 4)
           (World [] []) eq_refl eq_refl (or_introl Hfree) Hk Hrun).
Defined.

Lemma remove_keeps_count_witness :
  well_formed small_table = true /\
  size small_table = occupied small_table /\
  exists t',
    hash_table_remove (Some small_table) (Some (cstring "a")) 2 (heap 0)
    = Ret (Some t', World [] [FreeKey (cstring "a"); FreeValue 100]) /\
    well_formed t' = true /\ size t' = occupied t' /\
    capacity t' = capacity small_table.
Proof.
  split; [reflexivity|]. split; [reflexivity|].
  eexists. split; [reflexivity|].
  destruct (remove_keeps_count small_table _ (cstring "a") 2 (heap 0)
              (World [] [FreeKey (cstring "a"); FreeValue 100])
              eq_refl eq_refl eq_refl) as (Hwf & Hsize & Hcap & _).
  split; [exact Hwf|]. split; [exact Hsize | exact Hcap].
Defined.

(** ** Insertion into a full table *)

(** A scan through [capacity] rejecting slots stops where it started. *)
Lemma probe_stop_when_full (t : hash_table) (key : list byte) (key_size : Z)
    (m : nat) (fuel : nat) (j it : Z) :
  0 < capacity t <= C.size_max -> 0 <= j < capacity t -> 0 <= it ->
  it + Z.of_nat m = capacity t -> (m < fuel)%nat ->
  (forall k, 0 <= k <= Z.of_nat m ->
             slot_rejects t key key_size ((j + k) mod capacity t)) ->
  probe fuel t key key_size j it
  = Ret (Stop ((j + Z.of_nat m) mod capacity t), capacity t).
Proof.
  intros Hcap. revert fuel j it.
  induction m as [|m IH]; intros fuel j it Hj Hit Hle Hfuel Hrej;
    (destruct fuel as [|fuel]; [lia|]); simpl probe;
    (destruct (Hrej 0) as (stored & sz & Hk & Hz & Hm); [lia|]);
    rewrite Z.add_0_r, Z.mod_small in Hk, Hz by lia; rewrite Hk; simpl.
  - destruct (Z.ltb_spec it (capacity t)); [lia|].
    rewrite Z.add_0_r, Z.mod_small by lia. do 2 f_equal. lia.
  - destruct (Z.ltb_spec it (capacity t)); [|lia].
    rewrite Hz. simpl. rewrite Hm.
    rewrite modulo_pos by lia. simpl. rewrite !wrap_small by lia.
    replace (j + Z.of_nat (S m)) with (j + (Z.of_nat m + 1)) in * by lia.
    rewrite <- next_index by lia.
    apply IH; [apply Z.mod_pos_bound; lia | lia | lia | lia |].
    intros k Hkr. rewrite next_index by lia. apply Hrej. lia.
Qed.

(** X16: in a table whose every slot holds another key and whose load test
    does not fire (a resize threshold above 1), insert of a new key
    returns success and overwrites the slot at the hash index of the key:
    the entry that slot held is gone, neither its key buffer nor its value
    is released, [size] becomes one more than the number of slots, and
    no other slot changes. *)
Theorem insert_into_full_table_overwrites (t : hash_table) (key : list byte)
    (key_size value h p : Z) (rest : list Z) (w : world) :
  shaped t = true -> 0 < capacity t -> load_exceeds t = false ->
  (forall j, 0 <= j < capacity t -> slot_rejects t key key_size j) ->
  hash_table_fnv_1a key key_size = Ret h ->
  allocs w = p :: rest -> p <> NULL ->
  exists t' lost,
    hash_table_insert (Some t) (Some key) key_size value w
    = Ret ((0, Some t'), World rest (trace w)) /\
    load (keys t) (h mod capacity t) = Ret (Some lost) /\
    slot_holds t' (h mod capacity t)
      (take (Z.to_nat key_size) key) key_size value /\
    size t' = C.wrap (size t + 1) /\ capacity t' = capacity t /\
    forall j, Z.to_nat j <> Z.to_nat (h mod capacity t) ->
              load (keys t') j = load (keys t) j /\
              load (key_sizes t') j = load (key_sizes t) j /\
              load (values t') j = load (values t) j.
Proof.
  intros Hs Hpos Hload Hfull Hh Ha Hp%Z.eqb_neq.
  destruct (shaped_inv t Hs)
    as (Hcap & (ks & Hk & Hlk) & (kz & Hz & Hlz) & (vs & Hv & Hlv)).
  set (s := h mod capacity t).
  assert (0 <= s < capacity t) as Hsr by (apply Z.mod_pos_bound; lia).
  assert (find_slot t key key_size = Ret (Stop s, capacity t)) as Hfind.
  { unfold find_slot. rewrite Hh. cbn [rbind].
    rewrite modulo_pos by done. cbn [rbind]. fold s.
    rewrite (probe_stop_when_full t key key_size (Z.to_nat (capacity t))
               (probe_fuel t) s 0); try done; try lia.
    - rewrite Z2Nat.id by lia. do 3 f_equal.
      rewrite <- (Z.mul_1_l (capacity t)) at 1.
      rewrite Z.mod_add by lia. by apply Z.mod_small.
    - unfold probe_fuel. lia.
    - intros k Hkr. apply Hfull. apply Z.mod_pos_bound. lia. }
  assert (read_bytes key key_size = Ret (take (Z.to_nat key_size) key))
    as Hread.
  { unfold hash_table_fnv_1a, read_bytes in *.
    by destruct (key_size <=? Z.of_nat (length key)). }
  destruct (Hfull s Hsr) as (lost & _ & Hlost & _).
  exists (set_slot t (Some (<[Z.to_nat s := Some (take (Z.to_nat key_size) key)]> ks))
            (Some (<[Z.to_nat s := key_size]> kz))
            (Some (<[Z.to_nat s := value]> vs)) (C.wrap (size t + 1))), lost.
  split; [|split; [done|]].
  - unfold hash_table_insert, grow_if_needed, bind. rewrite Hload.
    unfold ret at 1. cbn [fst snd negb Z.eqb].
    unfold insert_slot, bind, lift. rewrite Hfind. cbn [fst].
    unfold malloc. rewrite Ha, Hp, Hread, Hk, Hz, Hv.
    rewrite !store_in_range by lia. reflexivity.
  - split; [|split; [done|split; [done|]]].
    + unfold slot_holds, load. cbn [keys key_sizes values set_slot].
      rewrite !list_lookup_insert_eq by lia. done.
    + intros j Hj. unfold load. cbn [keys key_sizes values set_slot].
      rewrite Hk, Hz, Hv. by rewrite !list_lookup_insert_ne.
Qed.

Example crowded_table_reached :
  (t <- hash_table_create_with_parameters 2 two two ;;
   insert_strings [(cstring "a", 100); (cstring "b", 200)]%byte t) (heap 6)
  = Ret ((0, Some crowded_table), World [] []).
Proof. run. Qed.

Lemma insert_into_full_table_overwrites_witness :
  shaped crowded_table = true /\ load_exceeds crowded_table = false /\
  exists t' lost,
    hash_table_insert (Some crowded_table) (Some (cstring "c")) 2 300
      (heap 1)
    = Ret ((0, Some t'), World [] []) /\
    lost = cstring "a" /\
    hash_table_get (Some t') (Some (cstring "a")) 2 = Ret NULL /\
    size t' = 3 /\ capacity t' = 2.
Proof.
  split; [reflexivity|]. split; [reflexivity|].
  assert (0 < capacity crowded_table) as Hpos by reflexivity.
  assert (4096 <> NULL) as Hp by discriminate.
  assert (forall j, 0 <= j < capacity crowded_table ->
                    slot_rejects crowded_table (cstring "c") 2 j) as Hfull.
  { intros j Hj. change (capacity crowded_table) with 2 in Hj.
    assert (j = 0 \/ j = 1) as [-> | ->] by lia.
    - exists (cstring "a"), 2. repeat split; reflexivity.
    - exists (cstring "b"), 2. repeat split; reflexivity. }
  destruct (insert_into_full_table_overwrites crowded_table (cstring "c") 2
              300 3758069508093887766 4096 [] (heap 1) eq_refl Hpos
              eq_refl Hfull eq_refl eq_refl Hp)
    as (t' & lost & Hrun & Hlost & _ & Hsize & Hcap & _).
  assert (hash_table_insert (Some crowded_table) (Some (cstring "c")) 2 300
            (heap 1)
          = Ret ((0, Some (HashTable 2
                             (Some [Some (cstring "c"); Some (cstring "b")])
                             (Some [2; 2]) (Some [300; 200]) 3 two two
                             None)),
                 World [] [])) as Hrun' by reflexivity.
  exists t', lost. split; [exact Hrun|].
  split; [by injection Hlost as <-|].
  split; [|split; [exact Hsize | exact Hcap]].
  rewrite Hrun in Hrun'. injection Hrun' as ->. reflexivity.
Defined.

(** * The load and the threshold *)

(** ** Binary32 arithmetic on integers below 2^24 and on powers of two *)

Lemma digits2_pos_bounds (p : positive) :
  2 ^ (Z.pos (digits2_pos p) - 1) <= Z.pos p < 2 ^ Z.pos (digits2_pos p).
Proof.
  induction p as [p IH|p IH|]; simpl digits2_pos;
    rewrite ?Pos2Z.inj_succ.
  - replace (Z.succ (Z.pos (digits2_pos p)) - 1)
      with (Z.succ (Z.pos (digits2_pos p) - 1)) by lia.
    rewrite !Z.pow_succ_r by lia. lia.
  - replace (Z.succ (Z.pos (digits2_pos p)) - 1)
      with (Z.succ (Z.pos (digits2_pos p) - 1)) by lia.
    rewrite !Z.pow_succ_r by lia. lia.
  - simpl. lia.
Qed.

Lemma iter_xO_spec (p n : positive) :
  Z.pos (Pos.iter xO p n) = Z.pos p * 2 ^ Z.pos n /\
  digits2_pos (Pos.iter xO p n) = (digits2_pos p + n)%positive.
Proof.
  induction n as [|n IH] using Pos.peano_ind.
  - simpl. split; lia.
  - rewrite Pos.iter_succ. destruct IH as [IH1 IH2]. split.
    + rewrite Pos2Z.inj_xO, IH1, Pos2Z.inj_succ, Z.pow_succ_r by lia. lia.
    + simpl digits2_pos. rewrite IH2. lia.
Qed.

(** A mantissa of 24 digits with an exponent in range is its own
    rounding. *)
Lemma round_canonical (sx : bool) (m : positive) (e : Z) :
  Z.pos (digits2_pos m) = 24 -> -149 <= e <= 104 ->
  binary_round_aux F32.prec F32.emax sx (Z.pos m) e loc_Exact
  = S754_finite sx m e.
Proof.
  intros Hd He. unfold binary_round_aux, shr_fexp, Zdigits2.
  rewrite Hd. unfold fexp, emin, F32.prec, F32.emax.
  replace (Z.max (24 + e - 24) (3 - 128 - 24) - e) with 0 by lia.
  cbn [shr shr_record_of_loc shr_m loc_of_shr_record round_nearest_even].
  unfold Zdigits2. rewrite Hd.
  replace (Z.max (24 + e - 24) (3 - 128 - 24) - e) with 0 by lia.
  cbn [shr shr_record_of_loc shr_m].
  destruct (Z.leb_spec e (128 - 24)); [done | lia].
Qed.

(** The conversion of a positive integer below 2^24 is exact. *)
Lemma lit_small (p : positive) :
  Z.pos (digits2_pos p) <= 24 ->
  exists m,
    F32.lit (Z.pos p) 0 = S754_finite false m (Z.pos (digits2_pos p) - 24) /\
    Z.pos (digits2_pos m) = 24 /\
    Z.pos m = Z.pos p * 2 ^ (24 - Z.pos (digits2_pos p)).
Proof.
  intros Hd. unfold F32.lit, binary_normalize, binary_round, shl_align.
  unfold fexp, emin, F32.prec, F32.emax.
  set (d := Z.pos (digits2_pos p)) in *.
  replace (Z.max (d + 0 - 24) (3 - 128 - 24) - 0) with (d - 24) by lia.
  replace (Z.max (d + 0 - 24) (3 - 128 - 24)) with (d - 24) by lia.
  destruct (d - 24) as [|q|q] eqn:Hq; [|lia|].
  - exists p. split; [|split].
    + apply round_canonical; lia.
    + lia.
    + replace (24 - d) with 0 by lia. lia.
  - destruct (iter_xO_spec p q) as [Hv Hdig].
    exists (Pos.iter xO p q). split; [|split].
    + apply round_canonical; [|lia]. rewrite Hdig. fold d in Hdig. lia.
    + rewrite Hdig. lia.
    + rewrite Hv. f_equal. f_equal. lia.
Qed.

Lemma digits2_pos_unique (p : positive) (n : Z) :
  2 ^ (n - 1) <= Z.pos p < 2 ^ n -> Z.pos (digits2_pos p) = n.
Proof.
  intros [H1 H2]. pose proof (digits2_pos_bounds p) as [B1 B2].
  set (d := Z.pos (digits2_pos p)) in *.
  assert (0 < d) as Hd by (unfold d; lia).
  assert (0 < n) as Hn.
  { destruct (Z.ltb_spec 0 n); [done|]. rewrite Z.pow_neg_r in H1 by lia.
    assert (2 ^ n <= 2 ^ 0) by (apply Z.pow_le_mono_r; lia).
    change (2 ^ 0) with 1 in *. lia. }
  assert (n - 1 < d).
  { apply (Z.pow_lt_mono_r_iff 2); lia. }
  assert (d - 1 < n).
  { apply (Z.pow_lt_mono_r_iff 2); lia. }
  lia.
Qed.

Lemma iter_pos_comm {A} (f : A -> A) (n : positive) (x : A) :
  SpecFloat.iter_pos f n (f x) = f (SpecFloat.iter_pos f n x).
Proof.
  revert x. induction n as [n IH|n IH|]; intros x; simpl.
  - by rewrite !IH.
  - by rewrite !IH.
  - done.
Qed.

Lemma iter_pos_succ {A} (f : A -> A) (n : positive) (x : A) :
  SpecFloat.iter_pos f (Pos.succ n) x = SpecFloat.iter_pos f n (f x).
Proof.
  revert x. induction n as [n IH|n IH|]; intros x; simpl.
  - by rewrite !IH, !iter_pos_comm.
  - done.
  - done.
Qed.

Lemma shr_iter_xO (m k : positive) :
  SpecFloat.iter_pos shr_1 k (Build_shr_record (Z.pos (Pos.iter xO m k)) false false)
  = Build_shr_record (Z.pos m) false false.
Proof.
  induction k as [|k IH] using Pos.peano_ind.
  - done.
  - by rewrite Pos.iter_succ, iter_pos_succ.
Qed.

Lemma round_tail (sx : bool) (m : positive) (e : Z) :
  Z.pos (digits2_pos m) = 24 -> -149 <= e <= 104 ->
  (let '(mrs, e') := shr_fexp F32.prec F32.emax (Z.pos m) e loc_Exact in
   match shr_m mrs with
   | Z0 => S754_zero sx
   | Z.pos m' =>
       if e' <=? F32.emax - F32.prec then S754_finite sx m' e'
       else S754_infinity sx
   | Z.neg _ => S754_nan
   end) = S754_finite sx m e.
Proof.
  intros Hd He. unfold shr_fexp, Zdigits2. rewrite Hd.
  unfold fexp, emin, F32.prec, F32.emax.
  replace (Z.max (24 + e - 24) (3 - 128 - 24) - e) with 0 by lia.
  cbn [shr shr_record_of_loc shr_m].
  destruct (Z.leb_spec e (128 - 24)); [done | lia].
Qed.

(** A mantissa of 24 digits followed by [k] zero bits is rounded to that
    mantissa, exactly. *)
Lemma round_shifted (sx : bool) (m k : positive) (e : Z) :
  Z.pos (digits2_pos m) = 24 -> -149 <= e -> e + Z.pos k <= 104 ->
  binary_round_aux F32.prec F32.emax sx (Z.pos (Pos.iter xO m k)) e loc_Exact
  = S754_finite sx m (e + Z.pos k).
Proof.
  intros Hd He Hk. unfold binary_round_aux.
  assert (shr_fexp F32.prec F32.emax (Z.pos (Pos.iter xO m k)) e loc_Exact
          = (Build_shr_record (Z.pos m) false false, e + Z.pos k)) as ->.
  { unfold shr_fexp, Zdigits2.
    destruct (iter_xO_spec m k) as [_ ->]. rewrite Pos2Z.inj_add, Hd.
    unfold fexp, emin, F32.prec, F32.emax.
    replace (Z.max (24 + Z.pos k + e - 24) (3 - 128 - 24) - e)
      with (Z.pos k) by lia.
    cbn [shr shr_record_of_loc]. by rewrite shr_iter_xO. }
  cbn [shr_m loc_of_shr_record round_nearest_even].
  apply round_tail; lia.
Qed.

(** Division by a power of two is exact. *)
Lemma div_pow2 (m1 m2 : positive) (e1 e2 : Z) :
  Z.pos (digits2_pos m1) = 24 -> Z.pos m2 = 2 ^ 23 ->
  -125 <= e1 - e2 <= 127 ->
  F32.div (S754_finite false m1 e1) (S754_finite false m2 e2)
  = S754_finite false m1 (e1 - e2 - 23).
Proof.
  intros Hd Hm He.
  assert (m2 = 8388608%positive) as -> by (change (2 ^ 23) with 8388608 in Hm; lia).
  unfold F32.div, SFdiv, SFdiv_core_binary, Zdigits2. rewrite Hd.
  change (Z.pos (digits2_pos 8388608)) with 24.
  unfold fexp, emin, F32.prec, F32.emax.
  replace (Z.min (Z.max (24 + e1 - (24 + e2) - 24) (3 - 128 - 24)) (e1 - e2))
    with (e1 - e2 - 24) by lia.
  replace (e1 - e2 - (e1 - e2 - 24)) with 24 by lia.
  cbv iota beta.
  assert (Z.div_eucl (Z.shiftl (Z.pos m1) 24) 8388608 = (Z.pos m1~0, 0))
    as ->.
  { rewrite Z.shiftl_mul_pow2 by lia. change (2 ^ 24) with 16777216.
    pose proof (Z_div_mod (Z.pos m1 * 16777216) 8388608 ltac:(lia)) as H.
    destruct (Z.div_eucl _ _) as [q r]. destruct H as [H1 H2].
    f_equal; lia. }
  change (new_location 8388608 0) with loc_Exact.
  change (xorb false false) with false.
  transitivity (S754_finite false m1 (e1 - e2 - 24 + 1)); [|f_equal; lia].
  apply (round_shifted false m1 1 (e1 - e2 - 24) Hd); lia.
Qed.

Lemma of_size_small (a : Z) :
  0 < a < 2 ^ 24 ->
  exists m d,
    1 <= d <= 24 /\
    F32.of_size a = S754_finite false m (d - 24) /\
    Z.pos (digits2_pos m) = 24 /\
    Z.pos m = a * 2 ^ (24 - d).
Proof.
  intros Ha. destruct a as [|p|p]; try lia.
  pose proof (digits2_pos_bounds p) as [B1 B2].
  assert (Z.pos (digits2_pos p) <= 24) as Hd.
  { assert (Z.pos (digits2_pos p) - 1 < 24); [|lia].
    apply (Z.pow_lt_mono_r_iff 2); lia. }
  destruct (lit_small p Hd) as (m & Hlit & Hdm & Hm).
  exists m, (Z.pos (digits2_pos p)). repeat split; try done; lia.
Qed.

Lemma of_size_pow2 (k : Z) :
  0 <= k <= 23 -> F32.of_size (2 ^ k) = S754_finite false 8388608 (k - 23).
Proof.
  intros Hk.
  assert (0 < 2 ^ k < 2 ^ 24) as Ha.
  { split; [apply Z.pow_pos_nonneg; lia|]. apply Z.pow_lt_mono_r; lia. }
  destruct (2 ^ k) as [|p|p] eqn:Hp; try lia.
  assert (Z.pos (digits2_pos p) = k + 1) as Hd.
  { apply digits2_pos_unique. rewrite <- Hp.
    replace (k + 1 - 1) with k by lia. split; [lia|].
    apply Z.pow_lt_mono_r; lia. }
  destruct (lit_small p ltac:(lia)) as (m & Hlit & Hdm & Hm).
  unfold F32.of_size. rewrite Hlit, Hd.
  assert (m = 8388608%positive) as ->.
  { rewrite <- Hp, Hd, <- Z.pow_add_r in Hm by lia.
    replace (k + (24 - (k + 1))) with 23 in Hm by lia.
    change (2 ^ 23) with 8388608 in Hm. lia. }
  f_equal. lia.
Qed.

(** The quotient of the load test, for a capacity that is a power of two:
    the exact value. *)
Lemma load_quotient (a k : Z) :
  0 < a < 2 ^ 24 -> 0 <= k <= 23 ->
  exists m d,
    1 <= d <= 24 /\
    F32.div (F32.of_size a) (F32.of_size (2 ^ k))
    = S754_finite false m (d - 24 - k) /\
    Z.pos (digits2_pos m) = 24 /\
    Z.pos m = a * 2 ^ (24 - d).
Proof.
  intros Ha Hk. destruct (of_size_small a Ha) as (m & d & Hd & -> & Hdm & Hm).
  rewrite (of_size_pow2 k Hk). exists m, d. split; [done|].
  split; [|done]. rewrite (div_pow2 m 8388608 (d - 24) (k - 23)); try done.
  - f_equal. lia.
  - lia.
Qed.

Lemma canonical_inv (m : positive) (e : Z) :
  canonical_mantissa F32.prec F32.emax m e = true ->
  -149 <= e /\ Z.pos m < 2 ^ 24 /\ (-149 < e -> 2 ^ 23 <= Z.pos m).
Proof.
  unfold canonical_mantissa, fexp, emin, F32.prec, F32.emax.
  intros H%Z.eqb_eq. pose proof (digits2_pos_bounds m) as [B1 B2].
  set (d := Z.pos (digits2_pos m)) in *.
  assert (0 < d) by (unfold d; lia).
  split; [lia|]. split.
  - assert (2 ^ d <= 2 ^ 24) by (apply Z.pow_le_mono_r; lia). lia.
  - intros He. assert (d = 24) as Hd by lia. rewrite Hd in B1. exact B1.
Qed.

(** The comparison of two canonical positive floats is that of their
    values, here scaled by 2^149. *)
Lemma compare_scaled (mT : positive) (eT : Z) (m : positive) (E : Z) :
  canonical_mantissa F32.prec F32.emax mT eT = true ->
  Z.pos (digits2_pos m) = 24 -> -149 <= E ->
  SFltb (S754_finite false mT eT) (S754_finite false m E)
  = (Z.pos mT * 2 ^ (eT + 149) <? Z.pos m * 2 ^ (E + 149)).
Proof.
  intros (HeT & HmT & Hnorm)%canonical_inv Hd HE.
  pose proof (digits2_pos_bounds m) as [B1 B2]. rewrite Hd in B1, B2.
  change (2 ^ (24 - 1)) with 8388608 in B1.
  change (2 ^ 24) with 16777216 in *. change (2 ^ 23) with 8388608 in *.
  unfold SFltb, SFcompare.
  destruct (Z.compare_spec eT E) as [->|Hlt|Hgt].
  - assert (0 < 2 ^ (E + 149)) as HP by (apply Z.pow_pos_nonneg; lia).
    set (P := 2 ^ (E + 149)) in *.
    change (Pos.compare_cont Eq mT m) with (Pos.compare mT m).
    destruct (Pos.compare_spec mT m) as [Heq|H|H];
      destruct (Z.ltb_spec (Z.pos mT * P) (Z.pos m * P)); try done;
      try (rewrite Heq in *; lia); nia.
  - assert (0 < 2 ^ (eT + 149)) as HP by (apply Z.pow_pos_nonneg; lia).
    replace (E + 149) with (eT + 149 + (E - eT)) by lia.
    rewrite (Z.pow_add_r 2 (eT + 149) (E - eT)) by lia.
    assert (2 ^ 1 <= 2 ^ (E - eT)) as HQ by (apply Z.pow_le_mono_r; lia).
    change (2 ^ 1) with 2 in HQ.
    set (P := 2 ^ (eT + 149)) in *. set (Q := 2 ^ (E - eT)) in *.
    destruct (Z.ltb_spec (Z.pos mT * P) (Z.pos m * (P * Q))); [done|].
    assert (16777216 <= Z.pos m * Q) by nia. nia.
  - assert (0 < 2 ^ (E + 149)) as HP by (apply Z.pow_pos_nonneg; lia).
    replace (eT + 149) with (E + 149 + (eT - E)) by lia.
    rewrite (Z.pow_add_r 2 (E + 149) (eT - E)) by lia.
    assert (2 ^ 1 <= 2 ^ (eT - E)) as HQ by (apply Z.pow_le_mono_r; lia).
    change (2 ^ 1) with 2 in HQ.
    specialize (Hnorm ltac:(lia)).
    set (P := 2 ^ (E + 149)) in *. set (Q := 2 ^ (eT - E)) in *.
    destruct (Z.ltb_spec (Z.pos mT * (P * Q)) (Z.pos m * P)); [|done].
    assert (16777216 <= Z.pos mT * Q) by nia. nia.
Qed.

Lemma exceeds_scaled (a k : Z) (mT : positive) (eT : Z) :
  0 <= k -> -149 <= eT ->
  F32.exceeds a (2 ^ k) (S754_finite false mT eT)
  = (Z.pos mT * 2 ^ (eT + 149) * 2 ^ k <? a * 2 ^ 149).
Proof.
  intros Hk HeT. unfold F32.exceeds.
  assert (0 < 2 ^ k) as HK by (apply Z.pow_pos_nonneg; lia).
  destruct (Z.leb_spec 0 eT).
  - rewrite Z.pow_add_r by lia.
    assert (0 < 2 ^ 149) as HP by (apply Z.pow_pos_nonneg; lia).
    set (P := 2 ^ 149) in *. set (K := 2 ^ k) in *. set (Q := 2 ^ eT) in *.
    destruct (Z.ltb_spec (Z.pos mT * Q * K) a);
      destruct (Z.ltb_spec (Z.pos mT * (Q * P) * K) (a * P)); try done; nia.
  - replace 149 with (eT + 149 + - eT) at 2 by lia.
    rewrite (Z.pow_add_r 2 (eT + 149) (- eT)) by lia.
    assert (0 < 2 ^ (eT + 149)) as HP by (apply Z.pow_pos_nonneg; lia).
    set (P := 2 ^ (eT + 149)) in *. set (K := 2 ^ k) in *.
    set (Q := 2 ^ (- eT)) in *.
    destruct (Z.ltb_spec (Z.pos mT * K) (a * Q));
      destruct (Z.ltb_spec (Z.pos mT * P * K) (a * (P * Q))); try done; nia.
Qed.

(** For a capacity that is a power of two the load test decides the exact
    comparison of the load with the threshold. *)
Lemma gt_quotient_exact (a k : Z) (T : spec_float) :
  0 < a < 2 ^ 24 -> 0 <= k <= 23 ->
  valid_binary F32.prec F32.emax T = true ->
  F32.gt (F32.div (F32.of_size a) (F32.of_size (2 ^ k))) T
  = F32.exceeds a (2 ^ k) T.
Proof.
  intros Ha Hk HT.
  destruct (load_quotient a k Ha Hk) as (m & d & Hd & -> & Hdm & Hm).
  assert (0 < 2 ^ k) as HK by (apply Z.pow_pos_nonneg; lia).
  unfold F32.gt. destruct T as [s|s| |s mT eT]; try done.
  - cbn. symmetry. apply Z.ltb_lt. lia.
  - by destruct s.
  - destruct s.
    + cbn [SFltb SFcompare F32.exceeds]. symmetry.
      destruct (Z.leb_spec 0 eT); apply Z.ltb_lt.
      * assert (0 < 2 ^ eT) by (apply Z.pow_pos_nonneg; lia). nia.
      * assert (0 < 2 ^ (- eT)) by (apply Z.pow_pos_nonneg; lia). nia.
    + cbn [valid_binary] in HT. unfold bounded in HT.
      apply andb_true_iff in HT as [Hcan _].
      pose proof (canonical_inv _ _ Hcan) as (HeT & _).
      rewrite compare_scaled by (done || lia).
      rewrite exceeds_scaled by lia.
      assert (Z.pos m * 2 ^ (d - 24 - k + 149) * 2 ^ k = a * 2 ^ 149) as Hx.
      { rewrite Hm, <- !Z.mul_assoc, <- !Z.pow_add_r by lia.
        f_equal. f_equal. lia. }
      rewrite <- Hx.
      set (X := Z.pos m * 2 ^ (d - 24 - k + 149)).
      set (Y := Z.pos mT * 2 ^ (eT + 149)).
      destruct (Z.ltb_spec Y X); destruct (Z.ltb_spec (Y * 2 ^ k) (X * 2 ^ k));
        try done; nia.
Qed.

(** Twice a power of two. *)
Lemma mul_two_pow2 (k : Z) :
  0 <= k <= 23 ->
  F32.mul (F32.of_size (2 ^ k)) (S754_finite false 8388608 (-22))
  = S754_finite false 8388608 (k - 22).
Proof.
  intros Hk. rewrite (of_size_pow2 k Hk). unfold F32.mul, SFmul.
  change (xorb false false) with false.
  change (8388608 * 8388608)%positive
    with (Pos.iter xO 8388608%positive 23).
  transitivity (S754_finite false 8388608 (k - 23 + -22 + 23));
    [|f_equal; lia].
  apply (round_shifted false 8388608%positive 23%positive (k - 23 + -22));
    [done|lia|lia].
Qed.

(** ** The exact load *)

Lemma exceeds_mono_n (n n' d : Z) (m : positive) (e : Z) :
  n <= n' ->
  F32.exceeds n' d (S754_finite false m e) = false ->
  F32.exceeds n d (S754_finite false m e) = false.
Proof.
  intros Hn. unfold F32.exceeds. destruct (Z.leb_spec 0 e).
  - rewrite !Z.ltb_ge. lia.
  - assert (0 < 2 ^ (- e)) by (apply Z.pow_pos_nonneg; lia).
    rewrite !Z.ltb_ge. nia.
Qed.

Lemma exceeds_mono_d (n d d' : Z) (m : positive) (e : Z) :
  d <= d' ->
  F32.exceeds n d (S754_finite false m e) = false ->
  F32.exceeds n d' (S754_finite false m e) = false.
Proof.
  intros Hd. unfold F32.exceeds. destruct (Z.leb_spec 0 e).
  - assert (0 < Z.pos m * 2 ^ e) as HV.
    { apply Z.mul_pos_pos; [lia|]. apply Z.pow_pos_nonneg; lia. }
    set (V := Z.pos m * 2 ^ e) in *. rewrite !Z.ltb_ge. nia.
  - rewrite !Z.ltb_ge. nia.
Qed.

Lemma exceeds_max_entries (n c : Z) (m : positive) (e : Z) :
  F32.exceeds n c (S754_finite false m e) = false <->
  n <= F32.max_entries (S754_finite false m e) c.
Proof.
  unfold F32.exceeds, F32.max_entries. destruct (Z.leb_spec 0 e).
  - by rewrite Z.ltb_ge.
  - assert (0 < 2 ^ (- e)) as HP by (apply Z.pow_pos_nonneg; lia).
    rewrite Z.ltb_ge. split; intros H'.
    + apply Z.div_le_lower_bound; lia.
    + pose proof (Z.mul_div_le (Z.pos m * c) (2 ^ (- e)) HP). nia.
Qed.

(** An insertion changes neither the threshold nor the factor, and never
    shrinks the capacity. *)
Lemma insert_config (t t' : hash_table) (key : list byte)
    (key_size value rc : Z) (w w' : world) :
  hash_table_insert (Some t) (Some key) key_size value w
  = Ret ((rc, Some t'), w') ->
  _resize_threshold t' = _resize_threshold t /\
  _resize_factor t' = _resize_factor t /\
  capacity t <= capacity t'.
Proof.
  intros H. apply insert_inv in H as (gr & g & wg & Hg & H).
  assert (_resize_threshold g = _resize_threshold t /\
          _resize_factor g = _resize_factor t /\
          capacity t <= capacity g) as (Ht & Hf & Hc).
  { apply grow_inv in Hg
      as [_ [(_ & _ & -> & _)|[(_ & _ & ->)|(_ & _ & Hlt & _ & Ht & Hf & _)]]];
      repeat split; done || lia. }
  destruct H as [(_ & _ & -> & _)|[_ Hs]]; [done|].
  apply insert_slot_inv in Hs
    as [(i & n & old & vs & _ & _ & _ & _ & -> & _)
       |[(i & n & _ & _ & -> & _)
        |(i & n & b & ks & kz & vs & _ & _ & _ & _ & _ & _ & -> & _)]];
    done.
Qed.

(** Twice the capacity, for a capacity that is a power of two and the
    default factor. *)
Lemma grown_capacity_pow2 (t : hash_table) (k : Z) :
  capacity t = 2 ^ k -> 0 <= k <= 23 ->
  _resize_factor t = HASH_TABLE_DEFAULT_RESIZE_FACTOR ->
  grown_capacity t = Ret (2 * capacity t).
Proof.
  intros Hc Hk Hf. unfold grown_capacity. rewrite Hc, Hf.
  change HASH_TABLE_DEFAULT_RESIZE_FACTOR
    with (S754_finite false 8388608 (-22)).
  rewrite (mul_two_pow2 k Hk). unfold F32.to_size.
  assert (0 < 2 ^ k) as HK by (apply Z.pow_pos_nonneg; lia).
  assert (2 ^ k <= 2 ^ 23) as HK' by (apply Z.pow_le_mono_r; lia).
  change (2 ^ 23) with 8388608 in HK'.
  assert ((if 0 <=? k - 22 then 8388608 * 2 ^ (k - 22)
           else 8388608 / 2 ^ (- (k - 22))) = 2 * 2 ^ k) as ->.
  { destruct (Z.leb_spec 0 (k - 22)).
    - change 8388608 with (2 ^ 23). rewrite <- Z.pow_add_r by lia.
      replace (23 + (k - 22)) with (Z.succ k) by lia.
      by rewrite Z.pow_succ_r by lia.
    - replace 8388608 with (2 * 2 ^ k * 2 ^ (- (k - 22))).
      + apply Z.div_mul. apply Z.pow_nonzero; lia.
      + rewrite <- Z.mul_assoc, <- Z.pow_add_r, <- Z.pow_succ_r by lia.
        replace (Z.succ (k + - (k - 22))) with 23 by lia. done. }
  destruct (Z.leb_spec (2 * 2 ^ k) C.size_max); [done|].
  unfold C.size_max in *. lia.
Qed.

(** For a capacity that is a power of two, a size below 2^24 - 1 and a
    threshold of the binary32 format the load test is exact. *)
Lemma load_test_pow2 (t : hash_table) (k : Z) :
  capacity t = 2 ^ k -> 0 <= k <= 23 ->
  0 <= size t -> size t + 1 < 2 ^ 24 ->
  F32.canonical (_resize_threshold t) = true ->
  C.wrap (size t + 1) = size t + 1 /\
  load_exceeds t
  = F32.exceeds (size t + 1) (capacity t) (_resize_threshold t).
Proof.
  intros Hc Hk Hs0 Hs HT.
  assert (C.wrap (size t + 1) = size t + 1) as Hw.
  { apply wrap_small. change (2 ^ 24) with 16777216 in Hs.
    unfold C.size_max. lia. }
  split; [done|]. unfold load_exceeds. rewrite Hw, Hc.
  apply gt_quotient_exact; done || lia.
Qed.

(** With the default threshold 0.5 twice the capacity makes room. *)
Lemma default_growth_makes_room (t : hash_table) :
  _resize_threshold t = HASH_TABLE_DEFAULT_RESIZE_THRESHOLD ->
  1 <= capacity t ->
  growth_makes_room t (2 * capacity t) = true.
Proof.
  intros Ht Hc. unfold growth_makes_room. rewrite Ht.
  change HASH_TABLE_DEFAULT_RESIZE_THRESHOLD
    with (S754_finite false 8388608 (-24)).
  unfold F32.exceeds, F32.max_entries. cbn [Z.leb Z.compare Z.opp].
  change (2 ^ (- (-24))) with 16777216.
  pose proof (Z.mul_div_le (8388608 * capacity t) 16777216 ltac:(lia)).
  apply negb_true_iff, Z.ltb_ge. lia.
Qed.

(** C2 (amended): a successful insert grows the capacity, to
    [(size_t)(capacity * resize_factor)] and strictly, exactly when its
    load test fired; otherwise the capacity is unchanged and [size] is one
    more or, for a replaced value, the same.  The bound size / capacity
    <= resize_threshold, on the exact ratio, holds after the insert
    - when an entry was added without growth, provided the rounded load
      test misses no excess;
    - when the value of a present key was replaced (with or without
      growth), provided it held before;
    - when the table grew, provided it held before and the new capacity
      has room for one entry more than the old capacity allowed.
    For a capacity 2^k (k <= 23), fewer than 2^24 - 1 entries and a
    threshold of the binary32 format the load test is exact, and with the
    default factor 2.0 the new capacity is twice the old one.  Hence, with
    the default threshold 0.5 and factor 2.0 and a capacity 2^k (k <= 23),
    the bound is kept by every successful insert, and the capacity stays a
    power of two. *)
Theorem load_after_insert (t t' : hash_table) (key : list byte)
    (key_size value : Z) (w w' : world) :
  hash_table_insert (Some t) (Some key) key_size value w
  = Ret ((0, Some t'), w') ->
  (load_exceeds t = true ->
   capacity t < capacity t' /\ grown_capacity t = Ret (capacity t')) /\
  (load_exceeds t = false ->
   capacity t' = capacity t /\
   (size t' = C.wrap (size t + 1) \/ size t' = size t)) /\
  (load_exceeds t = false -> load_test_sound t = true ->
   size t' <> size t -> load_above t' = false) /\
  (forall m e,
      _resize_threshold t = S754_finite false m e ->
      load_above t = false ->
      (size t' = size t -> load_above t' = false) /\
      (load_exceeds t = true -> well_formed t = true ->
       size t = occupied t ->
       growth_makes_room t (capacity t') = true ->
       load_above t' = false)) /\
  (forall k,
      capacity t = 2 ^ k -> 0 <= k <= 23 ->
      0 <= size t -> size t + 1 < 2 ^ 24 ->
      F32.canonical (_resize_threshold t) = true ->
      load_exceeds t
      = F32.exceeds (size t + 1) (capacity t) (_resize_threshold t) /\
      load_test_sound t = true /\
      (_resize_factor t = HASH_TABLE_DEFAULT_RESIZE_FACTOR ->
       load_exceeds t = true -> capacity t' = 2 * capacity t)) /\
  (forall k,
      capacity t = 2 ^ k -> 0 <= k <= 23 ->
      _resize_threshold t = HASH_TABLE_DEFAULT_RESIZE_THRESHOLD ->
      _resize_factor t = HASH_TABLE_DEFAULT_RESIZE_FACTOR ->
      well_formed t = true -> size t = occupied t ->
      load_above t = false ->
      load_above t' = false /\
      (capacity t' = 2 ^ k \/ capacity t' = 2 ^ (k + 1))).
Proof.
  intros H.
  pose proof (insert_config _ _ _ _ _ _ _ _ H) as (Hthr & _ & Hcap).
  pose proof H as H0.
  apply insert_success_inv in H as (g & wg & Hg & Hs & Hc & Hcases).
  assert (load_exceeds t = true ->
          capacity t < capacity t' /\ grown_capacity t = Ret (capacity t'))
    as Hgrow.
  { intros Hl. destruct Hcases as [(Hl' & _)|(_ & Hlt & Hn)]; [congruence|].
    rewrite Hc. done. }
  assert (load_exceeds t = false ->
          capacity t' = capacity t /\
          (size t' = C.wrap (size t + 1) \/ size t' = size t)) as Hstay.
  { intros Hl. destruct Hcases as [(_ & -> & ->)|(Hl' & _)]; [|congruence].
    split; [done|].
    apply insert_slot_inv in Hs
      as [(i & n & old & vs & _ & _ & _ & _ & -> & _)
         |[(i & n & _ & [=] & _)
          |(i & n & b & ks & kz & vs & _ & _ & _ & _ & _ & _ & -> & _)]];
      [by right | by left]. }
  assert (load_exceeds t = false -> load_test_sound t = true ->
          size t' <> size t -> load_above t' = false) as Hnew.
  { intros Hl Hsound Hne.
    destruct Hcases as [(_ & -> & ->)|(Hl' & _)]; [|congruence].
    apply insert_slot_inv in Hs
      as [(i & n & old & vs & _ & _ & _ & _ & -> & _)
         |[(i & n & _ & [=] & _)
          |(i & n & b & ks & kz & vs & _ & _ & _ & _ & _ & _ & -> & _)]];
      [done|].
    unfold load_above. cbn [size capacity _resize_threshold set_slot].
    unfold load_test_sound in Hsound. rewrite Hl in Hsound.
    by destruct (F32.exceeds _ _ _). }
  assert (forall m e,
             _resize_threshold t = S754_finite false m e ->
             load_above t = false ->
             (size t' = size t -> load_above t' = false) /\
             (load_exceeds t = true -> well_formed t = true ->
              size t = occupied t ->
              growth_makes_room t (capacity t') = true ->
              load_above t' = false)) as Hkept.
  { intros m e Hm Hbound. unfold load_above in *. rewrite Hthr, Hm in *.
    split.
    + intros ->. by apply (exceeds_mono_d _ (capacity t)).
    + intros Hl Hwf Hsize Hroom.
      destruct (grow_keeps_entries t g w wg Hwf (or_intror Hl) Hg)
        as (Hwg & Hsg & Hog & _).
      specialize (Hsg Hsize).
      destruct (well_formed_inv g Hwg) as (Hshape & _).
      pose proof (occupied_bounds g Hshape) as Hob.
      assert (size t' <= size t + 1) as Hle.
      { apply insert_slot_inv in Hs
          as [(i & n & old & vs & _ & _ & _ & _ & -> & _)
             |[(i & n & _ & [=] & _)
              |(i & n & b & ks & kz & vs & _ & _ & _ & _ & _ & _ & -> & _)]];
          cbn [size set_values set_slot]; [lia|].
        unfold C.wrap. pose proof (Z.mod_le (size g + 1) (2 ^ 64)). lia. }
      apply exceeds_max_entries in Hbound.
      unfold growth_makes_room in Hroom. rewrite Hm in Hroom.
      apply negb_true_iff in Hroom.
      eapply exceeds_mono_n; [|exact Hroom]. lia. }
  assert (forall k,
             capacity t = 2 ^ k -> 0 <= k <= 23 ->
             0 <= size t -> size t + 1 < 2 ^ 24 ->
             F32.canonical (_resize_threshold t) = true ->
             load_exceeds t
             = F32.exceeds (size t + 1) (capacity t) (_resize_threshold t) /\
             load_test_sound t = true /\
             (_resize_factor t = HASH_TABLE_DEFAULT_RESIZE_FACTOR ->
              load_exceeds t = true -> capacity t' = 2 * capacity t))
    as Hpow.
  { intros k Hk Hkr Hs0 Hsmall HT.
    destruct (load_test_pow2 t k Hk Hkr Hs0 Hsmall HT) as [Hw Hexact].
    split; [done|]. split.
    + unfold load_test_sound. rewrite Hw, Hexact.
      by destruct (F32.exceeds _ _ _).
    + intros Hf Hl. destruct (Hgrow Hl) as [_ Hn].
      rewrite (grown_capacity_pow2 t k Hk Hkr Hf) in Hn. by injection Hn. }
  do 5 (split; [assumption|]).
  intros k Hk Hkr Ht Hf Hwf Hsize Hbound.
  assert (0 < 2 ^ k <= 2 ^ 23) as Hck.
  { split; [apply Z.pow_pos_nonneg; lia | apply Z.pow_le_mono_r; lia]. }
  change (2 ^ 23) with 8388608 in Hck.
  destruct (well_formed_inv t Hwf) as (Hshape & _).
  pose proof (occupied_bounds t Hshape) as Hob.
  assert (size t + 1 < 2 ^ 24) as Hsmall.
  { change (2 ^ 24) with 16777216. lia. }
  destruct (Hpow k Hk Hkr ltac:(lia) Hsmall) as (_ & Hsound & Hdouble).
  { by rewrite Ht. }
  destruct (Hkept 8388608%positive (-24) Ht Hbound) as [Hsame Hgrown].
  destruct (load_exceeds t) eqn:Hl.
  - specialize (Hdouble Hf eq_refl). split.
    + apply Hgrown; try done. rewrite Hdouble.
      apply default_growth_makes_room; [done | lia].
    + right. rewrite Hdouble, Hk, <- Z.pow_succ_r by lia. done.
  - destruct (Hstay eq_refl) as [Hceq Hsz]. split; [|left; congruence].
    destruct (Z.eq_dec (size t') (size t)) as [Heq|Hne];
      [by apply Hsame | by apply Hnew].
Qed.

Lemma load_after_insert_witness :
  exists t',
    hash_table_insert (Some small_table) (Some (cstring "b")) 2 200 (heap 4)
    = Ret ((0, Some t'), World [] []) /\
    load_exceeds small_table = true /\
    load_above small_table = false /\
    capacity t' = 2 * capacity small_table /\
    growth_makes_room small_table (capacity t') = true /\
    size t' = 2 /\ load_above t' = false.
Proof.
  eassert (hash_table_insert (Some small_table) (Some (cstring "b")) 2 200
             (heap 4) = Ret ((0, Some _), World [] [])) as Hrun
    by (vm_compute; reflexivity).
  assert (load_exceeds small_table = true) as Hl by (vm_compute; reflexivity).
  assert (0 <= 1 <= 23) as Hk by lia.
  assert (0 <= size small_table) as Hs0 by (simpl; lia).
  assert (size small_table + 1 < 2 ^ 24) as Hs by (simpl; lia).
  destruct (load_after_insert small_table _ (cstring "b") 2 200 (heap 4)
              (World [] []) Hrun) as (_ & _ & _ & _ & Hpow & Hdef).
  destruct (Hpow 1 eq_refl Hk Hs0 Hs eq_refl) as (_ & _ & Hdouble).
  destruct (Hdef 1 eq_refl Hk eq_refl eq_refl eq_refl eq_refl eq_refl)
    as [Hb _].
  eexists. split; [exact Hrun|]. split; [exact Hl|].
  split; [reflexivity|]. split; [exact (Hdouble eq_refl Hl)|].
  split; [reflexivity|]. split; [reflexivity|]. exact Hb.
Defined.

(** With the factor 2.0 and the threshold 0.5 or 0.75 the side conditions
    of the load bound hold at every capacity from 1 to 200, power of two
    or not, whatever the size. *)
Lemma bound_conditions_small (c s : Z) :
  1 <= c <= 200 -> 0 <= s <= c ->
  bound_conditions half two c s = true /\
  bound_conditions three_quarters two c s = true.
Proof.
  intros Hc Hs.
  assert (forall thr, bound_conditions_upto thr two 200 = true ->
                      bound_conditions thr two c s = true) as Hall.
  { intros thr H. unfold bound_conditions_upto in H.
    rewrite forallb_forall in H.
    specialize (H (Z.to_nat c)). rewrite forallb_forall in H.
    specialize (H ltac:(apply in_seq; lia) (Z.to_nat s)
                  ltac:(apply in_seq; lia)).
    by rewrite !Z2Nat.id in H by lia. }
  split; apply Hall; vm_compute; reflexivity.
Qed.

(** * Keys of different declared lengths *)

Lemma strlen_terminated (bytes rest : list byte) :
  Forall (fun b => b <> x00) bytes ->
  strlen (bytes ++ x00 :: rest) = Ret (Z.of_nat (length bytes)).
Proof.
  induction 1 as [|b l Hb _ IH]; [done|].
  cbn [app strlen]. destruct (Byte.eqb b x00) eqn:E.
  { by apply Byte.byte_dec_bl in E. }
  rewrite IH. cbn [rbind length]. f_equal. lia.
Qed.

Lemma read_bytes_differ (k1 k2 : list byte) (n1 n2 : Z) :
  0 <= n1 -> 0 <= n2 -> n1 <> n2 ->
  n1 <= Z.of_nat (length k1) -> n2 <= Z.of_nat (length k2) ->
  read_bytes k2 n2 <> read_bytes k1 n1.
Proof.
  intros H1 H2 Hne Hl1 Hl2. unfold read_bytes.
  destruct (Z.leb_spec n1 (Z.of_nat (length k1))); [|lia].
  destruct (Z.leb_spec n2 (Z.of_nat (length k2))); [|lia].
  intros [= Heq]. apply (f_equal length) in Heq.
  rewrite !length_take in Heq. lia.
Qed.

(** The string wrappers pass the number of bytes before the first zero
    byte, plus one for that byte. *)
Lemma string_key_size_terminated (bytes rest : list byte) :
  Forall (fun b => b <> x00) bytes ->
  Z.of_nat (length bytes) < C.size_max ->
  string_key_size (bytes ++ x00 :: rest)
  = Ret (Z.of_nat (length bytes) + 1).
Proof.
  intros Hb Hlen. unfold string_key_size.
  rewrite (strlen_terminated bytes rest Hb). cbn [rbind].
  rewrite wrap_small by lia. done.
Qed.

(** After the successful insertion of a key, a key of another declared
    length that get found is found as before, beside the new one. *)
Lemma insert_other_length (t t' : hash_table) (k1 k2 : list byte)
    (n1 n2 v1 v2 : Z) (w w' : world) :
  n1 <> n2 -> 0 <= n1 -> 0 <= n2 ->
  well_formed t = true -> keys_distinct t = true ->
  occupied t < capacity t \/ load_exceeds t = true ->
  hash_table_insert (Some t) (Some k2) n2 v2 w = Ret ((0, Some t'), w') ->
  hash_table_get (Some t) (Some k1) n1 = Ret v1 -> v1 <> NULL ->
  hash_table_get (Some t') (Some k1) n1 = Ret v1 /\
  hash_table_contains (Some t') (Some k1) n1 = Ret 1 /\
  hash_table_get (Some t') (Some k2) n2 = Ret v2 /\
  hash_table_contains (Some t') (Some k2) n2
  = Ret (if v2 =? NULL then 0 else 1).
Proof.
  intros Hne H1 H2 Hwf Hdist Hfree Hrun Hget Hv.
  destruct (well_formed_inv t Hwf) as (Hs & _).
  pose proof (shaped_inv t Hs) as (Hcap & _).
  assert (n1 <= Z.of_nat (length k1) /\ 0 < capacity t) as [Hl1 Hpos].
  { unfold hash_table_get in Hget. inv_run Hget. destruct a as [sc n].
    split; [by apply find_slot_in_bounds in E|].
    apply find_slot_index in E; lia. }
  assert (n2 <= Z.of_nat (length k2)) as Hl2.
  { pose proof Hrun as Hrun'.
    apply insert_success_inv in Hrun' as (g & wg & _ & Hslot & _).
    apply insert_slot_inv in Hslot
      as [(i & n & old & vs & Hf & _)
         |[(i & n & Hf & _)
          |(i & n & b & ks & kz & vs & Hf & _)]];
      by apply find_slot_in_bounds in Hf. }
  pose proof (read_bytes_differ k1 k2 n1 n2 H1 H2 Hne Hl1 Hl2) as Hdiff.
  assert (hash_table_get (Some t') (Some k1) n1 = Ret v1) as Hold
    by (by apply (insert_frame t t' k2 n2 v2 w w')).
  assert (hash_table_get (Some t') (Some k2) n2 = Ret v2) as Hnew
    by (apply (get_after_insert t t' k2 n2 v2 w w'); done || lia).
  split; [done|]. split; [|split; [done|]].
  - unfold hash_table_contains. rewrite Hold. cbn [rbind].
    by destruct (Z.eqb_spec v1 NULL).
  - unfold hash_table_contains. by rewrite Hnew.
Qed.

(** C8: two keys with different declared lengths never match.  The equality
    test shared by all operations rejects a stored key whose recorded
    length differs from the queried one; hence the scan of get, contains,
    insert and remove for [(k2, n2)] never stops with a match on a slot
    that records length [n1]; get returns a value, and contains 1, only
    from a slot that records [n2]; remove leaves every slot that records
    [n1] as it was; a successful insert of [(k2, n2)] stores its value
    beside the entry of [(k1, n1)], which get and contains find as before.
    The string wrappers pass [strlen(key) + 1], the bytes before the first
    zero byte and that byte, so the string key and the binary key made of
    the same bytes without the terminator are two keys. *)
Theorem keys_distinct_by_length (t : hash_table) (k1 k2 : list byte)
    (n1 n2 : Z) :
  n1 <> n2 ->
  (forall stored, key_matches stored n1 k2 n2 = false) /\
  (forall i n, load (key_sizes t) i = Ret n1 ->
               find_slot t k2 n2 <> Ret (Hit i, n)) /\
  (forall v, hash_table_get (Some t) (Some k2) n2 = Ret v -> v <> NULL ->
             exists i, load (key_sizes t) i = Ret n2 /\
                       load (values t) i = Ret v) /\
  (hash_table_contains (Some t) (Some k2) n2 = Ret 1 ->
   exists i v, load (key_sizes t) i = Ret n2 /\
               load (values t) i = Ret v /\ v <> NULL) /\
  (forall w t' w' i,
      hash_table_remove (Some t) (Some k2) n2 w = Ret (Some t', w') ->
      load (key_sizes t) i = Ret n1 ->
      load (keys t') i = load (keys t) i /\
      load (key_sizes t') i = Ret n1 /\
      load (values t') i = load (values t) i) /\
  (forall v1 v2 w t' w',
      0 <= n1 -> 0 <= n2 ->
      well_formed t = true -> keys_distinct t = true ->
      occupied t < capacity t \/ load_exceeds t = true ->
      hash_table_insert (Some t) (Some k2) n2 v2 w
      = Ret ((0, Some t'), w') ->
      hash_table_get (Some t) (Some k1) n1 = Ret v1 -> v1 <> NULL ->
      hash_table_get (Some t') (Some k1) n1 = Ret v1 /\
      hash_table_contains (Some t') (Some k1) n1 = Ret 1 /\
      hash_table_get (Some t') (Some k2) n2 = Ret v2 /\
      hash_table_contains (Some t') (Some k2) n2
      = Ret (if v2 =? NULL then 0 else 1)) /\
  (forall table s v value value_size w,
      hash_table_get_string table (Some s)
      = (n <-- strlen s ;; hash_table_get table (Some s) (C.wrap (n + 1))) /\
      hash_table_contains_string table (Some s)
      = (n <-- strlen s ;;
         hash_table_contains table (Some s) (C.wrap (n + 1))) /\
      hash_table_insert_string table (Some s) v w
      = (n <- lift (strlen s) ;;
         hash_table_insert table (Some s) (C.wrap (n + 1)) v) w /\
      hash_table_insert_copy_string table (Some s) value value_size w
      = (n <- lift (strlen s) ;;
         hash_table_insert_copy table (Some s) (C.wrap (n + 1))
           value value_size) w /\
      hash_table_remove_string table (Some s) w
      = (n <- lift (strlen s) ;;
         hash_table_remove table (Some s) (C.wrap (n + 1))) w) /\
  (forall bytes rest table v value value_size w,
      Forall (fun b => b <> x00) bytes ->
      Z.of_nat (length bytes) < C.size_max ->
      string_key_size (bytes ++ x00 :: rest)
      = Ret (Z.of_nat (length bytes) + 1) /\
      hash_table_get_string table (Some (bytes ++ x00 :: rest))
      = hash_table_get table (Some (bytes ++ x00 :: rest))
          (Z.of_nat (length bytes) + 1) /\
      hash_table_contains_string table (Some (bytes ++ x00 :: rest))
      = hash_table_contains table (Some (bytes ++ x00 :: rest))
          (Z.of_nat (length bytes) + 1) /\
      hash_table_insert_string table (Some (bytes ++ x00 :: rest)) v w
      = hash_table_insert table (Some (bytes ++ x00 :: rest))
          (Z.of_nat (length bytes) + 1) v w /\
      hash_table_insert_copy_string table (Some (bytes ++ x00 :: rest))
        value value_size w
      = hash_table_insert_copy table (Some (bytes ++ x00 :: rest))
          (Z.of_nat (length bytes) + 1) value value_size w /\
      hash_table_remove_string table (Some (bytes ++ x00 :: rest)) w
      = hash_table_remove table (Some (bytes ++ x00 :: rest))
          (Z.of_nat (length bytes) + 1) w) /\
  (forall bytes v1 v2 w t' w',
      Forall (fun b => b <> x00) bytes ->
      Z.of_nat (length bytes) < C.size_max ->
      well_formed t = true -> keys_distinct t = true ->
      occupied t < capacity t \/ load_exceeds t = true ->
      hash_table_get_string (Some t) (Some (bytes ++ [x00])) = Ret v1 ->
      v1 <> NULL ->
      hash_table_insert (Some t) (Some bytes) (Z.of_nat (length bytes)) v2 w
      = Ret ((0, Some t'), w') ->
      hash_table_get_string (Some t') (Some (bytes ++ [x00])) = Ret v1 /\
      hash_table_get (Some t') (Some bytes) (Z.of_nat (length bytes))
      = Ret v2).
Proof.
  intros Hne.
  assert (forall i n, load (key_sizes t) i = Ret n1 ->
                      find_slot t k2 n2 <> Ret (Hit i, n)) as Hscan.
  { intros i n Hi Hfind.
    apply find_slot_hit in Hfind as (stored & _ & Hz & _). congruence. }
  assert (forall v, hash_table_get (Some t) (Some k2) n2 = Ret v ->
                    v <> NULL ->
                    exists i, load (key_sizes t) i = Ret n2 /\
                              load (values t) i = Ret v) as Hgetslot.
  { intros v Hget Hv. unfold hash_table_get in Hget. inv_run Hget.
    destruct a as [[i|i] n]; simpl in Hget; [|by injection Hget as <-].
    apply find_slot_hit in E as (stored & _ & Hz & _). by exists i. }
  assert (forall bytes rest table v value value_size w,
             Forall (fun b => b <> x00) bytes ->
             Z.of_nat (length bytes) < C.size_max ->
             string_key_size (bytes ++ x00 :: rest)
             = Ret (Z.of_nat (length bytes) + 1) /\
             hash_table_get_string table (Some (bytes ++ x00 :: rest))
             = hash_table_get table (Some (bytes ++ x00 :: rest))
                 (Z.of_nat (length bytes) + 1) /\
             hash_table_contains_string table (Some (bytes ++ x00 :: rest))
             = hash_table_contains table (Some (bytes ++ x00 :: rest))
                 (Z.of_nat (length bytes) + 1) /\
             hash_table_insert_string table (Some (bytes ++ x00 :: rest)) v w
             = hash_table_insert table (Some (bytes ++ x00 :: rest))
                 (Z.of_nat (length bytes) + 1) v w /\
             hash_table_insert_copy_string table
               (Some (bytes ++ x00 :: rest)) value value_size w
             = hash_table_insert_copy table (Some (bytes ++ x00 :: rest))
                 (Z.of_nat (length bytes) + 1) value value_size w /\
             hash_table_remove_string table (Some (bytes ++ x00 :: rest)) w
             = hash_table_remove table (Some (bytes ++ x00 :: rest))
                 (Z.of_nat (length bytes) + 1) w) as Hwrap.
  { intros bytes rest table v value value_size w Hb Hlen.
    pose proof (string_key_size_terminated bytes rest Hb Hlen) as Hsz.
    split; [done|].
    unfold hash_table_get_string, hash_table_contains_string,
      hash_table_insert_string, hash_table_insert_copy_string,
      hash_table_remove_string, bind, lift.
    rewrite Hsz. done. }
  split; [|split; [|split; [|split; [|split; [|split; [|split; [|split]]]]]]].
  - intros stored. by apply key_matches_length.
  - exact Hscan.
  - exact Hgetslot.
  - intros Hc. unfold hash_table_contains in Hc. inv_run Hc.
    destruct (Z.eqb_spec a NULL) as [|Hv]; [done|].
    destruct (Hgetslot a E Hv) as (i & Hi & Hvi). by exists i, a.
  - intros w t' w' i Hrem Hi. unfold hash_table_remove in Hrem.
    inv_run Hrem. destruct a as [[j|j] n]; simpl in Hrem.
    2: { apply ret_Ret in Hrem as [[= ->] _]. done. }
    assert (Z.to_nat i <> Z.to_nat j) as Hij.
    { intros Heq. apply find_slot_hit in E as (stored & _ & Hz & _).
      apply load_inv in Hi as (l & Hl & Hi).
      apply load_inv in Hz as (l' & Hl' & Hz). congruence. }
    do 7 inv_run Hrem. apply ret_Ret in Hrem as [[= ->] _]. simpl.
    rewrite (load_store_other _ _ i j _ E4 Hij).
    rewrite (load_store_other _ _ i j _ E5 Hij).
    rewrite (load_store_other _ _ i j _ E6 Hij). done.
  - intros v1 v2 w t' w' H1 H2 Hwf Hdist Hfree Hrun Hget Hv.
    by apply (insert_other_length t t' k1 k2 n1 n2 v1 v2 w w').
  - intros table s v value value_size w.
    unfold hash_table_get_string, hash_table_contains_string,
      hash_table_insert_string, hash_table_insert_copy_string,
      hash_table_remove_string, string_key_size.
    rewrite !rbind_assoc_ret, !bind_lift_rbind. done.
  - exact Hwrap.
  - intros bytes v1 v2 w t' w' Hb Hlen Hwf Hdist Hfree Hget Hv Hrun.
    destruct (Hwrap bytes [] (Some t) 0 None 0 w Hb Hlen) as (_ & Hg & _).
    destruct (Hwrap bytes [] (Some t') 0 None 0 w Hb Hlen) as (_ & Hg' & _).
    rewrite Hg in Hget. rewrite Hg'.
    destruct (insert_other_length t t' (bytes ++ [x00]) bytes
                (Z.of_nat (length bytes) + 1) (Z.of_nat (length bytes))
                v1 v2 w w') as (Hold & _ & Hnew & _); try done; lia.
Qed.

Lemma keys_distinct_by_length_witness :
  2 <> 1 /\
  exists t',
    hash_table_insert (Some small_table) (Some ["a"]%byte) 1 200 (heap 4)
    = Ret ((0, Some t'), World [] []) /\
    hash_table_get_string (Some small_table) (Some (cstring "a")) = Ret 100 /\
    hash_table_get_string (Some t') (Some (cstring "a")) = Ret 100 /\
    hash_table_get (Some t') (Some ["a"]%byte) 1 = Ret 200 /\
    hash_table_contains (Some t') (Some (cstring "a")) 2 = Ret 1 /\
    hash_table_contains (Some t') (Some ["a"]%byte) 1 = Ret 1 /\
    string_key_size (cstring "a") = Ret 2.
Proof.
  assert (2 <> 1) as Hne by lia.
  assert (occupied small_table < capacity small_table) as Hfree
    by reflexivity.
  assert (100 <> NULL) as Hv by discriminate.
  assert (Forall (fun b => b <> x00) ["a"]%byte) as Hb
    by (repeat constructor; discriminate).
  assert (Z.of_nat (length ["a"]%byte) < C.size_max) as Hlen
    by (unfold C.size_max; simpl; lia).
  assert (0 <= 2) as H2 by lia.
  assert (0 <= 1) as H1 by lia.
  eassert (hash_table_insert (Some small_table) (Some ["a"]%byte) 1 200
             (heap 4) = Ret ((0, Some _), World [] [])) as Hrun
    by (vm_compute; reflexivity).
  destruct (keys_distinct_by_length small_table (cstring "a") ["a"]%byte
              2 1 Hne)
    as (_ & _ & _ & _ & _ & Hins & _ & Hwrap & Hstr).
  destruct (Hins 100 200 (heap 4) _ (World [] []) H2 H1 eq_refl eq_refl
              (or_introl Hfree) Hrun eq_refl Hv)
    as (_ & Hc1 & _ & Hc2).
  destruct (Hstr ["a"]%byte 100 200 (heap 4) _ (World [] []) Hb Hlen
              eq_refl eq_refl (or_introl Hfree) eq_refl Hv Hrun)
    as (Hold & Hnew).
  destruct (Hwrap ["a"]%byte [] None 0 None 0 (heap 0) Hb Hlen)
    as (Hsz & _).
  split; [exact Hne|]. eexists. split; [exact Hrun|].
  split; [reflexivity|]. split; [exact Hold|]. split; [exact Hnew|].
  split; [exact Hc1|]. split; [exact Hc2|]. exact Hsz.
Defined.
